(** * A shallow embedding of the JAM state-transition pipeline

    The Python sources are embedded component by component:

    - [Py]          the fragment of Python's built-ins the components rely on
                    (exceptions, [bytes.fromhex], [bytes.hex], slices, stable sort);
    - [History]     Jam-history/history_stf.py (MMR append, beta transition);
    - [Safrole]     src/jam/core/safrole_manager.py with its helpers;
    - [Assurances]  assurances/assurances_component.py;
    - [Guarantees]  Reports-Python/src/onchain/extrinsics/guarantee_processor.py;
    - [Grandpa]     Grandpa/grandpa_prod.py (tally and finalisation of a round);
    - [Preimages]   Jam-preimages/src/stf/run_test.py.

    Hash functions and remote services are library or network code: they are
    section variables, so every theorem holds for any implementation of them. *)

From Stdlib Require Import ZArith List Strings.String Strings.Ascii Strings.Byte Lia Bool.
From Stdlib Require Import Sorting.Sorted Sorting.Permutation.
From stdpp Require Import base option list gmap strings pretty sorting.

Local Open Scope Z_scope.

(* ===================================================================== *)
(** ** Python built-ins *)
(* ===================================================================== *)

Module Py.

(** The exceptions the embedded code can raise. *)
Inductive exn : Type :=
| ValueError (msg : string)
| IndexError
| KeyError (key : string)
| ZeroDivisionError
| OverflowError
| NameError (name : string)
| Exception (msg : string).

(** A computation either returns or raises. *)
Inductive result (A : Type) : Type :=
| Ok (a : A)
| Raise (e : exn).
Arguments Ok {A} a.
Arguments Raise {A} e.

#[global] Instance result_ret : MRet result := fun _ a => Ok a.
#[global] Instance result_bind : MBind result := fun _ _ f m =>
  match m with
  | Ok a => f a
  | Raise e => Raise e
  end.

Definition is_ok {A} (r : result A) : bool :=
  match r with Ok _ => true | Raise _ => false end.

(** [l[i]] for a non-negative index; [IndexError] out of range. *)
Definition getitem {A} (l : list A) (i : nat) : result A :=
  match l !! i with
  | Some x => Ok x
  | None => Raise IndexError
  end.

(** [l[:n]], for every integer [n]. *)
Definition slice_to {A} (l : list A) (n : Z) : list A :=
  if 0 <=? n then firstn (Z.to_nat n) l
  else firstn (Z.to_nat (Z.of_nat (length l) + n)) l.

(** [s[2:]] on strings. *)
Definition drop2 (s : string) : string :=
  match s with
  | String _ (String _ r) => r
  | _ => ""
  end.

Definition startswith_0x (s : string) : bool :=
  match s with
  | String "0" (String "x" _) => true
  | _ => false
  end.

(** *** Hexadecimal: [bytes.fromhex] and [bytes.hex] *)

Definition hex_digit_value (c : ascii) : option N :=
  let n := N_of_ascii c in
  if ((48 <=? n) && (n <=? 57))%N then Some (n - 48)%N
  else if ((97 <=? n) && (n <=? 102))%N then Some (n - 87)%N
  else if ((65 <=? n) && (n <=? 70))%N then Some (n - 55)%N
  else None.

(** ASCII whitespace, skipped by [bytes.fromhex] between two bytes. *)
Definition is_ascii_space (c : ascii) : bool :=
  let n := N_of_ascii c in
  ((n =? 32) || ((9 <=? n) && (n <=? 13)))%N.

Definition byte_of_nibbles (hi lo : N) : byte :=
  byte_of_ascii (ascii_of_N (16 * hi + lo)).

(** [bytes.fromhex(s)]: pairs of hexadecimal digits, ASCII whitespace allowed
    between pairs; [None] stands for the [ValueError] it raises. *)
Fixpoint fromhex (s : string) : option (list byte) :=
  match s with
  | EmptyString => Some []
  | String c r =>
      if is_ascii_space c then fromhex r
      else
        match hex_digit_value c, r with
        | Some hi, String d r' =>
            match hex_digit_value d with
            | Some lo => cons (byte_of_nibbles hi lo) <$> fromhex r'
            | None => None
            end
        | _, _ => None
        end
  end.

Definition bytes_fromhex (s : string) : result (list byte) :=
  match fromhex s with
  | Some b => Ok b
  | None => Raise (ValueError "non-hexadecimal number found in fromhex() arg")
  end.

Definition hex_char (n : N) : ascii :=
  if (n <? 10)%N then ascii_of_N (48 + n) else ascii_of_N (87 + n).

(** [b.hex()]: two lower-case digits per byte. *)
Fixpoint bytes_hex (b : list byte) : string :=
  match b with
  | [] => EmptyString
  | x :: r =>
      let n := Byte.to_N x in
      String (hex_char (n / 16)) (String (hex_char (n mod 16)) (bytes_hex r))
  end.

(** [s.encode()] for the ASCII strings the components handle. *)
Definition encode (s : string) : list byte := list_byte_of_string s.

(** *** Order on [bytes], and the stable sort behind [list.sort(key=...)] *)

Fixpoint bytes_compare (a b : list byte) : comparison :=
  match a, b with
  | [], [] => Eq
  | [], _ :: _ => Lt
  | _ :: _, [] => Gt
  | x :: a', y :: b' =>
      match N.compare (Byte.to_N x) (Byte.to_N y) with
      | Eq => bytes_compare a' b'
      | c => c
      end
  end.

Definition bytes_leb (a b : list byte) : bool :=
  match bytes_compare a b with Gt => false | _ => true end.

Definition bytes_lt (a b : list byte) : Prop := bytes_compare a b = Lt.

Section Sort.
Context {A : Type} (key : A -> list byte).

(** Insertion after the elements whose key is not larger: equal keys keep
    their order, as in Python's stable [sort]. *)
Fixpoint insert_by (x : A) (l : list A) : list A :=
  match l with
  | [] => [x]
  | y :: r =>
      if bytes_leb (key y) (key x) then y :: insert_by x r
      else x :: y :: r
  end.

Definition sort_by (l : list A) : list A :=
  foldl (fun acc x => insert_by x acc) [] l.
End Sort.

(** *** [collections.Counter] as an insertion-ordered list of counts *)

Section Counter.
Context {K : Type} `{EqDecision K}.

(** [counts[k] = counts.get(k, 0) + 1] *)
Definition bump (k : K) (counts : list (K * nat)) : list (K * nat) :=
  match list_find (fun p => p.1 = k) counts with
  | Some (i, (c, n)) => <[i := (c, S n)]> counts
  | None => counts ++ [(k, 1%nat)]
  end.

(** [Counter(l)] *)
Definition counter (l : list K) : list (K * nat) :=
  foldl (fun counts k => bump k counts) [] l.

(** [most_common(1)]: the first entry whose count no other exceeds. *)
Definition most_common1 (counts : list (K * nat)) : option (K * nat) :=
  foldl (fun best p =>
           match best with
           | None => Some p
           | Some b => if (b.2 <? p.2)%nat then Some p else Some b
           end) None counts.
End Counter.

(** [len(set(l)) != len(l)] *)
Definition has_duplicates `{EqDecision A} (l : list A) : bool :=
  negb (length (remove_dups l) =? length l)%nat.

(** *** Facts about the built-ins *)

Lemma fromhex_hex_byte (x : byte) (s : string) :
  fromhex (String (hex_char (Byte.to_N x / 16))
             (String (hex_char (Byte.to_N x mod 16)) s))
  = cons x <$> fromhex s.
Proof. destruct x; reflexivity. Qed.

(** Decoding what [bytes.hex] printed gives the bytes back. *)
Lemma fromhex_bytes_hex (b : list byte) : fromhex (bytes_hex b) = Some b.
Proof.
  induction b as [|x b IH]; [reflexivity|].
  cbn [bytes_hex]. rewrite fromhex_hex_byte, IH. reflexivity.
Qed.

Lemma bytes_hex_inj (a b : list byte) : bytes_hex a = bytes_hex b -> a = b.
Proof.
  intros H. apply (f_equal fromhex) in H.
  rewrite !fromhex_bytes_hex in H. congruence.
Qed.

Lemma land_shiftl_testbit (a : Z) (h : nat) :
  (Z.land a (Z.shiftl 1 (Z.of_nat h)) =? 0) = negb (Z.testbit a (Z.of_nat h)).
Proof.
  rewrite Z.shiftl_1_l.
  destruct (Z.testbit a (Z.of_nat h)) eqn:Hb; simpl.
  - apply Z.eqb_neq. intros H0.
    assert (Z.testbit (Z.land a (2 ^ Z.of_nat h)) (Z.of_nat h) = true) as H.
    { rewrite Z.land_spec, Hb, Z.pow2_bits_true by lia. reflexivity. }
    rewrite H0, Z.bits_0 in H. discriminate.
  - apply Z.eqb_eq. apply Z.bits_inj'. intros n Hn.
    rewrite Z.land_spec, Z.bits_0.
    destruct (Z.eq_dec n (Z.of_nat h)) as [->|Hne].
    + rewrite Hb. reflexivity.
    + rewrite Z.pow2_bits_false by lia. apply andb_false_r.
Qed.

(** The lowest clear bit of an integer sits at most one above [log2 |a|]. *)
Lemma clear_bit_bound (a : Z) (k : nat) :
  (forall i, (i < k)%nat -> Z.testbit a (Z.of_nat i) = true) ->
  Z.testbit a (Z.of_nat k) = false ->
  (k <= S (Z.to_nat (Z.log2 (Z.abs a))))%nat.
Proof.
  intros Hlow Hk.
  destruct (Z_lt_le_dec a 0) as [Hneg|Hpos].
  - destruct (Z_lt_le_dec (Z.log2 (Z.pred (- a))) (Z.of_nat k)) as [Hlt|Hle].
    + rewrite (Z.bits_above_log2_neg a (Z.of_nat k) Hneg Hlt) in Hk. discriminate.
    + assert (Z.log2 (Z.pred (- a)) <= Z.log2 (Z.abs a)).
      { apply Z.log2_le_mono. lia. }
      lia.
  - destruct k as [|k]; [lia|].
    specialize (Hlow k (Nat.lt_succ_diag_r k)).
    destruct (Z_lt_le_dec (Z.log2 a) (Z.of_nat k)) as [Hlt|Hle].
    + rewrite (Z.bits_above_log2 a (Z.of_nat k) Hpos Hlt) in Hlow. discriminate.
    + rewrite Z.abs_eq by lia. lia.
Qed.

(** Every integer but [-1] has a clear bit. *)
Lemma exists_clear_bit (a : Z) :
  a <> -1 -> exists j : nat, Z.testbit a (Z.of_nat j) = false.
Proof.
  intros Ha. destruct (Z_lt_le_dec a 0) as [Hneg|Hpos].
  - exists (Z.to_nat (Z.log2 (Z.lnot a))).
    assert (0 < Z.lnot a) as H by (unfold Z.lnot; lia).
    rewrite Z2Nat.id by apply Z.log2_nonneg.
    pose proof (Z.bit_log2 (Z.lnot a) H) as Hb.
    rewrite Z.lnot_spec in Hb by apply Z.log2_nonneg.
    destruct (Z.testbit a (Z.log2 (Z.lnot a))); [discriminate|reflexivity].
  - exists (Z.to_nat (Z.log2 a + 1)).
    rewrite Z2Nat.id by (pose proof (Z.log2_nonneg a); lia).
    apply Z.bits_above_log2; lia.
Qed.

(** ... hence a lowest one. *)
Lemma lowest_clear_bit (a : Z) :
  a <> -1 ->
  exists k : nat, Z.testbit a (Z.of_nat k) = false /\
    forall i, (i < k)%nat -> Z.testbit a (Z.of_nat i) = true.
Proof.
  intros Ha. destruct (exists_clear_bit a Ha) as [j Hj].
  revert Hj. induction j as [j IH] using lt_wf_ind. intros Hj.
  destruct (decide (Forall (fun i => Z.testbit a (Z.of_nat i) = true) (seq 0 j)))
    as [Hall|Hnot].
  - exists j. split; [exact Hj|]. intros i Hi.
    rewrite Forall_forall in Hall. apply Hall, elem_of_seq. lia.
  - apply not_Forall_Exists in Hnot; [|intros i; apply _].
    apply Exists_exists in Hnot as (i & Hi & Hbit).
    apply elem_of_seq in Hi.
    apply (IH i); [lia|]. simpl in Hbit.
    destruct (Z.testbit a (Z.of_nat i)); congruence.
Qed.

(** *** The order on [bytes] and the sort *)

Lemma byte_to_N_inj (x y : byte) : Byte.to_N x = Byte.to_N y -> x = y.
Proof.
  intros H. apply (f_equal Byte.of_N) in H.
  rewrite !Byte.of_to_N in H. congruence.
Qed.

Lemma bytes_compare_eq (a b : list byte) : bytes_compare a b = Eq -> a = b.
Proof.
  revert b. induction a as [|x a IH]; intros [|y b]; cbn; try discriminate; [reflexivity|].
  destruct (N.compare_spec (Byte.to_N x) (Byte.to_N y)) as [Hxy| |]; try discriminate.
  intros H. f_equal; [apply byte_to_N_inj, Hxy|apply IH, H].
Qed.


Lemma bytes_compare_antisym (a b : list byte) :
  bytes_compare b a = CompOpp (bytes_compare a b).
Proof.
  revert b. induction a as [|x a IH]; intros [|y b]; cbn; try reflexivity.
  rewrite (N.compare_antisym (Byte.to_N x) (Byte.to_N y)).
  destruct (Byte.to_N x ?= Byte.to_N y)%N; cbn; auto.
Qed.

Lemma bytes_lt_trans (a b c : list byte) :
  bytes_lt a b -> bytes_lt b c -> bytes_lt a c.
Proof.
  unfold bytes_lt. revert b c.
  induction a as [|x a IH]; intros [|y b] [|z c]; cbn; try discriminate; auto.
  destruct (N.compare_spec (Byte.to_N x) (Byte.to_N y)) as [Hxy|Hxy|Hxy];
    destruct (N.compare_spec (Byte.to_N y) (Byte.to_N z)) as [Hyz|Hyz|Hyz];
    try discriminate; intros H1 H2.
  - rewrite Hxy, Hyz, N.compare_refl. eauto.
  - rewrite Hxy. apply N.compare_lt_iff in Hyz. rewrite Hyz. reflexivity.
  - rewrite <- Hyz. apply N.compare_lt_iff in Hxy. rewrite Hxy. reflexivity.
  - assert (Byte.to_N x < Byte.to_N z)%N as H by lia.
    apply N.compare_lt_iff in H. rewrite H. reflexivity.
Qed.

Lemma bytes_leb_lt_or_eq (a b : list byte) :
  bytes_leb a b = true -> bytes_lt a b \/ a = b.
Proof.
  unfold bytes_leb, bytes_lt. destruct (bytes_compare a b) eqn:H; try discriminate; auto.
  right. apply bytes_compare_eq, H.
Qed.

Lemma bytes_leb_total (a b : list byte) :
  bytes_leb a b = false -> bytes_lt b a.
Proof.
  unfold bytes_leb, bytes_lt. rewrite (bytes_compare_antisym a b).
  destruct (bytes_compare a b); cbn; congruence.
Qed.


Section SortFacts.
Context {A : Type} (key : A -> list byte).

(** Sorted by key, ties allowed / ties excluded. *)
Definition key_le (x y : A) : Prop := bytes_lt (key x) (key y) \/ key x = key y.

Lemma key_le_trans (x y w : A) : key_le x y -> key_le y w -> key_le x w.
Proof.
  unfold key_le. intros [H1|H1] [H2|H2].
  - left. eapply bytes_lt_trans; eauto.
  - left. rewrite <- H2. exact H1.
  - left. rewrite H1. exact H2.
  - right. congruence.
Qed.

Lemma insert_by_perm (x : A) (l : list A) : Permutation (insert_by key x l) (x :: l).
Proof.
  induction l as [|y r IH]; cbn; [reflexivity|].
  destruct (bytes_leb (key y) (key x)); [|reflexivity].
  rewrite IH. apply perm_swap.
Qed.

Lemma insert_by_sorted (x : A) (l : list A) :
  StronglySorted key_le l -> StronglySorted key_le (insert_by key x l).
Proof.
  induction 1 as [|y r Hr IH Hall]; cbn.
  - repeat constructor.
  - destruct (bytes_leb (key y) (key x)) eqn:Hyx.
    + constructor; [exact IH|].
      rewrite (insert_by_perm x r). constructor; [|exact Hall].
      apply bytes_leb_lt_or_eq, Hyx.
    + apply bytes_leb_total in Hyx.
      constructor; [constructor; assumption|].
      constructor; [left; exact Hyx|].
      eapply Forall_impl; [exact Hall|]. intros w Hw.
      eapply key_le_trans; [left; exact Hyx|exact Hw].
Qed.

Lemma sort_by_acc (l acc : list A) :
  StronglySorted key_le acc ->
  StronglySorted key_le (foldl (fun acc x => insert_by key x acc) acc l)
  /\ Permutation (foldl (fun acc x => insert_by key x acc) acc l) (acc ++ l).
Proof.
  revert acc. induction l as [|x l IH]; intros acc Hacc; cbn [foldl].
  - rewrite app_nil_r. auto.
  - destruct (IH (insert_by key x acc) (insert_by_sorted x acc Hacc)) as [Hs Hp].
    split; [exact Hs|]. rewrite Hp, insert_by_perm.
    apply Permutation_middle.
Qed.

Lemma sort_by_sorted (l : list A) : StronglySorted key_le (sort_by key l).
Proof. apply (sort_by_acc l []). constructor. Qed.

Lemma sort_by_perm (l : list A) : Permutation (sort_by key l) l.
Proof. apply (sort_by_acc l []). constructor. Qed.





End SortFacts.

Lemma has_duplicates_false `{EqDecision A} (l : list A) :
  has_duplicates l = false -> NoDup l.
Proof.
  unfold has_duplicates. intros H. apply negb_false_iff, Nat.eqb_eq in H.
  induction l as [|x l IH]; [constructor|].
  assert (length (remove_dups l) <= length l)%nat as Hle.
  { clear. induction l as [|y l IH]; cbn; [lia|]. case_decide; cbn; lia. }
  cbn in H. case_decide as Hx; cbn in H; [lia|].
  apply NoDup_cons. split; [exact Hx|]. apply IH. lia.
Qed.

(** *** Facts about the counter *)

Section CounterFacts.
Context {K : Type} `{EqDecision K}.
Local Open Scope nat_scope.

(** The count recorded for [k], and the occurrences of [k] in a list. *)
Fixpoint count_of (k : K) (counts : list (K * nat)) : nat :=
  match counts with
  | [] => 0
  | (c, n) :: rest => if decide (c = k) then n else count_of k rest
  end.

Definition occurrences (k : K) (l : list K) : nat :=
  length (filter (fun x => x = k) l).

Lemma bump_cons (v : K) (p : K * nat) (counts : list (K * nat)) :
  bump v (p :: counts)
  = if decide (p.1 = v) then (p.1, S p.2) :: counts else p :: bump v counts.
Proof.
  unfold bump. cbn [list_find]. destruct p as [c n]. cbn [fst snd].
  destruct (decide (c = v)) as [->|Hne]; [reflexivity|].
  destruct (list_find (fun p => p.1 = v) counts) as [[i [c' n']]|]; reflexivity.
Qed.

Lemma bump_count (v k : K) (counts : list (K * nat)) :
  count_of k (bump v counts)
  = (count_of k counts + if decide (v = k) then 1 else 0)%nat.
Proof.
  induction counts as [|[c n] counts IH].
  - cbn. destruct (decide (v = k)); reflexivity.
  - rewrite bump_cons. cbn [fst snd]. destruct (decide (c = v)) as [->|Hne].
    + cbn [count_of]. destruct (decide (v = k)); lia.
    + cbn [count_of]. destruct (decide (c = k)) as [->|Hck]; [|exact IH].
      destruct (decide (v = k)); [congruence|lia].
Qed.

Lemma bump_keys (v : K) (counts : list (K * nat)) :
  (bump v counts).*1
  = if decide (v ∈ counts.*1) then counts.*1 else counts.*1 ++ [v].
Proof.
  induction counts as [|[c n] counts IH].
  - cbn. destruct (decide (v ∈ [])) as [Hin|]; [inversion Hin|reflexivity].
  - rewrite bump_cons. cbn [fst snd]. destruct (decide (c = v)) as [->|Hne].
    + cbn. rewrite decide_True by (left). reflexivity.
    + cbn [fmap list_fmap fst]. change (list_fmap _ _ fst) with (fmap (M:=list) (@fst K nat)).
      rewrite IH. destruct (decide (v ∈ counts.*1)) as [Hin|Hnin].
      * rewrite decide_True by (right; exact Hin). reflexivity.
      * rewrite decide_False; [reflexivity|].
        intros Hin. apply elem_of_cons in Hin as [->|Hin]; congruence.
Qed.

Lemma bump_nodup (v : K) (counts : list (K * nat)) :
  NoDup (counts.*1) -> NoDup ((bump v counts).*1).
Proof.
  intros Hnd. rewrite bump_keys. destruct (decide (v ∈ counts.*1)); [exact Hnd|].
  apply NoDup_app. split; [exact Hnd|]. split; [|apply NoDup_singleton].
  intros x Hx Hv. apply list_elem_of_singleton in Hv. congruence.
Qed.

Lemma counter_acc (l : list K) (acc : list (K * nat)) :
  NoDup (acc.*1) ->
  NoDup ((foldl (fun counts k => bump k counts) acc l).*1)
  /\ forall k, count_of k (foldl (fun counts k => bump k counts) acc l)
               = (count_of k acc + occurrences k l)%nat.
Proof.
  revert acc. induction l as [|x l IH]; intros acc Hnd; cbn [foldl].
  - split; [exact Hnd|]. intros k. unfold occurrences. cbn. lia.
  - destruct (IH (bump x acc) (bump_nodup x acc Hnd)) as [H1 H2].
    split; [exact H1|]. intros k. rewrite H2, bump_count.
    unfold occurrences. rewrite filter_cons.
    destruct (decide (x = k)); cbn [length]; lia.
Qed.

Lemma counter_nodup (l : list K) : NoDup ((counter l).*1).
Proof. apply (counter_acc l []). constructor. Qed.

Lemma counter_count (l : list K) (k : K) :
  count_of k (counter l) = occurrences k l.
Proof. apply (counter_acc l []). constructor. Qed.

Lemma count_of_elem (k : K) (n : nat) (counts : list (K * nat)) :
  NoDup (counts.*1) -> (k, n) ∈ counts -> count_of k counts = n.
Proof.
  induction counts as [|[c m] counts IH]; intros Hnd Hin; [inversion Hin|].
  cbn in Hnd. apply NoDup_cons in Hnd as [Hc Hnd].
  apply elem_of_cons in Hin as [Heq|Hin].
  - injection Heq as <- <-. cbn. rewrite decide_True by reflexivity. reflexivity.
  - cbn. destruct (decide (c = k)) as [->|]; [|auto].
    exfalso. apply Hc. apply list_elem_of_fmap. exists (k, n). auto.
Qed.

Lemma count_of_pos (k : K) (counts : list (K * nat)) :
  (0 < count_of k counts)%nat -> (k, count_of k counts) ∈ counts.
Proof.
  induction counts as [|[c m] counts IH]; cbn; [lia|].
  destruct (decide (c = k)) as [->|]; [left|right; auto].
Qed.

Lemma most_common1_acc (counts : list (K * nat)) (best : option (K * nat)) r :
  foldl (fun best p =>
           match best with
           | None => Some p
           | Some b => if (b.2 <? p.2)%nat then Some p else Some b
           end) best counts = Some r ->
  (Some r = best \/ r ∈ counts)
  /\ (forall b, best = Some b -> (b.2 <= r.2)%nat)
  /\ (forall p, p ∈ counts -> (p.2 <= r.2)%nat).
Proof.
  revert best. induction counts as [|p counts IH]; intros best H; cbn [foldl] in H.
  - subst best. split; [auto|]. split; [intros b [= ->]; lia|].
    intros p Hp. inversion Hp.
  - apply IH in H as (Hr & Hb & Hall).
    split; [|split].
    + destruct Hr as [Hr|Hr]; [|right; right; exact Hr].
      destruct best as [b|]; [|injection Hr as ->; right; left].
      destruct (b.2 <? p.2)%nat; [injection Hr as ->; right; left|left; exact Hr].
    + intros b ->. destruct (Nat.ltb_spec b.2 p.2) as [Hlt|Hge].
      * specialize (Hb p eq_refl). lia.
      * exact (Hb b eq_refl).
    + intros q Hq. apply elem_of_cons in Hq as [Heq|Hq]; [|auto].
      rewrite Heq. clear q Heq.
      destruct best as [b|]; [|exact (Hb _ eq_refl)].
      destruct (Nat.ltb_spec b.2 p.2) as [Hlt|Hge].
      * exact (Hb _ eq_refl).
      * specialize (Hb b eq_refl). lia.
Qed.

(** [Counter(l).most_common(1)] names an element of [l] with its number of
    occurrences, and no element occurs more often. *)
Lemma most_common1_counter (l : list K) (k : K) (n : nat) :
  most_common1 (counter l) = Some (k, n) ->
  n = occurrences k l /\ forall k', (occurrences k' l <= n)%nat.
Proof.
  intros H. apply most_common1_acc in H as ([Hr|Hr] & _ & Hall); [discriminate|].
  pose proof (count_of_elem k n _ (counter_nodup l) Hr) as Hn.
  rewrite counter_count in Hn. split; [auto|].
  intros k'. destruct (Nat.eq_dec (occurrences k' l) 0) as [->|Hpos]; [lia|].
  rewrite <- counter_count in Hpos |- *.
  apply (Hall (k', count_of k' (counter l))), count_of_pos. lia.
Qed.


Lemma occurrences_two (k k' : K) (l : list K) :
  k <> k' -> (occurrences k l + occurrences k' l <= length l)%nat.
Proof.
  intros Hne. unfold occurrences. induction l as [|x l IH]; [cbn; lia|].
  rewrite !filter_cons.
  destruct (decide (x = k)), (decide (x = k')); cbn [length]; try lia; congruence.
Qed.
End CounterFacts.

End Py.

(* ===================================================================== *)
(** ** History STF: Jam-history/history_stf.py *)
(* ===================================================================== *)

Module History.
Import Py.

(** jam_types.py *)
Record MMR := mkMMR { peaks : list (option string); count : option Z }.
Record Reported := mkReported { hash : string; exports_root : string }.
Record BetaBlock := mkBetaBlock {
  header_hash : string;
  state_root : string;
  mmr : MMR;
  reported : list Reported }.
Record Input := mkInput {
  in_header_hash : string;
  parent_state_root : string;
  accumulate_root : string;
  work_packages : list Reported }.
Record State := mkState { beta : list BetaBlock }.

Definition set_state_root (r : string) (b : BetaBlock) : BetaBlock :=
  mkBetaBlock (header_hash b) r (mmr b) (reported b).

Section WithHashes.
(** [Crypto.Hash.keccak] ([None] when the library raises) and [hashlib.sha256]. *)
Variable keccak_digest : list byte -> option (list byte).
Variable sha256_digest : list byte -> list byte.

(** [keccak256]: keccak-256 of the data, SHA-256 when keccak raises. *)
Definition keccak256 (data : list byte) : string :=
  match keccak_digest data with
  | Some d => "0x" +:+ bytes_hex d
  | None => "0x" +:+ bytes_hex (sha256_digest data)
  end.

(** The first [while] of [mmr_append]: [None] when the fuel runs out. *)
Fixpoint carry (fuel : nat) (count : Z) (peaks : list (option string))
    (hash_val : string) (height : nat)
    : option (result (list (option string) * string * nat)) :=
  match fuel with
  | O => None
  | S fuel' =>
      if Z.land count (Z.shiftl 1 (Z.of_nat height)) =? 0
      then Some (Ok (peaks, hash_val, height))
      else
        match peaks !! height with
        | Some (Some p) =>
            match bytes_fromhex (drop2 p) with
            | Raise e => Some (Raise e)
            | Ok peak_bytes =>
                match bytes_fromhex (drop2 hash_val) with
                | Raise e => Some (Raise e)
                | Ok hash_bytes =>
                    carry fuel' count (<[height := None]> peaks)
                      (keccak256 (peak_bytes ++ hash_bytes)) (S height)
                end
            end
        | _ => carry fuel' count peaks hash_val (S height)
        end
  end.

(** Iterations that suffice whenever the loop terminates at all. *)
Definition carry_fuel (count : Z) : nat :=
  S (S (Z.to_nat (Z.log2 (Z.abs count)))).

(** The second [while]: [peaks.append(None)] until [height] is an index. *)
Definition pad_to (peaks : list (option string)) (height : nat)
    : list (option string) :=
  peaks ++ replicate (S height - length peaks) None.

Definition mmr_append (prev : option MMR) (leaf : string)
    : option (result MMR) :=
  let peaks0 := match prev with Some m => peaks m | None => [] end in
  let count0 :=
    match prev with
    | Some m => match count m with Some c => c | None => 0 end
    | None => 0
    end in
  match carry (carry_fuel count0) count0 peaks0 leaf O with
  | None => None
  | Some (Raise e) => Some (Raise e)
  | Some (Ok (peaks1, hash_val, height)) =>
      Some (Ok (mkMMR (<[height := Some hash_val]> (pad_to peaks1 height))
                      (Some (count0 + 1))))
  end.

Definition update_mmr (prev : option MMR) (leaf : string) : option (result MMR) :=
  mmr_append prev leaf.

(** [c or d] on an optional integer. *)
Definition count_or (c : option Z) (d : Z) : Z :=
  match c with
  | Some c => if c =? 0 then d else c
  | None => d
  end.

(** [while len(beta) > 8: beta.pop(0)] *)
Fixpoint trim (fuel : nat) (beta : list BetaBlock) : list BetaBlock :=
  match fuel with
  | O => beta
  | S fuel' =>
      if (8 <? length beta)%nat then trim fuel' (tail beta) else beta
  end.

(** ['0x' + sha256(s.encode()).hexdigest()] *)
Definition sha256_hex (s : string) : string :=
  "0x" +:+ bytes_hex (sha256_digest (encode s)).

Definition join (l : list string) : string := foldr String.append "" l.

(** The MMR the new leaf is appended to: that of the last block, its count
    defaulting to [len(beta)], or the empty MMR. *)
Definition tail_mmr (beta0 : list BetaBlock) : MMR :=
  match last beta0 with
  | Some b =>
      mkMMR (peaks (mmr b))
            (Some (count_or (count (mmr b)) (Z.of_nat (length beta0))))
  | None => mkMMR [] (Some 0)
  end.

Definition new_block_of (input_data : Input) (m : MMR) : BetaBlock :=
  let valid_peaks : list string := omap id (peaks m) in
  let state_root' :=
    sha256_hex (in_header_hash input_data +:+ join valid_peaks) in
  mkBetaBlock (in_header_hash input_data) state_root'
              (mkMMR (Some <$> valid_peaks) (count m))
              (work_packages input_data).

Definition transition (pre_state : State) (input_data : Input)
    : option (result State) :=
  let beta0 := beta pre_state in
  match update_mmr (Some (tail_mmr beta0)) (accumulate_root input_data) with
  | None => None
  | Some (Raise e) => Some (Raise e)
  | Some (Ok global_mmr') =>
      let beta1 :=
        alter (set_state_root (parent_state_root input_data))
              (length beta0 - 1)%nat beta0 in
      let beta2 := beta1 ++ [new_block_of input_data global_mmr'] in
      Some (Ok (mkState (trim (length beta2) beta2)))
  end.

(** *** The append rule, read off the loop

    [combine] is one merge step; [climb] walks a given list of heights, merging
    where a peak is present and passing where none is. *)

Definition combine (p h : string) : result string :=
  match bytes_fromhex (drop2 p) with
  | Raise e => Raise e
  | Ok peak_bytes =>
      match bytes_fromhex (drop2 h) with
      | Raise e => Raise e
      | Ok hash_bytes => Ok (keccak256 (peak_bytes ++ hash_bytes))
      end
  end.

Fixpoint climb (heights : list nat) (peaks : list (option string)) (h : string)
    : result (list (option string) * string) :=
  match heights with
  | [] => Ok (peaks, h)
  | i :: rest =>
      match peaks !! i with
      | Some (Some p) =>
          match combine p h with
          | Raise e => Raise e
          | Ok h' => climb rest (<[i := None]> peaks) h'
          end
      | _ => climb rest peaks h
      end
  end.

Definition place (count0 : Z) (k : nat)
    (r : result (list (option string) * string)) : result MMR :=
  match r with
  | Raise e => Raise e
  | Ok (peaks1, h) =>
      Ok (mkMMR (<[k := Some h]> (pad_to peaks1 k)) (Some (count0 + 1)))
  end.

(** The append rule in the specification's words, which hash the leaf before
    the walk. *)
Definition mmr_append_hashing_leaf (prev : option MMR) (leaf : string)
    : option (result MMR) :=
  match bytes_fromhex (drop2 leaf) with
  | Raise e => Some (Raise e)
  | Ok leaf_bytes => mmr_append prev (keccak256 leaf_bytes)
  end.

Lemma carry_climb (count0 : Z) (k : nat) :
  (forall i, (i < k)%nat -> Z.testbit count0 (Z.of_nat i) = true) ->
  Z.testbit count0 (Z.of_nat k) = false ->
  forall n fuel height peaks0 h,
    (height + n = k)%nat -> (n < fuel)%nat ->
    carry fuel count0 peaks0 h height =
    Some (match climb (seq height n) peaks0 h with
          | Raise e => Raise e
          | Ok (p, h') => Ok (p, h', k)
          end).
Proof.
  intros Hlow Hk. induction n as [|n IH]; intros fuel height peaks0 h Hh Hf.
  - destruct fuel as [|fuel]; [lia|]. cbn [carry seq climb].
    replace height with k by lia.
    rewrite land_shiftl_testbit, Hk. reflexivity.
  - destruct fuel as [|fuel]; [lia|]. cbn [carry seq climb].
    rewrite land_shiftl_testbit, Hlow by lia. cbn [negb].
    destruct (peaks0 !! height) as [[p|]|] eqn:Hp.
    + unfold combine.
      destruct (bytes_fromhex (drop2 p)) as [pb|e]; [|reflexivity].
      destruct (bytes_fromhex (drop2 h)) as [hb|e]; [|reflexivity].
      apply IH; lia.
    + apply IH; lia.
    + apply IH; lia.
Qed.

(** With every bit set there is no height to stop at: the loop of
    [mmr_append] never leaves normally on [count = -1]. *)
Lemma carry_all_ones (fuel : nat) peaks0 h height :
  forall r, carry fuel (-1) peaks0 h height <> Some (Ok r).
Proof.
  revert peaks0 h height. induction fuel as [|fuel IH]; intros peaks0 h height r.
  - discriminate.
  - cbn [carry]. rewrite land_shiftl_testbit.
    rewrite Z.bits_m1 by lia. cbn [negb].
    destruct (peaks0 !! height) as [[p|]|]; try apply IH.
    destruct (bytes_fromhex (drop2 p)); [|discriminate].
    destruct (bytes_fromhex (drop2 h)); [|discriminate].
    apply IH.
Qed.

(** The fuel of [mmr_append] reaches the lowest clear bit. *)
Lemma carry_with_fuel (peaks0 : list (option string)) (count0 : Z)
    (leaf : string) (k : nat) :
  (forall i, (i < k)%nat -> Z.testbit count0 (Z.of_nat i) = true) ->
  Z.testbit count0 (Z.of_nat k) = false ->
  carry (carry_fuel count0) count0 peaks0 leaf 0%nat
  = Some (match climb (seq 0 k) peaks0 leaf with
          | Raise e => Raise e
          | Ok (p, h') => Ok (p, h', k)
          end).
Proof.
  intros Hlow Hk.
  apply (carry_climb count0 k Hlow Hk k (carry_fuel count0) 0%nat peaks0 leaf).
  - reflexivity.
  - unfold carry_fuel. pose proof (clear_bit_bound count0 k Hlow Hk). lia.
Qed.

(** C8 (as amended). [mmr_append] starts the running hash at the leaf itself
    (the leaf is not hashed); for the heights below the lowest clear bit [k] of
    the pre-append count it merges the running hash with each peak that is
    present, by [keccak256], clearing that peak, and passes absent peaks; it
    then stores the running hash at height [k], padding the peaks when needed,
    and the count becomes [count + 1]. The loop terminates within the fuel. *)
Theorem mmr_append_rule (peaks0 : list (option string)) (count0 : Z)
    (leaf : string) (k : nat) :
  (forall i, (i < k)%nat -> Z.testbit count0 (Z.of_nat i) = true) ->
  Z.testbit count0 (Z.of_nat k) = false ->
  mmr_append (Some (mkMMR peaks0 (Some count0))) leaf
  = Some (place count0 k (climb (seq 0 k) peaks0 leaf)).
Proof.
  intros Hlow Hk. unfold mmr_append. cbn [peaks count].
  rewrite (carry_with_fuel peaks0 count0 leaf k Hlow Hk).
  unfold place. destruct (climb (seq 0 k) peaks0 leaf) as [[p h']|e]; reflexivity.
Qed.

(** An even count has no carry: the leaf is stored verbatim at height 0. *)
Lemma mmr_append_even (peaks0 : list (option string)) (count0 : Z) (leaf : string) :
  Z.testbit count0 0 = false ->
  mmr_append (Some (mkMMR peaks0 (Some count0))) leaf
  = Some (Ok (mkMMR (<[0%nat := Some leaf]> (pad_to peaks0 0)) (Some (count0 + 1)))).
Proof.
  intros H0. unfold mmr_append. cbn [peaks count].
  rewrite (carry_with_fuel peaks0 count0 leaf 0); [reflexivity| |exact H0].
  intros i Hi. lia.
Qed.

(** *** Well-formed hashes: what [bytes.fromhex] accepts after the prefix *)

Definition hex_ok (s : string) : Prop := is_Some (fromhex (drop2 s)).
Definition peaks_ok (ps : list (option string)) : Prop :=
  Forall (fun p => match p with Some s => hex_ok s | None => True end) ps.

Lemma keccak256_hex_ok (data : list byte) : hex_ok (keccak256 data).
Proof.
  unfold hex_ok, keccak256.
  destruct (keccak_digest data) as [d|];
    [change (is_Some (fromhex (bytes_hex d)))
    |change (is_Some (fromhex (bytes_hex (sha256_digest data))))];
    rewrite fromhex_bytes_hex; eauto.
Qed.

Lemma climb_returns (heights : list nat) :
  forall ps h, peaks_ok ps -> hex_ok h -> exists ps' h', climb heights ps h = Ok (ps', h').
Proof.
  induction heights as [|i rest IH]; intros ps h Hps Hh; cbn [climb]; [eauto|].
  destruct (ps !! i) as [[p|]|] eqn:Hp; [|apply IH; assumption..].
  assert (hex_ok p) as Hpok.
  { unfold peaks_ok in Hps. rewrite Forall_lookup in Hps. exact (Hps i _ Hp). }
  unfold combine, bytes_fromhex.
  destruct Hpok as [pb ->]. destruct Hh as [hb ->].
  apply IH; [|apply keccak256_hex_ok].
  unfold peaks_ok. apply Forall_insert; [exact Hps|exact I].
Qed.

(** [mmr_append] returns an MMR on every well-formed input whose count is
    not [-1]. *)
Lemma mmr_append_returns (ps : list (option string)) (c : Z) (leaf : string) :
  c <> -1 -> peaks_ok ps -> hex_ok leaf ->
  exists m, mmr_append (Some (mkMMR ps (Some c))) leaf = Some (Ok m)
            /\ count m = Some (c + 1).
Proof.
  intros Hc Hps Hleaf.
  destruct (lowest_clear_bit c Hc) as (k & Hk & Hlow).
  unfold mmr_append. cbn [peaks count].
  rewrite (carry_with_fuel ps c leaf k Hlow Hk).
  destruct (climb_returns (seq 0 k) ps leaf Hps Hleaf) as (ps' & h' & ->).
  eexists. split; reflexivity.
Qed.

(** *** The transition *)

Lemma trim_drop (fuel : nat) (l : list BetaBlock) :
  (length l - 8 <= fuel)%nat -> trim fuel l = drop (length l - 8) l.
Proof.
  revert l. induction fuel as [|fuel IH]; intros l Hf; cbn [trim].
  - replace (length l - 8)%nat with 0%nat by lia. reflexivity.
  - destruct (8 <? length l)%nat eqn:Hlen.
    + apply Nat.ltb_lt in Hlen. destruct l as [|x l]; [cbn [length] in Hlen; lia|].
      cbn [tail length] in *. rewrite IH by lia.
      replace (S (length l) - 8)%nat with (S (length l - 8)) by lia.
      reflexivity.
    + apply Nat.ltb_ge in Hlen.
      replace (length l - 8)%nat with 0%nat by lia. reflexivity.
Qed.

(** The state the data model describes: the MMR of the last block has
    well-formed peaks and a count other than [-1]. *)
Definition wf_state (s : State) : Prop :=
  match last (beta s) with
  | Some b => count (mmr b) <> Some (-1) /\ peaks_ok (peaks (mmr b))
  | None => True
  end.

Lemma tail_mmr_ok (s : State) :
  wf_state s ->
  exists c, tail_mmr (beta s) = mkMMR (peaks (tail_mmr (beta s))) (Some c)
            /\ c <> -1 /\ peaks_ok (peaks (tail_mmr (beta s))).
Proof.
  unfold wf_state, tail_mmr. destruct (last (beta s)) as [b|].
  - intros [Hc Hp]. eexists. split; [reflexivity|]. split; [|exact Hp].
    unfold count_or. destruct (count (mmr b)) as [c|].
    + destruct (c =? 0) eqn:Hc0; [lia|congruence].
    + lia.
  - intros _. exists 0. split; [reflexivity|]. split; [lia|constructor].
Qed.

(** C7. On a well-formed pre-state and leaf the History STF returns a
    post-state: the last existing entry of beta gets [parent_state_root] as
    its state root, a new entry is appended whose state root is
    [H(header_hash ++ concat(peaks))], the peaks being those of the MMR after
    appending [accumulate_root] and [H] SHA-256 over the encoded string, and
    beta is cut down to its last 8 entries, so [|beta| <= 8]. *)
Theorem history_transition (pre_state : State) (input_data : Input) :
  wf_state pre_state ->
  hex_ok (accumulate_root input_data) ->
  exists (m : MMR) (post : State),
    mmr_append (Some (tail_mmr (beta pre_state))) (accumulate_root input_data)
      = Some (Ok m)
    /\ transition pre_state input_data = Some (Ok post)
    /\ let new_block := new_block_of input_data m in
       let grown :=
         alter (set_state_root (parent_state_root input_data))
               (length (beta pre_state) - 1)%nat (beta pre_state)
         ++ [new_block] in
       state_root new_block
         = sha256_hex (in_header_hash input_data +:+ join (omap id (peaks m)))
       /\ beta post = drop (length grown - 8) grown
       /\ (length (beta post) <= 8)%nat
       /\ last (beta post) = Some new_block
       /\ (forall b, last (beta pre_state) = Some b ->
             grown !! (length (beta pre_state) - 1)%nat
             = Some (set_state_root (parent_state_root input_data) b)).
Proof.
  intros Hwf Hleaf.
  destruct (tail_mmr_ok pre_state Hwf) as (c & Hm & Hc & Hp).
  destruct (mmr_append_returns _ c (accumulate_root input_data) Hc Hp Hleaf)
    as (m & Happ & _).
  rewrite <- Hm in Happ.
  exists m. eexists. split; [exact Happ|].
  split; [unfold transition, update_mmr; rewrite Happ; reflexivity|].
  cbn zeta. cbn [beta].
  set (grown := alter _ _ _ ++ [new_block_of input_data m]).
  assert (length grown = S (length (beta pre_state))) as Hlen.
  { unfold grown. rewrite length_app, length_alter. simpl. lia. }
  rewrite trim_drop by lia.
  split; [reflexivity|]. split; [reflexivity|].
  split; [rewrite length_drop; lia|].
  split.
  - rewrite last_lookup, length_drop, lookup_drop.
    replace (length grown - 8 + Init.Nat.pred (length grown - (length grown - 8)))%nat
      with (length (beta pre_state)) by lia.
    unfold grown. rewrite lookup_app_r by (rewrite length_alter; lia).
    rewrite length_alter, Nat.sub_diag. reflexivity.
  - intros b Hb. rewrite last_lookup in Hb. unfold grown.
    assert (length (beta pre_state) - 1 = Init.Nat.pred (length (beta pre_state)))%nat
      as -> by lia.
    rewrite lookup_app_l.
    + rewrite list_lookup_alter_eq, Hb. reflexivity.
    + rewrite length_alter. apply lookup_lt_Some in Hb. exact Hb.
Qed.

(** *** [compute_state_root] *)

(** [sorted(list(set(peaks)))]: the distinct peaks in increasing order. *)
Definition unique_sorted (peaks : list string) : list string :=
  sort_by encode (remove_dups peaks).

(** ['0x' + '00' * 32] *)
Definition zero_root : string :=
  "0x0000000000000000000000000000000000000000000000000000000000000000".

Definition compute_state_root (peaks : list string) : result string :=
  match peaks with
  | [] => Ok zero_root
  | _ =>
      let unique_peaks := unique_sorted peaks in
      match unique_peaks with
      | [p] => Ok p
      | _ =>
          chunks ← mapM (fun peak =>
                           if startswith_0x peak then bytes_fromhex (drop2 peak)
                           else Ok (encode peak))
                        unique_peaks;
          Ok ("0x" +:+ bytes_hex (sha256_digest (concat chunks)))
      end
  end.

Lemma encode_inj (a b : string) : encode a = encode b -> a = b.
Proof.
  unfold encode. intros H. apply (f_equal string_of_list_byte) in H.
  rewrite !string_of_list_byte_of_string in H. exact H.
Qed.

Lemma unique_sorted_same (l l' : list string) :
  (forall x, x ∈ l <-> x ∈ l') -> unique_sorted l = unique_sorted l'.
Proof.
  intros Hsame. unfold unique_sorted.
  apply (StronglySorted_unique_strong (key_le encode)).
  - intros x1 x2 _ _ [H1|H1] [H2|H2]; try (apply encode_inj; congruence).
    exfalso. unfold bytes_lt in *.
    rewrite bytes_compare_antisym, H2 in H1. discriminate.
  - apply sort_by_sorted.
  - apply sort_by_sorted.
  - rewrite !sort_by_perm. apply NoDup_Permutation.
    + apply NoDup_remove_dups.
    + apply NoDup_remove_dups.
    + intros x. rewrite !elem_of_remove_dups. apply Hsame.
Qed.

(** X1. The state root computed from a list of peaks depends only on the
    set of peaks, not on their order or on repetitions; no peak at all gives
    the zero hash, and a list that repeats one peak gives that peak back
    unhashed. *)
Theorem state_root_of_peak_set (l l' : list string) :
  (l = [] -> compute_state_root l = Ok zero_root)
  /\ (forall p, l <> [] -> (forall x, x ∈ l -> x = p) -> compute_state_root l = Ok p)
  /\ (l <> [] -> l' <> [] -> (forall x, x ∈ l <-> x ∈ l') ->
      compute_state_root l = compute_state_root l').
Proof.
  split; [intros ->; reflexivity|]. split.
  - intros p Hne Hall.
    assert (unique_sorted l = unique_sorted [p]) as Hu.
    { apply unique_sorted_same. intros x. split.
      - intros Hx. rewrite (Hall x Hx). left.
      - intros Hx. apply list_elem_of_singleton in Hx as ->.
        destruct l as [|y l]; [congruence|].
        rewrite <- (Hall y); left. }
    unfold compute_state_root. destruct l; [congruence|]. rewrite Hu. reflexivity.
  - intros Hne Hne' Hsame. unfold compute_state_root.
    destruct l; [congruence|]. destruct l'; [congruence|].
    rewrite (unique_sorted_same _ _ Hsame). reflexivity.
Qed.

(** *** The peaks and the bits of the count *)

(** The peaks of a Merkle mountain range sit at the set bits of its count. *)
Definition aligned (ps : list (option string)) (c : Z) : Prop :=
  forall h : nat,
    (exists p, ps !! h = Some (Some p)) <-> Z.testbit c (Z.of_nat h) = true.

Lemma aligned_not_m1 (ps : list (option string)) (c : Z) : aligned ps c -> c <> -1.
Proof.
  intros Ha ->. destruct (proj2 (Ha (length ps))) as [p Hp].
  - apply Z.bits_m1. lia.
  - rewrite lookup_ge_None_2 in Hp by lia. discriminate.
Qed.

(** The bits of [c + 1], where [k] is the lowest clear bit of [c]. *)
Lemma succ_bits (k : nat) :
  forall c,
    (forall i, (i < k)%nat -> Z.testbit c (Z.of_nat i) = true) ->
    Z.testbit c (Z.of_nat k) = false ->
    forall i : nat,
      Z.testbit (c + 1) (Z.of_nat i)
      = if (i <? k)%nat then false
        else if (i =? k)%nat then true else Z.testbit c (Z.of_nat i).
Proof.
  induction k as [|k IH]; intros c Hlow Hk i.
  - rewrite (Z.div2_odd c) at 1. rewrite <- Z.bit0_odd.
    change (Z.of_nat 0) with 0 in Hk. rewrite Hk. cbn [Z.b2z].
    replace (2 * Z.div2 c + 0 + 1) with (2 * Z.div2 c + Z.b2z true)
      by (cbn [Z.b2z]; lia).
    destruct i as [|i]; cbn [Nat.ltb Nat.leb Nat.eqb].
    + apply Z.testbit_0_r.
    + rewrite Nat2Z.inj_succ, Z.testbit_succ_r by lia.
      rewrite Z.div2_div, Z.div2_bits by lia. reflexivity.
  - assert (Z.testbit c 0 = true) as H0 by (apply (Hlow 0%nat); lia).
    rewrite (Z.div2_odd c) at 1. rewrite <- Z.bit0_odd, H0. cbn [Z.b2z].
    replace (2 * Z.div2 c + 1 + 1) with (2 * (Z.div2 c + 1) + Z.b2z false)
      by (cbn [Z.b2z]; lia).
    destruct i as [|i].
    + rewrite Z.testbit_0_r. reflexivity.
    + rewrite Nat2Z.inj_succ, Z.testbit_succ_r by lia.
      rewrite (IH (Z.div2 c)).
      * change (S i <? S k)%nat with (i <? k)%nat.
        change (S i =? S k)%nat with (i =? k)%nat.
        rewrite Z.div2_div, Z.div2_bits by lia. reflexivity.
      * intros j Hj. rewrite Z.div2_div, Z.div2_bits by lia.
        rewrite <- Nat2Z.inj_succ. apply Hlow. lia.
      * rewrite Z.div2_div, Z.div2_bits by lia. rewrite <- Nat2Z.inj_succ. exact Hk.
Qed.

Lemma climb_peaks (heights : list nat) :
  forall ps h ps' h',
    peaks_ok ps -> hex_ok h ->
    climb heights ps h = Ok (ps', h') ->
    peaks_ok ps' /\ hex_ok h' /\ length ps' = length ps
    /\ forall i p, ps' !! i = Some (Some p)
                   <-> ps !! i = Some (Some p) /\ i ∉ heights.
Proof.
  induction heights as [|i0 rest IH]; intros ps h ps' h' Hps Hh H; cbn [climb] in H.
  - injection H as <- <-. split; [assumption|]. split; [assumption|].
    split; [reflexivity|]. intros i p.
    split; [intros Hp; split; [exact Hp|apply not_elem_of_nil]|].
    intros [Hp _]. exact Hp.
  - destruct (ps !! i0) as [[p0|]|] eqn:Hp0.
    + destruct (combine p0 h) as [h''|e] eqn:Hc; [|discriminate].
      assert (hex_ok h'') as Hh''.
      { unfold combine in Hc.
        destruct (bytes_fromhex (drop2 p0)); [|discriminate].
        destruct (bytes_fromhex (drop2 h)); [|discriminate].
        injection Hc as <-. apply keccak256_hex_ok. }
      assert (peaks_ok (<[i0 := None]> ps)) as Hps1.
      { unfold peaks_ok. apply Forall_insert; [exact Hps|exact I]. }
      destruct (IH _ _ _ _ Hps1 Hh'' H) as (Hok & Hh' & Hlen & Hiff).
      split; [exact Hok|]. split; [exact Hh'|].
      split; [rewrite Hlen; apply length_insert|].
      intros i p. rewrite Hiff, not_elem_of_cons.
      destruct (decide (i = i0)) as [->|Hne].
      * rewrite list_lookup_insert_eq by (eapply lookup_lt_Some, Hp0).
        split; [intros [? _]; discriminate|intros [_ [? _]]; congruence].
      * rewrite list_lookup_insert_ne by congruence. tauto.
    + destruct (IH _ _ _ _ Hps Hh H) as (Hok & Hh' & Hlen & Hiff).
      split; [exact Hok|]. split; [exact Hh'|]. split; [exact Hlen|].
      intros i p. rewrite Hiff, not_elem_of_cons.
      split; [|tauto]. intros [Hp Hn]. split; [exact Hp|]. split; [|exact Hn].
      intros ->. congruence.
    + destruct (IH _ _ _ _ Hps Hh H) as (Hok & Hh' & Hlen & Hiff).
      split; [exact Hok|]. split; [exact Hh'|]. split; [exact Hlen|].
      intros i p. rewrite Hiff, not_elem_of_cons.
      split; [|tauto]. intros [Hp Hn]. split; [exact Hp|]. split; [|exact Hn].
      intros ->. congruence.
Qed.

(** The MMR that [mmr_append] returns, peak by peak. *)
Lemma mmr_append_shape (ps : list (option string)) (c : Z) (leaf : string)
    (k : nat) :
  (forall i, (i < k)%nat -> Z.testbit c (Z.of_nat i) = true) ->
  Z.testbit c (Z.of_nat k) = false ->
  peaks_ok ps -> hex_ok leaf ->
  exists m h',
    mmr_append (Some (mkMMR ps (Some c))) leaf = Some (Ok m)
    /\ count m = Some (c + 1)
    /\ peaks_ok (peaks m) /\ hex_ok h'
    /\ peaks m !! k = Some (Some h')
    /\ (forall i, (i < k)%nat -> forall p, peaks m !! i <> Some (Some p))
    /\ (forall i p, (k < i)%nat ->
          peaks m !! i = Some (Some p) <-> ps !! i = Some (Some p)).
Proof.
  intros Hlow Hk Hps Hleaf.
  destruct (climb_returns (seq 0 k) ps leaf Hps Hleaf) as (ps' & h' & Hclimb).
  destruct (climb_peaks _ _ _ _ _ Hps Hleaf Hclimb) as (Hok & Hh' & Hlen & Hiff).
  exists (mkMMR (<[k := Some h']> (pad_to ps' k)) (Some (c + 1))), h'.
  assert (k < length (pad_to ps' k))%nat as Hklen.
  { unfold pad_to. rewrite length_app, length_replicate. lia. }
  assert (forall i, i <> k -> forall p,
             <[k := Some h']> (pad_to ps' k) !! i = Some (Some p)
             <-> ps' !! i = Some (Some p)) as Hother.
  { intros i Hne p. rewrite list_lookup_insert_ne by congruence.
    unfold pad_to. destruct (decide (i < length ps')%nat) as [Hi|Hi].
    - rewrite lookup_app_l by exact Hi. reflexivity.
    - rewrite lookup_app_r by lia. rewrite (lookup_ge_None_2 ps') by lia.
      split; [|discriminate]. intros H.
      apply lookup_replicate in H as [H _]. discriminate. }
  split.
  { unfold mmr_append. cbn [peaks count].
    rewrite (carry_with_fuel ps c leaf k Hlow Hk), Hclimb. reflexivity. }
  cbn [peaks count]. split; [reflexivity|]. split.
  { unfold peaks_ok. apply Forall_insert; [|exact Hh'].
    unfold pad_to. apply Forall_app. split; [exact Hok|].
    apply Forall_replicate. exact I. }
  split; [exact Hh'|]. split; [apply list_lookup_insert_eq, Hklen|].
  split.
  { intros i Hi p Hp. apply Hother in Hp; [|lia].
    apply Hiff in Hp as [_ Hn]. apply Hn, elem_of_seq. lia. }
  intros i p Hi. rewrite Hother by lia. rewrite Hiff.
  split; [tauto|]. intros Hp. split; [exact Hp|].
  rewrite elem_of_seq. lia.
Qed.

(** X2. [mmr_append] keeps the peaks aligned with the count: if a peak is
    present at exactly the heights of the set bits of [count], then on a
    well-formed leaf the append returns, the count goes up by one, and the
    peaks of the result are present at exactly the set bits of the new count.
    Appending to no MMR at all gives the one peak [leaf] and count 1. *)
Theorem mmr_append_keeps_alignment (ps : list (option string)) (c : Z)
    (leaf : string) :
  aligned ps c -> peaks_ok ps -> hex_ok leaf ->
  (exists m,
      mmr_append (Some (mkMMR ps (Some c))) leaf = Some (Ok m)
      /\ count m = Some (c + 1)
      /\ aligned (peaks m) (c + 1)
      /\ peaks_ok (peaks m))
  /\ mmr_append None leaf = Some (Ok (mkMMR [Some leaf] (Some 1))).
Proof.
  intros Ha Hps Hleaf. split; [|reflexivity].
  destruct (lowest_clear_bit c (aligned_not_m1 ps c Ha)) as (k & Hk & Hlow).
  destruct (mmr_append_shape ps c leaf k Hlow Hk Hps Hleaf)
    as (m & h' & Happ & Hcount & Hok & _ & Hat & Hbelow & Habove).
  exists m. split; [exact Happ|]. split; [exact Hcount|]. split; [|exact Hok].
  intros h. rewrite (succ_bits k c Hlow Hk h).
  destruct (Nat.ltb_spec h k) as [Hlt|Hge].
  - split; [|discriminate]. intros [p Hp]. exfalso. exact (Hbelow h Hlt p Hp).
  - destruct (Nat.eqb_spec h k) as [->|Hne].
    + split; [reflexivity|]. intros _. eauto.
    + rewrite <- (Ha h). split; intros [p Hp]; exists p; apply (Habove h p);
        try lia; exact Hp.
Qed.

(** *** The state the transition keeps well formed *)




End WithHashes.

(** *** Concrete runs

    A stand-in digest (the input followed by a zero byte) lets the model run
    on explicit inputs; the theorems above hold for every digest. *)

Definition sample_digest (data : list byte) : list byte := data ++ [x00].
Definition sample_keccak (data : list byte) : option (list byte) :=
  Some (sample_digest data).

Definition sample_leaf : string :=
  "0x1111111111111111111111111111111111111111111111111111111111111111".

Definition sample_pre_state : State :=
  mkState [mkBetaBlock "0x01" "0x00" (mkMMR [Some "0xaa"] (Some 1)) []].
Definition sample_input : Input := mkInput "0x02" "0x03" "0xbb" [].

Example mmr_append_rule_witness :
  mmr_append sample_keccak sample_digest
    (Some (mkMMR [Some "0xaa"; Some "0xbb"] (Some 3))) "0xcc"
  = Some (Ok (mkMMR [None; None; Some "0xbbaacc0000"] (Some 4))).
Proof.
  rewrite (mmr_append_rule sample_keccak sample_digest
             [Some "0xaa"; Some "0xbb"] 3 "0xcc" 2).
  - reflexivity.
  - intros [|[|i]] Hi; [reflexivity|reflexivity|lia].
  - reflexivity.
Defined.

(** C8, as stated, fails: on the empty MMR the stored peak is the leaf itself,
    where the specification's rule stores the hash of the leaf. *)
Example mmr_append_leaf_not_hashed :
  mmr_append sample_keccak sample_digest (Some (mkMMR [] (Some 0))) sample_leaf
    = Some (Ok (mkMMR [Some sample_leaf] (Some 1)))
  /\ mmr_append sample_keccak sample_digest (Some (mkMMR [] (Some 0))) sample_leaf
     <> mmr_append_hashing_leaf sample_keccak sample_digest
          (Some (mkMMR [] (Some 0))) sample_leaf.
Proof. split; [reflexivity|]. vm_compute. discriminate. Qed.

Example history_transition_witness :
  exists post : State,
    transition sample_keccak sample_digest sample_pre_state sample_input
      = Some (Ok post)
    /\ (length (beta post) <= 8)%nat
    /\ state_root <$> beta post = ["0x03"; "0x30783032307861616262303000"].
Proof.
  destruct (history_transition sample_keccak sample_digest
              sample_pre_state sample_input)
    as (m & post & Hm & Ht & _ & Hb & Hlen & _).
  - split; [discriminate|]. repeat constructor. eexists. reflexivity.
  - eexists. reflexivity.
  - exists post. split; [exact Ht|]. split; [exact Hlen|].
    vm_compute in Hm. injection Hm as <-. rewrite Hb. reflexivity.
Defined.

Example mmr_append_keeps_alignment_witness :
  exists m,
    mmr_append sample_keccak sample_digest
      (Some (mkMMR [Some "0xaa"] (Some 1))) "0xbb" = Some (Ok m)
    /\ count m = Some 2
    /\ aligned (peaks m) 2.
Proof.
  destruct (mmr_append_keeps_alignment sample_keccak sample_digest
              [Some "0xaa"] 1 "0xbb") as [(m & Hm & Hc & Ha & _) _].
  - intros [|h].
    + split; [reflexivity|]. intros _. eexists. reflexivity.
    + split; [intros [p Hp]; discriminate|].
      change 1 with (2 ^ 0). rewrite Z.pow2_bits_false by lia. discriminate.
  - repeat constructor. eexists. reflexivity.
  - eexists. reflexivity.
  - exists m. split; [exact Hm|]. split; [exact Hc|exact Ha].
Defined.


End History.

(* ===================================================================== *)
(** ** Safrole STF: src/jam/core/safrole_manager.py and its helpers *)
(* ===================================================================== *)

Module Safrole.
Import Py.

(** *** Data *)

Record validator := mkValidator {
  bandersnatch : string;
  ed25519 : string;
  bls : string;
  metadata : string }.

(** A ticket as the manager keeps it in [gamma_a]. *)
Record ticket := mkTicket {
  index : Z;
  randomness : list byte;
  proof : list byte }.

(** A ticket as the state and the header print it. *)
Record ticket_body := mkTicketBody { id : string; tb_attempt : Z }.

(** An item of the block's ticket extrinsic. *)
Record ticket_envelope := mkEnvelope { attempt : Z; signature : string }.

(** An item of the verifier's answer. *)
Record verify_result := mkVerify {
  ok : bool;
  output_hash : string;
  vr_attempt : Z }.

Inductive seal_keys : Type :=
| Tickets (tickets : list ticket_body)
| Keys (keys : list string).

(** The manager's state, after [__init__] has filled in [E], [Y], [N] and
    converted [gamma_a]. *)
Record state := mkState {
  tau : Z;
  E : Z;
  Y : Z;
  N : Z;
  eta : list string;
  iota : list validator;
  gamma_k : list validator;
  kappa : list validator;
  lambda_ : list validator;
  gamma_a : list ticket;
  gamma_s : seal_keys;
  gamma_z : string;
  post_offenders : list string }.

Record block_input := mkBlock {
  slot : Z;
  entropy : string;
  extrinsic : list ticket_envelope }.

Record epoch_mark_t := mkEpochMark {
  em_entropy : string;
  em_tickets_entropy : string;
  em_validators : list (string * string) }.

Record header := mkHeader {
  h_slot : Z;
  h_seal : string;
  h_vrf_output : string;
  epoch_mark : option epoch_mark_t;
  tickets_mark : option (list ticket_body) }.

(** [post_state_output]: the new state, its [gamma_a] printed as [{id, attempt}]. *)
Record post_state_output := mkOutput {
  out_state : state;
  out_gamma_a : list ticket_body }.

(** *** helpers.py *)

Fixpoint string_mul (s : string) (n : nat) : string :=
  match n with
  | O => ""
  | S n' => s +:+ string_mul s n'
  end.

Definition PADDING_VALIDATOR : validator :=
  mkValidator ("0x" +:+ string_mul "0" 64) ("0x" +:+ string_mul "0" 64)
              ("0x" +:+ string_mul "0" 288) ("0x" +:+ string_mul "0" 256).

Definition hex_to_bytes (hex_str : string) : result (list byte) :=
  match hex_str with
  | EmptyString => Ok []
  | _ => bytes_fromhex (if startswith_0x hex_str then drop2 hex_str else hex_str)
  end.

Definition bytes_to_hex (b : list byte) : string := "0x" +:+ bytes_hex b.

Definition get_epoch_and_slot_phase (timeslot epoch_length : Z) : result (Z * Z) :=
  if epoch_length =? 0 then Raise ZeroDivisionError
  else Ok (timeslot / epoch_length, timeslot mod epoch_length).

Definition process_validator_keys_for_offenders
    (keys : list validator) (offenders : list string) : list validator :=
  let offender_set : gset string := list_to_set offenders in
  map (fun k => if bool_decide (ed25519 k ∈ offender_set)
                then PADDING_VALIDATOR else k) keys.

(** The loop of [z]: [left] and [right] close in on each other. *)
Fixpoint z_loop {A} (fuel : nat) (sequence : list A) (left right : Z)
    (result : list A) : list A :=
  match fuel with
  | O => result
  | S fuel' =>
      if left <=? right then
        let result1 := result ++ option_list (sequence !! Z.to_nat left) in
        let result2 :=
          if left <? right
          then result1 ++ option_list (sequence !! Z.to_nat right)
          else result1 in
        z_loop fuel' sequence (left + 1) (right - 1) result2
      else result
  end.

Definition z {A} (sequence : list A) : list A :=
  z_loop (S (length sequence)) sequence 0 (Z.of_nat (length sequence) - 1) [].

Definition ticket_to_body (t : ticket) : ticket_body :=
  mkTicketBody (bytes_to_hex (randomness t)) (index t).

(** *** fallback_condition.py *)

(** [i.to_bytes(4, 'little')] for [0 <= i < 2^32]. *)
Definition to_bytes4_le (i : Z) : list byte :=
  map (fun k => byte_of_ascii (ascii_of_N (Z.to_N ((i / 256 ^ k) mod 256))))
      [0; 1; 2; 3].

Definition le_bytes_to_int (b : list byte) : Z :=
  foldr (fun x acc => Z.of_N (Byte.to_N x) + 256 * acc) 0 b.

Section WithServices.
(** [hashlib.blake2b(_, digest_size=32)] and the two calls to the
    Bandersnatch service: [/verifier/ring_vrf_verify_payload] and
    [/compose_gamma_z]. A failed request raises. *)
Variable blake2b_256 : list byte -> list byte.
Variable ring_vrf_verify :
  string -> list string -> string -> list ticket_envelope ->
  result (list verify_result).
Variable compose_gamma_z : list string -> result string.

(** crypto_bridge.py *)
Definition calculate_eta_update (eta0 vrf_output : list byte) : list byte :=
  blake2b_256 (eta0 ++ vrf_output).

Definition get_gamma_z_from_rust_server
    (public_keys : list validator) (offenders : list string) : result string :=
  let processed_keys := process_validator_keys_for_offenders public_keys offenders in
  let bandersnatch_keys :=
    map (fun k =>
           if String.eqb (bandersnatch k)
                "0x1ecc3686b60ee3b84b6c7d321d70d5c06e9dac63a4d0a79d731b17c0d04d030d"
           then "0x" +:+ string_mul "0" 64
           else bandersnatch k) processed_keys in
  compose_gamma_z bandersnatch_keys.

(** One round of the fallback: the key drawn for slot [i]. *)
Definition fallback_key (entropy_bytes : list byte)
    (new_validator_set : list validator) (i : Z) : result string :=
  let hash_result := blake2b_256 (entropy_bytes ++ to_bytes4_le i) in
  let random_index := le_bytes_to_int (firstn 4 hash_result) in
  let validator_index :=
    random_index mod Z.of_nat (length new_validator_set) in
  selected ← getitem new_validator_set (Z.to_nat validator_index);
  Ok (bandersnatch selected).

Definition calculate_fallback_gamma_s (post_state : state) : result (list string) :=
  eta2 ← getitem (eta post_state) 2;
  entropy_bytes ← bytes_fromhex (if startswith_0x eta2 then drop2 eta2 else eta2);
  let new_validator_set := kappa post_state in
  if (length new_validator_set =? 0)%nat then Ok []
  else if 2 ^ 32 <? E post_state then Raise OverflowError
  else mapM (fun i => fallback_key entropy_bytes new_validator_set (Z.of_nat i))
            (seq 0 (Z.to_nat (E post_state))).

(** *** SafroleManager.process_block *)

Definition string_gtb (a b : string) : bool :=
  match String.compare a b with Gt => true | _ => false end.

Fixpoint check_attempts (n : Z) (extrinsic : list ticket_envelope) : result unit :=
  match extrinsic with
  | [] => Ok tt
  | t :: rest =>
      if n <=? attempt t then Raise (ValueError "bad_ticket_attempt")
      else check_attempts n rest
  end.

Fixpoint check_order (submitted : list string) : result unit :=
  match submitted with
  | a :: (b :: _) as rest =>
      if string_gtb a b then Raise (ValueError "bad_ticket_order")
      else check_order rest
  | _ => Ok tt
  end.

Definition extrinsic_lookup (extrinsic : list ticket_envelope)
    : gmap Z ticket_envelope :=
  foldl (fun m ex => <[attempt ex := ex]> m) ∅ extrinsic.

Fixpoint build_tickets (existing_ticket_ids : gset string)
    (lookup : gmap Z ticket_envelope) (results : list verify_result)
    : result (list ticket) :=
  match results with
  | [] => Ok []
  | r :: rest =>
      if bool_decide (output_hash r ∈ existing_ticket_ids)
      then Raise (ValueError "duplicate_ticket")
      else
        match lookup !! vr_attempt r with
        | None =>
            Raise (ValueError ("missing_extrinsic_for_attempt_" +:+ pretty (vr_attempt r)))
        | Some original_extrinsic =>
            p ← hex_to_bytes (signature original_extrinsic);
            rnd ← hex_to_bytes (output_hash r);
            tl ← build_tickets existing_ticket_ids lookup rest;
            Ok (mkTicket (vr_attempt r) rnd p :: tl)
        end
  end.

(** The ticket branch: the new [gamma_a]. *)
Definition admit_tickets (pre_state current_state : state)
    (extrinsic : list ticket_envelope) : result (list ticket) :=
  _ ← check_attempts (N current_state) extrinsic;
  eta2 ← getitem (eta current_state) 2;
  verification_results ←
    ring_vrf_verify (gamma_z pre_state) (map bandersnatch (gamma_k pre_state))
                    eta2 extrinsic;
  if existsb (fun r => negb (ok r) || String.eqb (output_hash r) "")
             verification_results
  then Raise (ValueError "bad_ticket_proof")
  else
    let submitted_randomness := map output_hash verification_results in
    _ ← check_order submitted_randomness;
    if has_duplicates submitted_randomness
    then Raise (ValueError "duplicate_ticket")
    else
      let existing_ticket_ids : gset string :=
        list_to_set (map (fun t => bytes_to_hex (randomness t))
                         (gamma_a current_state)) in
      new_tickets ←
        build_tickets existing_ticket_ids (extrinsic_lookup extrinsic)
                      verification_results;
      Ok (slice_to (sort_by randomness (gamma_a current_state ++ new_tickets))
                   (E current_state)).

Definition set_eta (v : list string) (s : state) : state :=
  mkState (tau s) (E s) (Y s) (N s) v (iota s) (gamma_k s) (kappa s)
          (lambda_ s) (gamma_a s) (gamma_s s) (gamma_z s) (post_offenders s).
Definition set_gamma_a (v : list ticket) (s : state) : state :=
  mkState (tau s) (E s) (Y s) (N s) (eta s) (iota s) (gamma_k s) (kappa s)
          (lambda_ s) v (gamma_s s) (gamma_z s) (post_offenders s).
Definition set_gamma_s (v : seal_keys) (s : state) : state :=
  mkState (tau s) (E s) (Y s) (N s) (eta s) (iota s) (gamma_k s) (kappa s)
          (lambda_ s) (gamma_a s) v (gamma_z s) (post_offenders s).
Definition set_tau (v : Z) (s : state) : state :=
  mkState v (E s) (Y s) (N s) (eta s) (iota s) (gamma_k s) (kappa s)
          (lambda_ s) (gamma_a s) (gamma_s s) (gamma_z s) (post_offenders s).
(** The four assignments that open the epoch transition. *)
Definition rotate_validators (lam kap gk : list validator) (gz : string)
    (s : state) : state :=
  mkState (tau s) (E s) (Y s) (N s) (eta s) (iota s) gk kap lam
          (gamma_a s) (gamma_s s) gz (post_offenders s).

Definition epoch_transition (pre_state current_state : state)
    (prev_epoch prev_m next_epoch : Z) : result state :=
  let gk := process_validator_keys_for_offenders
              (iota pre_state) (post_offenders pre_state) in
  gz ← get_gamma_z_from_rust_server gk (post_offenders pre_state);
  let current1 :=
    rotate_validators (kappa pre_state) (gamma_k pre_state) gk gz current_state in
  let is_prev_accumulator_saturated :=
    Z.of_nat (length (gamma_a pre_state)) =? E pre_state in
  let is_immediate_epoch_transition := next_epoch =? prev_epoch + 1 in
  current2 ←
    (if is_immediate_epoch_transition && (Y pre_state <=? prev_m)
        && is_prev_accumulator_saturated
     then Ok (set_gamma_s (Tickets (map ticket_to_body (z (gamma_a pre_state))))
                          current1)
     else ks ← calculate_fallback_gamma_s current1;
          Ok (set_gamma_s (Keys ks) current1));
  Ok (set_gamma_a [] current2).

(** The body of [process_block], up to the assignment to [self.state]. *)
Definition process_block_body (pre_state : state) (block_input : block_input)
    : result (header * post_state_output * state) :=
  if slot block_input <=? tau pre_state then Raise (ValueError "bad_slot")
  else
  let is_gap_block := tau pre_state + 1 <? slot block_input in
  if is_gap_block && negb (length (extrinsic block_input) =? 0)%nat
  then Raise (ValueError "unexpected_ticket")
  else
  let current_state := pre_state in
  '(prev_epoch, prev_m) ← get_epoch_and_slot_phase (tau pre_state) (E current_state);
  let tau_prime := slot block_input in
  '(next_epoch, m_prime) ← get_epoch_and_slot_phase tau_prime (E current_state);
  eta0 ← getitem (eta pre_state) 0;
  eta0_bytes ← hex_to_bytes eta0;
  vrf_output ← hex_to_bytes (entropy block_input);
  let new_eta0 := bytes_to_hex (calculate_eta_update eta0_bytes vrf_output) in
  new_eta ←
    (if prev_epoch <? next_epoch then
       e0 ← getitem (eta pre_state) 0;
       e1 ← getitem (eta pre_state) 1;
       e2 ← getitem (eta pre_state) 2;
       Ok [new_eta0; e0; e1; e2]
     else
       e1 ← getitem (eta pre_state) 1;
       e2 ← getitem (eta pre_state) 2;
       e3 ← getitem (eta pre_state) 3;
       Ok [new_eta0; e1; e2; e3]);
  let current_state := set_eta new_eta current_state in
  let extrinsic := extrinsic block_input in
  current_state ←
    (if (m_prime <? Y current_state) && negb (length extrinsic =? 0)%nat
     then ga ← admit_tickets pre_state current_state extrinsic;
          Ok (set_gamma_a ga current_state)
     else Ok current_state);
  current_state ←
    (if prev_epoch <? next_epoch
     then epoch_transition pre_state current_state prev_epoch prev_m next_epoch
     else Ok current_state);
  let current_state := set_tau tau_prime current_state in
  em ←
    (if prev_epoch <? next_epoch then
       e0 ← getitem (eta pre_state) 0;
       e1 ← getitem (eta pre_state) 1;
       Ok (Some (mkEpochMark e0 e1
                   (map (fun k => (bandersnatch k, ed25519 k))
                        (gamma_k current_state))))
     else Ok None);
  let end_of_submission :=
    (next_epoch =? prev_epoch) && (prev_m <? Y current_state)
    && (Y current_state <=? m_prime) in
  let tm :=
    if end_of_submission
       && (Z.of_nat (length (gamma_a current_state)) =? E current_state)
    then Some (map ticket_to_body (z (gamma_a current_state)))
    else None in
  let hdr := mkHeader tau_prime "0x" (entropy block_input) em tm in
  let out := mkOutput current_state
               (map ticket_to_body (gamma_a current_state)) in
  Ok (hdr, out, current_state).

(** [process_block] as a step of the manager: [self.state] is assigned only
    when the body reaches its end; a raised exception leaves it as it was. *)
Definition process_block (self_state : state) (block_input : block_input)
    : result (header * post_state_output) * state :=
  match process_block_body self_state block_input with
  | Ok (hdr, out, current_state) => (Ok (hdr, out), current_state)
  | Raise e => (Raise e, self_state)
  end.

(** *** Reading a successful step backwards *)

Lemma bind_ok {A B} (m : result A) (f : A -> result B) (b : B) :
  (m ≫= f) = Ok b -> exists a, m = Ok a /\ f a = Ok b.
Proof. destruct m as [a|e]; [eauto|discriminate]. Qed.

Lemma body_inv (pre_state : state) (b : block_input) hdr out st :
  process_block_body pre_state b = Ok (hdr, out, st) ->
  exists pe pm ne m' eta0 eta0b vrf new_eta cs1 cs2,
    tau pre_state < slot b
    /\ get_epoch_and_slot_phase (tau pre_state) (E pre_state) = Ok (pe, pm)
    /\ get_epoch_and_slot_phase (slot b) (E pre_state) = Ok (ne, m')
    /\ eta pre_state !! 0%nat = Some eta0
    /\ hex_to_bytes eta0 = Ok eta0b
    /\ hex_to_bytes (entropy b) = Ok vrf
    /\ (if pe <? ne
        then exists e1 e2, eta pre_state !! 1%nat = Some e1
               /\ eta pre_state !! 2%nat = Some e2
               /\ new_eta = [bytes_to_hex (blake2b_256 (eta0b ++ vrf)); eta0; e1; e2]
        else exists e1 e2 e3, eta pre_state !! 1%nat = Some e1
               /\ eta pre_state !! 2%nat = Some e2
               /\ eta pre_state !! 3%nat = Some e3
               /\ new_eta = [bytes_to_hex (blake2b_256 (eta0b ++ vrf)); e1; e2; e3])
    /\ (if (m' <? Y pre_state) && negb (length (extrinsic b) =? 0)%nat
        then exists ga, admit_tickets pre_state (set_eta new_eta pre_state) (extrinsic b) = Ok ga
               /\ cs1 = set_gamma_a ga (set_eta new_eta pre_state)
        else cs1 = set_eta new_eta pre_state)
    /\ (if pe <? ne
        then epoch_transition pre_state cs1 pe pm ne = Ok cs2
        else cs2 = cs1)
    /\ st = set_tau (slot b) cs2
    /\ out = mkOutput st (map ticket_to_body (gamma_a st)).
Proof.
  unfold process_block_body. intros H.
  destruct (slot b <=? tau pre_state) eqn:Hslot; [discriminate|].
  destruct (_ && _) eqn:Hgap in H; [discriminate|].
  apply bind_ok in H as ([pe pm] & Hpe & H).
  apply bind_ok in H as ([ne m'] & Hne & H).
  apply bind_ok in H as (eta0 & He0 & H).
  apply bind_ok in H as (eta0b & He0b & H).
  apply bind_ok in H as (vrf & Hvrf & H).
  apply bind_ok in H as (new_eta & Hnew & H).
  apply bind_ok in H as (cs1 & Hcs1 & H).
  apply bind_ok in H as (cs2 & Hcs2 & H).
  apply bind_ok in H as (em & Hem & H).
  injection H as <- <- <-.
  assert (forall (l : list string) i x, getitem l i = Ok x -> l !! i = Some x) as Hget.
  { intros l i x. unfold getitem. destruct (l !! i); congruence. }
  exists pe, pm, ne, m', eta0, eta0b, vrf, new_eta, cs1, cs2.
  split; [apply Z.leb_gt in Hslot; lia|].
  do 5 (split; [auto|]).
  split.
  { destruct (pe <? ne).
    - apply bind_ok in Hnew as (e0 & H0 & Hnew).
      apply bind_ok in Hnew as (e1 & H1 & Hnew).
      apply bind_ok in Hnew as (e2 & H2 & Hnew).
      rewrite He0 in H0. injection H0 as <-. injection Hnew as <-.
      exists e1, e2. auto.
    - apply bind_ok in Hnew as (e1 & H1 & Hnew).
      apply bind_ok in Hnew as (e2 & H2 & Hnew).
      apply bind_ok in Hnew as (e3 & H3 & Hnew).
      injection Hnew as <-. exists e1, e2, e3. auto. }
  split.
  { change (Y (set_eta new_eta pre_state)) with (Y pre_state) in Hcs1.
    destruct (_ && _) in Hcs1 |- *.
    - apply bind_ok in Hcs1 as (ga & Hga & Hcs1). injection Hcs1 as <-. eauto.
    - injection Hcs1 as <-. reflexivity. }
  split.
  { destruct (pe <? ne); [exact Hcs2|congruence]. }
  split; reflexivity.
Qed.

Lemma getitem_ok {A} (l : list A) i x : getitem l i = Ok x -> l !! i = Some x.
Proof. unfold getitem. destruct (l !! i); congruence. Qed.

(** The fallback reads only [eta], [kappa] and [E]. *)
Lemma fallback_ext (s1 s2 : state) :
  eta s1 = eta s2 -> kappa s1 = kappa s2 -> E s1 = E s2 ->
  calculate_fallback_gamma_s s1 = calculate_fallback_gamma_s s2.
Proof. unfold calculate_fallback_gamma_s. intros -> -> ->. reflexivity. Qed.

Lemma epoch_transition_inv (pre_state cur : state) (pe pm ne : Z) (s : state) :
  epoch_transition pre_state cur pe pm ne = Ok s ->
  tau s = tau cur /\ E s = E cur /\ Y s = Y cur /\ N s = N cur
  /\ eta s = eta cur /\ iota s = iota cur
  /\ post_offenders s = post_offenders cur
  /\ lambda_ s = kappa pre_state
  /\ kappa s = gamma_k pre_state
  /\ gamma_k s = process_validator_keys_for_offenders
                   (iota pre_state) (post_offenders pre_state)
  /\ get_gamma_z_from_rust_server (gamma_k s) (post_offenders pre_state)
     = Ok (gamma_z s)
  /\ gamma_a s = []
  /\ (if (ne =? pe + 1) && (Y pre_state <=? pm)
         && (Z.of_nat (length (gamma_a pre_state)) =? E pre_state)
      then gamma_s s = Tickets (map ticket_to_body (z (gamma_a pre_state)))
      else exists ks, calculate_fallback_gamma_s s = Ok ks
                      /\ gamma_s s = Keys ks).
Proof.
  unfold epoch_transition. intros H.
  apply bind_ok in H as (gz & Hgz & H).
  apply bind_ok in H as (c2 & Hc2 & H).
  injection H as <-.
  destruct (_ && _) in Hc2 |- *.
  - injection Hc2 as <-. cbn. repeat split; auto.
  - apply bind_ok in Hc2 as (ks & Hks & Hc2). injection Hc2 as <-.
    cbn. repeat split; auto. exists ks. split; [|reflexivity].
    rewrite <- Hks. apply fallback_ext; reflexivity.
Qed.

(** *** The zig-zag order, in the specification's words: the head, then the
    last element, then the same again on what lies between. *)
Fixpoint zigzag_fuel {A} (n : nat) (l : list A) : list A :=
  match n, l with
  | S n', x :: r =>
      x :: match reverse r with
           | y :: r' => y :: zigzag_fuel n' (reverse r')
           | [] => []
           end
  | _, _ => []
  end.

Definition zigzag {A} (l : list A) : list A := zigzag_fuel (length l) l.

Lemma zigzag_fuel_more {A} (n : nat) :
  forall (l : list A) m, (length l <= n)%nat -> (length l <= m)%nat ->
    zigzag_fuel n l = zigzag_fuel m l.
Proof.
  induction n as [|n IH]; intros l m Hn Hm.
  - destruct l; [|simpl in Hn; lia]. destruct m; reflexivity.
  - destruct l as [|x r]; [destruct m; reflexivity|].
    destruct m as [|m]; [simpl in Hm; lia|].
    cbn [zigzag_fuel]. destruct (reverse r) as [|y r'] eqn:Hr; [reflexivity|].
    assert (length r = S (length r')) as Hlen.
    { rewrite <- (length_reverse r), Hr. reflexivity. }
    f_equal. f_equal. apply IH; rewrite length_reverse; simpl in *; lia.
Qed.

Lemma z_loop_zigzag {A} (fuel : nat) :
  forall (front mid back res : list A),
    (length mid <= fuel)%nat ->
    z_loop fuel (front ++ mid ++ back) (Z.of_nat (length front))
           (Z.of_nat (length front) + Z.of_nat (length mid) - 1) res
    = res ++ zigzag mid.
Proof.
  induction fuel as [|fuel IH]; intros front mid back res Hf.
  - destruct mid; [|simpl in Hf; lia]. cbn. rewrite app_nil_r. reflexivity.
  - cbn [z_loop]. destruct mid as [|x r].
    + cbn [length]. destruct (Z.leb_spec (Z.of_nat (length front))
                               (Z.of_nat (length front) + Z.of_nat 0 - 1)); [lia|].
      cbn. rewrite app_nil_r. reflexivity.
    + destruct (Z.leb_spec (Z.of_nat (length front))
                  (Z.of_nat (length front) + Z.of_nat (length (x :: r)) - 1));
        [|cbn [length] in *; lia].
      rewrite Nat2Z.id.
      rewrite (lookup_app_r front) by lia. rewrite Nat.sub_diag. cbn [lookup list_lookup app option_list].
      unfold zigzag. cbn [length zigzag_fuel].
      destruct (reverse r) as [|y r'] eqn:Hr.
      * assert (r = []) as -> by (apply (f_equal reverse) in Hr; rewrite reverse_involutive in Hr; exact Hr).
        cbn [length].
        destruct (Z.ltb_spec (Z.of_nat (length front))
                    (Z.of_nat (length front) + Z.of_nat 1 - 1)); [lia|].
        destruct fuel as [|fuel']; [reflexivity|].
        cbn [z_loop].
        destruct (Z.leb_spec (Z.of_nat (length front) + 1)
                    (Z.of_nat (length front) + Z.of_nat 1 - 1 - 1)); [lia|].
        reflexivity.
      * assert (r = reverse r' ++ [y]) as ->.
        { apply (f_equal reverse) in Hr. rewrite reverse_involutive in Hr.
          rewrite Hr, reverse_cons. reflexivity. }
        cbn [length] in *. rewrite length_app in *. cbn [length] in *.
        destruct (Z.ltb_spec (Z.of_nat (length front))
                    (Z.of_nat (length front)
                     + Z.of_nat (S (length (reverse r') + 1)) - 1)); [|lia].
        replace (Z.to_nat (Z.of_nat (length front)
                           + Z.of_nat (S (length (reverse r') + 1)) - 1))
          with (length (front ++ x :: reverse r')) by (rewrite length_app; cbn [length]; lia).
        assert (front ++ x :: (reverse r' ++ [y]) ++ back
                = (front ++ x :: reverse r') ++ y :: back) as ->
          by (repeat (rewrite <- app_assoc; cbn [app]); reflexivity).
        rewrite (lookup_app_r (front ++ x :: reverse r')) by lia.
        rewrite Nat.sub_diag. cbn [lookup list_lookup option_list].
        replace ((front ++ x :: reverse r') ++ y :: back)
          with ((front ++ [x]) ++ reverse r' ++ (y :: back))
          by (rewrite <- !app_assoc; reflexivity).
        replace (Z.of_nat (length front) + 1)
          with (Z.of_nat (length (front ++ [x]))) by (rewrite length_app; cbn [length]; lia).
        replace (Z.of_nat (length front)
                 + Z.of_nat (S (length (reverse r') + 1)) - 1 - 1)
          with (Z.of_nat (length (front ++ [x]))
                + Z.of_nat (length (reverse r')) - 1)
          by (rewrite length_app; cbn [length]; lia).
        rewrite IH by lia.
        rewrite <- !app_assoc. cbn [app]. do 3 f_equal.
        unfold zigzag. apply zigzag_fuel_more; rewrite length_reverse; lia.
Qed.

(** [z] is the zig-zag interleave. *)
Lemma z_zigzag {A} (l : list A) : z l = zigzag l.
Proof.
  unfold z.
  pose proof (z_loop_zigzag (S (length l)) [] l [] []) as H.
  cbn [length app] in H. rewrite app_nil_r in H.
  rewrite Z.add_0_l in H. apply H. lia.
Qed.

Lemma epoch_phase_ok (t e q r : Z) :
  get_epoch_and_slot_phase t e = Ok (q, r) -> e <> 0 /\ q = t / e /\ r = t mod e.
Proof.
  unfold get_epoch_and_slot_phase. destruct (Z.eqb_spec e 0); [discriminate|].
  intros H. injection H as <- <-. auto.
Qed.

Lemma process_block_ok (pre_state : state) (b : block_input) hdr out st' :
  process_block pre_state b = (Ok (hdr, out), st') ->
  process_block_body pre_state b = Ok (hdr, out, st').
Proof.
  unfold process_block.
  destruct (process_block_body pre_state b) as [[[h o] s]|e]; intros H;
    [injection H as <- <- <-; reflexivity|discriminate].
Qed.

(** What a successful step leaves of the state, phase by phase. *)
Lemma step_fields (pre_state : state) (b : block_input) hdr out st' :
  process_block pre_state b = (Ok (hdr, out), st') ->
  E st' = E pre_state /\ Y st' = Y pre_state /\ N st' = N pre_state
  /\ tau st' = slot b /\ out_state out = st'
  /\ out_gamma_a out = map ticket_to_body (gamma_a st').
Proof.
  intros H. apply process_block_ok, body_inv in H
    as (pe & pm & ne & m' & eta0 & eta0b & vrf & new_eta & cs1 & cs2
        & _ & _ & _ & _ & _ & _ & _ & Hcs1 & Hcs2 & -> & ->).
  assert (E cs1 = E pre_state /\ Y cs1 = Y pre_state /\ N cs1 = N pre_state)
    as (HE & HY & HN).
  { destruct (_ && _) in Hcs1; [destruct Hcs1 as (ga & _ & ->)|subst cs1]; auto. }
  destruct (pe <? ne).
  - apply epoch_transition_inv in Hcs2 as (_ & HE2 & HY2 & HN2 & _).
    cbn. repeat split; congruence.
  - subst cs2. cbn. repeat split; congruence.
Qed.

(** C1. On every accepted block the first accumulator becomes
    [H(eta0 ++ Y(HV))], BLAKE2b-256 over the decoded bytes; the other three
    entries are the old [eta0, eta1, eta2] when the epoch changes and the old
    [eta1, eta2, eta3] otherwise; the new [eta] has length 4. *)
Theorem eta_rotation (pre_state : state) (b : block_input) hdr out st' :
  process_block pre_state b = (Ok (hdr, out), st') ->
  exists eta0 eta0_bytes vrf_output,
    eta pre_state !! 0%nat = Some eta0
    /\ hex_to_bytes eta0 = Ok eta0_bytes
    /\ hex_to_bytes (entropy b) = Ok vrf_output
    /\ let new_eta0 := bytes_to_hex (blake2b_256 (eta0_bytes ++ vrf_output)) in
       (tau pre_state / E pre_state < slot b / E pre_state ->
        exists e1 e2,
          eta pre_state !! 1%nat = Some e1 /\ eta pre_state !! 2%nat = Some e2
          /\ eta st' = [new_eta0; eta0; e1; e2])
       /\ (~ tau pre_state / E pre_state < slot b / E pre_state ->
           exists e1 e2 e3,
             eta pre_state !! 1%nat = Some e1 /\ eta pre_state !! 2%nat = Some e2
             /\ eta pre_state !! 3%nat = Some e3
             /\ eta st' = [new_eta0; e1; e2; e3])
       /\ length (eta st') = 4%nat
       /\ eta (out_state out) = eta st'.
Proof.
  intros H. pose proof (step_fields _ _ _ _ _ H) as (_ & _ & _ & _ & Hout & _).
  apply process_block_ok, body_inv in H
    as (pe & pm & ne & m' & eta0 & eta0b & vrf & new_eta & cs1 & cs2
        & _ & Hpe & Hne & He0 & He0b & Hvrf & Hnew & Hcs1 & Hcs2 & Hst & _).
  apply epoch_phase_ok in Hpe as (HE & -> & ->).
  apply epoch_phase_ok in Hne as (_ & -> & ->).
  assert (eta st' = new_eta) as Heta.
  { assert (eta cs1 = new_eta) as H1.
    { destruct (_ && _) in Hcs1; [destruct Hcs1 as (ga & _ & ->)|subst cs1];
        reflexivity. }
    subst st'. cbn. destruct (_ <? _) in Hcs2.
    - apply epoch_transition_inv in Hcs2 as (_ & _ & _ & _ & -> & _). exact H1.
    - subst cs2. exact H1. }
  exists eta0, eta0b, vrf. do 3 (split; [assumption|]). cbn zeta.
  rewrite Hout, Heta.
  destruct (Z.ltb_spec (tau pre_state / E pre_state) (slot b / E pre_state)).
  - destruct Hnew as (e1 & e2 & H1 & H2 & ->).
    split; [intros _; exists e1, e2; auto|]. split; [intros Hn; lia|].
    split; reflexivity.
  - destruct Hnew as (e1 & e2 & e3 & H1 & H2 & H3 & ->).
    split; [intros Hn; lia|]. split; [intros _; exists e1, e2, e3; auto|].
    split; reflexivity.
Qed.



(** *** The ticket accumulator *)

Lemma hex_to_bytes_to_hex (bs : list byte) : hex_to_bytes (bytes_to_hex bs) = Ok bs.
Proof.
  unfold hex_to_bytes, bytes_to_hex.
  change ("0x" +:+ bytes_hex bs) with (String "0" (String "x" (bytes_hex bs))).
  cbn [startswith_0x drop2]. unfold bytes_fromhex.
  rewrite fromhex_bytes_hex. reflexivity.
Qed.

Lemma bytes_to_hex_inj (a b : list byte) : bytes_to_hex a = bytes_to_hex b -> a = b.
Proof.
  intros H. apply (f_equal hex_to_bytes) in H.
  rewrite !hex_to_bytes_to_hex in H. congruence.
Qed.








(** *** The zig-zag order, position by position *)

Lemma reverse_cons_inv {A} (r r' : list A) (y : A) :
  reverse r = y :: r' -> r = reverse r' ++ [y].
Proof.
  intros Hr. apply (f_equal reverse) in Hr.
  rewrite reverse_involutive in Hr. rewrite Hr, reverse_cons. reflexivity.
Qed.

Lemma zigzag_fuel_perm {A} (n : nat) :
  forall l : list A, (length l <= n)%nat -> zigzag_fuel n l ≡ₚ l.
Proof.
  induction n as [|n IH]; intros l Hn.
  - destruct l; [reflexivity|simpl in Hn; lia].
  - destruct l as [|x r]; [reflexivity|]. cbn [zigzag_fuel].
    destruct (reverse r) as [|y r'] eqn:Hr.
    + apply (f_equal reverse) in Hr. rewrite reverse_involutive in Hr.
      subst r. reflexivity.
    + apply reverse_cons_inv in Hr. subst r. constructor.
      rewrite IH.
      * apply Permutation_cons_append.
      * cbn [length] in Hn. rewrite length_app in Hn. cbn [length] in Hn. lia.
Qed.

Lemma zigzag_fuel_lookup {A} (n : nat) :
  forall (l : list A) i, (length l <= n)%nat -> (2 * i < length l)%nat ->
    zigzag_fuel n l !! (2 * i)%nat = l !! i
    /\ ((2 * i + 1 < length l)%nat ->
        zigzag_fuel n l !! (2 * i + 1)%nat = l !! (length l - 1 - i)%nat).
Proof.
  induction n as [|n IH]; intros l i Hn Hi; [lia|].
  destruct l as [|x r]; [cbn [length] in Hi; lia|]. cbn [zigzag_fuel].
  destruct (reverse r) as [|y r'] eqn:Hr.
  - apply (f_equal reverse) in Hr. rewrite reverse_involutive in Hr. subst r.
    change (@reverse A []) with (@nil A) in *.
    cbn [length] in *. assert (i = 0%nat) as -> by lia.
    split; [reflexivity|lia].
  - apply reverse_cons_inv in Hr. subst r.
    cbn [length] in *. rewrite length_app in *. cbn [length] in *.
    destruct i as [|j].
    + split; [reflexivity|]. intros _.
      replace (S (length (reverse r') + 1) - 1 - 0)%nat
        with (S (length (reverse r'))) by lia.
      change (Some y = (reverse r' ++ [y]) !! length (reverse r')).
      rewrite lookup_app_r by lia. rewrite Nat.sub_diag. reflexivity.
    + replace (2 * S j)%nat with (S (S (2 * j))) by lia.
      replace (S (S (2 * j)) + 1)%nat with (S (S (2 * j + 1))) by lia.
      replace (S (length (reverse r') + 1) - 1 - S j)%nat
        with (S (length (reverse r') - 1 - j)) by lia.
      change (zigzag_fuel n (reverse r') !! (2 * j)%nat
              = (reverse r' ++ [y]) !! j
              /\ ((S (S (2 * j + 1)) < S (length (reverse r') + 1))%nat ->
                  zigzag_fuel n (reverse r') !! (2 * j + 1)%nat
                  = (reverse r' ++ [y]) !! (length (reverse r') - 1 - j)%nat)).
      destruct (IH (reverse r') j) as [Heven Hodd]; [lia|lia|].
      split.
      * rewrite Heven. rewrite lookup_app_l by lia. reflexivity.
      * intros Hlt. rewrite Hodd by lia.
        rewrite lookup_app_l by lia. reflexivity.
Qed.

(** X4. [z] rearranges its argument without losing or repeating an element:
    the element at the even position [2i] is [sequence[i]], and the one at the
    odd position [2i + 1] is [sequence[len - 1 - i]]. *)
Theorem z_interleaves {A} (l : list A) :
  z l ≡ₚ l
  /\ forall i, (2 * i < length l)%nat ->
       z l !! (2 * i)%nat = l !! i
       /\ ((2 * i + 1 < length l)%nat ->
           z l !! (2 * i + 1)%nat = l !! (length l - 1 - i)%nat).
Proof.
  rewrite z_zigzag. unfold zigzag. split.
  - apply zigzag_fuel_perm. lia.
  - intros i Hi. apply zigzag_fuel_lookup; [lia|exact Hi].
Qed.

(** *** Offenders and the padding validator *)

(** X5. [process_validator_keys_for_offenders] keeps the length and the
    positions of the keys: a validator whose ed25519 key is an offender is
    replaced by the padding validator and every other one is kept as it is;
    no validator of the result other than the padding validator has an
    offending key, and applying the function again changes nothing. *)
Theorem offenders_replaced (keys : list validator) (offenders : list string) :
  let out := process_validator_keys_for_offenders keys offenders in
  length out = length keys
  /\ (forall i k, keys !! i = Some k ->
        out !! i = Some (if bool_decide (ed25519 k ∈ offenders)
                         then PADDING_VALIDATOR else k))
  /\ (forall k, k ∈ out -> ed25519 k ∈ offenders -> k = PADDING_VALIDATOR)
  /\ process_validator_keys_for_offenders out offenders = out.
Proof.
  cbn zeta. unfold process_validator_keys_for_offenders.
  split; [apply length_map|]. split; [|split].
  - intros i k Hk. change (map ?f keys) with (f <$> keys).
    rewrite list_lookup_fmap, Hk. cbn [fmap option_fmap option_map]. f_equal.
    repeat case_bool_decide; try reflexivity; set_solver.
  - intros k Hin Hoff.
    change (map ?f keys) with (f <$> keys) in Hin.
    apply list_elem_of_fmap in Hin as (k0 & -> & _).
    case_bool_decide as Hk0; [reflexivity|]. set_solver.
  - rewrite map_map. apply map_ext. intros k.
    destruct (bool_decide (ed25519 k ∈ (list_to_set offenders : gset string)))
      eqn:Hk; [|rewrite Hk; reflexivity].
    clear Hk. destruct (bool_decide _); reflexivity.
Qed.

(** *** The fallback keys *)

Lemma le_bytes_to_int_nonneg (b : list byte) : 0 <= le_bytes_to_int b.
Proof.
  unfold le_bytes_to_int. induction b as [|x b IH]; cbn [foldr]; [lia|].
  pose proof (N2Z.is_nonneg (Byte.to_N x)). lia.
Qed.

Lemma fallback_key_ok (entropy_bytes : list byte) (vs : list validator) (i : Z) :
  vs <> [] ->
  exists v, v ∈ vs /\ fallback_key entropy_bytes vs i = Ok (bandersnatch v).
Proof.
  intros Hvs. unfold fallback_key.
  set (r := le_bytes_to_int _).
  assert (0 <= r mod Z.of_nat (length vs) < Z.of_nat (length vs)) as Hr.
  { apply Z.mod_pos_bound. destruct vs; [congruence|cbn [length]; lia]. }
  destruct (lookup_lt_is_Some_2 vs (Z.to_nat (r mod Z.of_nat (length vs))))
    as [v Hv]; [lia|].
  exists v. split; [eapply list_elem_of_lookup_2, Hv|].
  unfold getitem. rewrite Hv. reflexivity.
Qed.

Lemma mapM_result_ok {A B} (f : A -> result B) (P : B -> Prop) (l : list A) :
  (forall a, a ∈ l -> exists b, f a = Ok b /\ P b) ->
  exists bs, mapM f l = Ok bs /\ length bs = length l /\ Forall P bs.
Proof.
  induction l as [|a l IH]; intros H.
  - exists []. split; [reflexivity|]. split; [reflexivity|constructor].
  - destruct (H a) as (b & Hb & HP); [left|].
    destruct IH as (bs & Hbs & Hlen & HPs).
    { intros a' Ha'. apply H. right. exact Ha'. }
    exists (b :: bs). cbn [mapM]. rewrite Hb. cbn [mbind result_bind].
    rewrite Hbs. cbn. split; [reflexivity|]. split; [lia|].
    constructor; assumption.
Qed.

(** X6. The fallback never fails on a state whose [eta[2]] decodes and
    whose epoch length is at most [2^32]: with no validator in [kappa] it
    returns the empty list, and otherwise it returns one key for each of the
    [E] slots ([none] for a negative [E]), each the Bandersnatch key of a
    validator of [kappa]. *)
Theorem fallback_keys_from_kappa (post_state : state) (eta2 : string)
    (entropy_bytes : list byte) :
  eta post_state !! 2%nat = Some eta2 ->
  bytes_fromhex (if startswith_0x eta2 then drop2 eta2 else eta2)
    = Ok entropy_bytes ->
  E post_state <= 2 ^ 32 ->
  exists ks, calculate_fallback_gamma_s post_state = Ok ks
    /\ (kappa post_state = [] -> ks = [])
    /\ (kappa post_state <> [] ->
        length ks = Z.to_nat (E post_state)
        /\ Forall (fun k => exists v, v ∈ kappa post_state /\ k = bandersnatch v) ks).
Proof.
  intros Heta Hhex HE. unfold calculate_fallback_gamma_s, getitem.
  rewrite Heta. cbn [mbind result_bind]. rewrite Hhex. cbn [mbind result_bind].
  destruct (kappa post_state) as [|v vs] eqn:Hk.
  - exists []. cbn. split; [reflexivity|]. split; [reflexivity|congruence].
  - cbn [length Nat.eqb].
    destruct (Z.ltb_spec (2 ^ 32) (E post_state)); [lia|].
    destruct (mapM_result_ok
                (fun i => fallback_key entropy_bytes (v :: vs) (Z.of_nat i))
                (fun k => exists w, w ∈ v :: vs /\ k = bandersnatch w)
                (seq 0 (Z.to_nat (E post_state)))) as (ks & Hks & Hlen & HP).
    { intros i _.
      destruct (fallback_key_ok entropy_bytes (v :: vs) (Z.of_nat i))
        as (w & Hw & Hf); [discriminate|].
      exists (bandersnatch w). split; [exact Hf|]. exists w. auto. }
    exists ks. split; [exact Hks|]. split; [discriminate|].
    intros _. rewrite length_seq in Hlen. split; assumption.
Qed.

(** *** What a step leaves alone *)

Lemma admit_keeps (pre_state : state) (b : block_input) (new_eta : list string)
    (m' : Z) (cs1 : state) :
  (if (m' <? Y pre_state) && negb (length (extrinsic b) =? 0)%nat
   then exists ga, admit_tickets pre_state (set_eta new_eta pre_state) (extrinsic b)
                     = Ok ga
                   /\ cs1 = set_gamma_a ga (set_eta new_eta pre_state)
   else cs1 = set_eta new_eta pre_state) ->
  iota cs1 = iota pre_state /\ post_offenders cs1 = post_offenders pre_state
  /\ kappa cs1 = kappa pre_state /\ lambda_ cs1 = lambda_ pre_state
  /\ gamma_k cs1 = gamma_k pre_state /\ gamma_z cs1 = gamma_z pre_state
  /\ gamma_s cs1 = gamma_s pre_state.
Proof.
  destruct (_ && _); [intros (ga & _ & ->)|intros ->]; cbn; repeat split.
Qed.

(** X7. A successful step moves [tau] forward to the block's slot and never
    changes [E], [Y], [N], [iota] or [post_offenders]; unless the epoch
    number goes up, it also leaves the validator sets [kappa], [lambda_],
    [gamma_k], the ring root [gamma_z] and the seal keys [gamma_s] as they
    were. *)
Theorem process_block_frame (pre_state : state) (b : block_input) hdr out st' :
  process_block pre_state b = (Ok (hdr, out), st') ->
  tau pre_state < tau st' /\ tau st' = slot b
  /\ E st' = E pre_state /\ Y st' = Y pre_state /\ N st' = N pre_state
  /\ iota st' = iota pre_state /\ post_offenders st' = post_offenders pre_state
  /\ (slot b / E pre_state <= tau pre_state / E pre_state ->
      kappa st' = kappa pre_state /\ lambda_ st' = lambda_ pre_state
      /\ gamma_k st' = gamma_k pre_state /\ gamma_z st' = gamma_z pre_state
      /\ gamma_s st' = gamma_s pre_state).
Proof.
  intros H. pose proof (step_fields _ _ _ _ _ H) as (HE & HY & HN & Htau & _).
  apply process_block_ok, body_inv in H
    as (pe & pm & ne & m' & eta0 & eta0b & vrf & new_eta & cs1 & cs2
        & Hslot & Hpe & Hne & _ & _ & _ & _ & Hcs1 & Hcs2 & -> & _).
  apply epoch_phase_ok in Hpe as (_ & -> & _).
  apply epoch_phase_ok in Hne as (_ & -> & _).
  apply admit_keeps in Hcs1 as (Hi & Hp & Hk & Hl & Hgk & Hgz & Hgs).
  split; [rewrite Htau; exact Hslot|]. split; [exact Htau|].
  split; [exact HE|]. split; [exact HY|]. split; [exact HN|].
  destruct (Z.ltb_spec (tau pre_state / E pre_state) (slot b / E pre_state)).
  - apply epoch_transition_inv in Hcs2
      as (_ & _ & _ & _ & _ & Hi2 & Hp2 & _).
    cbn [iota post_offenders set_tau].
    split; [congruence|]. split; [congruence|]. lia.
  - subst cs2. cbn. repeat split; assumption.
Qed.

(** *** The header of a block *)

Lemma body_header (pre_state : state) (b : block_input) hdr out st :
  process_block_body pre_state b = Ok (hdr, out, st) ->
  let prev_epoch := tau pre_state / E pre_state in
  let next_epoch := slot b / E pre_state in
  let prev_m := tau pre_state mod E pre_state in
  let m_prime := slot b mod E pre_state in
  exists em,
    hdr = mkHeader (slot b) "0x" (entropy b) em
            (if (next_epoch =? prev_epoch) && (prev_m <? Y st) && (Y st <=? m_prime)
                && (Z.of_nat (length (gamma_a st)) =? E st)
             then Some (map ticket_to_body (z (gamma_a st)))
             else None)
    /\ if prev_epoch <? next_epoch
       then exists e0 e1,
              eta pre_state !! 0%nat = Some e0 /\ eta pre_state !! 1%nat = Some e1
              /\ em = Some (mkEpochMark e0 e1
                              (map (fun k => (bandersnatch k, ed25519 k))
                                   (gamma_k st)))
       else em = None.
Proof.
  unfold process_block_body. intros H.
  destruct (slot b <=? tau pre_state) eqn:Hslot; [discriminate|].
  destruct (_ && _) eqn:Hgap in H; [discriminate|].
  apply bind_ok in H as ([pe pm] & Hpe & H).
  apply bind_ok in H as ([ne m'] & Hne & H).
  apply bind_ok in H as (eta0 & He0 & H).
  apply bind_ok in H as (eta0b & He0b & H).
  apply bind_ok in H as (vrf & Hvrf & H).
  apply bind_ok in H as (new_eta & Hnew & H).
  apply bind_ok in H as (cs1 & Hcs1 & H).
  apply bind_ok in H as (cs2 & Hcs2 & H).
  apply bind_ok in H as (em & Hem & H).
  injection H as <- <- <-.
  apply epoch_phase_ok in Hpe as (_ & -> & ->).
  apply epoch_phase_ok in Hne as (_ & -> & ->).
  cbn zeta. exists em. split; [reflexivity|].
  destruct (tau pre_state / E pre_state <? slot b / E pre_state).
  - apply bind_ok in Hem as (e0 & H0 & Hem).
    apply bind_ok in Hem as (e1 & H1 & Hem).
    injection Hem as <-. apply getitem_ok in H0, H1. eauto.
  - congruence.
Qed.

(** X8. The header of an accepted block repeats the block's slot and
    entropy under an empty seal.  It carries an epoch mark exactly when the
    epoch number goes up: the old [eta[0]] and [eta[1]] and the key pairs of
    the new [gamma_k]; and a tickets mark exactly when the block stays in its
    epoch, crosses the end of the submission period ([prev_m < Y <= m']) and
    leaves [gamma_a] full: the zig-zag of [gamma_a].  No header carries both
    marks. *)
Theorem header_marks (pre_state : state) (b : block_input) hdr out st' :
  process_block pre_state b = (Ok (hdr, out), st') ->
  let prev_epoch := tau pre_state / E pre_state in
  let next_epoch := slot b / E pre_state in
  let prev_m := tau pre_state mod E pre_state in
  let m_prime := slot b mod E pre_state in
  h_slot hdr = slot b /\ h_seal hdr = "0x" /\ h_vrf_output hdr = entropy b
  /\ (prev_epoch < next_epoch ->
      exists e0 e1,
        eta pre_state !! 0%nat = Some e0 /\ eta pre_state !! 1%nat = Some e1
        /\ epoch_mark hdr
           = Some (mkEpochMark e0 e1
                     (map (fun k => (bandersnatch k, ed25519 k)) (gamma_k st'))))
  /\ (next_epoch <= prev_epoch -> epoch_mark hdr = None)
  /\ tickets_mark hdr
     = (if (next_epoch =? prev_epoch) && (prev_m <? Y pre_state)
           && (Y pre_state <=? m_prime)
           && (Z.of_nat (length (gamma_a st')) =? E pre_state)
        then Some (map ticket_to_body (z (gamma_a st')))
        else None)
  /\ (epoch_mark hdr = None \/ tickets_mark hdr = None).
Proof.
  intros H. pose proof (step_fields _ _ _ _ _ H) as (HE & HY & _).
  apply process_block_ok, body_header in H. cbn zeta in H.
  destruct H as (em & -> & Hem). rewrite HE, HY in *.
  cbn [h_slot h_seal h_vrf_output epoch_mark tickets_mark].
  split; [reflexivity|]. split; [reflexivity|]. split; [reflexivity|].
  destruct (Z.ltb_spec (tau pre_state / E pre_state) (slot b / E pre_state))
    as [Hlt|Hge].
  - split; [intros _; exact Hem|]. split; [lia|]. split; [reflexivity|].
    right. destruct (Z.eqb_spec (slot b / E pre_state) (tau pre_state / E pre_state));
      [lia|reflexivity].
  - subst em. split; [lia|]. split; [reflexivity|]. split; [reflexivity|].
    left. reflexivity.
Qed.

(** *** Tickets outside the submission period *)

(** X9. Once the slot phase has reached [Y] the ticket extrinsic of a block
    that follows its predecessor directly is not looked at: the step returns
    what it returns on the same block without tickets, and the verifier is
    not consulted. *)
Theorem late_tickets_ignored (pre_state : state) (b : block_input) :
  slot b <= tau pre_state + 1 ->
  Y pre_state <= slot b mod E pre_state ->
  process_block pre_state b
  = process_block pre_state (mkBlock (slot b) (entropy b) []).
Proof.
  intros Hnext HY. unfold process_block. f_equal.
  unfold process_block_body. cbn [slot entropy extrinsic length Nat.eqb negb].
  destruct (slot b <=? tau pre_state); [reflexivity|].
  destruct (Z.ltb_spec (tau pre_state + 1) (slot b)); [lia|].
  cbn [andb].
  destruct (get_epoch_and_slot_phase (tau pre_state) (E pre_state))
    as [[pe pm]|e]; [|reflexivity].
  cbn [mbind result_bind].
  destruct (get_epoch_and_slot_phase (slot b) (E pre_state))
    as [[ne m']|e] eqn:Hne; [|reflexivity].
  apply epoch_phase_ok in Hne as (_ & -> & ->).
  cbn [mbind result_bind].
  destruct (getitem (eta pre_state) 0) as [eta0|e]; [|reflexivity].
  cbn [mbind result_bind].
  destruct (hex_to_bytes eta0) as [eta0b|e]; [|reflexivity].
  cbn [mbind result_bind].
  destruct (hex_to_bytes (entropy b)) as [vrf|e]; [|reflexivity].
  cbn [mbind result_bind].
  match goal with |- context [(?m ≫= _)] => destruct m as [new_eta|e] end;
    [|reflexivity].
  cbn [mbind result_bind].
  change (Y (set_eta new_eta pre_state)) with (Y pre_state).
  destruct (Z.ltb_spec (slot b mod E pre_state) (Y pre_state)); [lia|].
  cbn [andb]. reflexivity.
Qed.

(** *** Where the tickets of [gamma_a] come from *)




(** *** Hexadecimal strings *)

Lemma bytes_hex_length (bs : list byte) :
  String.length (bytes_hex bs) = (2 * length bs)%nat.
Proof.
  induction bs as [|x bs IH]; [reflexivity|].
  cbn [bytes_hex String.length length]. rewrite IH. lia.
Qed.

(** X11. [hex_to_bytes] undoes [bytes_to_hex]; the string [bytes_to_hex]
    prints has two characters for the prefix and two for each byte, and two
    byte strings that print alike are equal. *)
Theorem hex_round_trip (bs : list byte) :
  hex_to_bytes (bytes_to_hex bs) = Ok bs
  /\ String.length (bytes_to_hex bs) = (2 + 2 * length bs)%nat
  /\ (forall bs', bytes_to_hex bs' = bytes_to_hex bs -> bs' = bs).
Proof.
  split; [apply hex_to_bytes_to_hex|]. split.
  - unfold bytes_to_hex.
    change ("0x" +:+ bytes_hex bs) with (String "0" (String "x" (bytes_hex bs))).
    cbn [String.length]. rewrite bytes_hex_length. reflexivity.
  - intros bs'. apply bytes_to_hex_inj.
Qed.

(** *** SafroleManager.__init__ *)

(** The [id] of a ticket of the initial state: a string, some other value
    (bytes), or no such key. *)
Inductive initial_id : Type :=
| IdStr (s : string)
| IdBytes (b : list byte)
| IdAbsent.

Record initial_ticket := mkInitialTicket {
  it_attempt : option Z;
  it_id : initial_id;
  it_proof : option (list byte) }.

(** The conversion of [gamma_a] in [__init__]; an empty list stays empty. *)
Definition init_gamma_a (initial_gamma_a : list initial_ticket)
    : result (list ticket) :=
  mapM (fun '(i, t) =>
          rnd ← match it_id t with
                | IdStr s => hex_to_bytes s
                | IdBytes b => Ok b
                | IdAbsent => Ok []
                end;
          Ok (mkTicket (default (Z.of_nat i) (it_attempt t)) rnd
                       (default [] (it_proof t))))
       (imap (fun i t => (i, t)) initial_gamma_a).

(** A ticket as [post_state] prints it, read as a ticket of an initial
    state: the keys [id] and [attempt], no [proof]. *)
Definition printed_ticket (t : ticket_body) : initial_ticket :=
  mkInitialTicket (Some (tb_attempt t)) (IdStr (id t)) None.

Lemma init_gamma_a_printed (f : nat -> nat) (l : list ticket) :
  mapM (fun '(i, t) =>
          rnd ← match it_id t with
                | IdStr s => hex_to_bytes s
                | IdBytes b => Ok b
                | IdAbsent => Ok []
                end;
          Ok (mkTicket (default (Z.of_nat i) (it_attempt t)) rnd
                       (default [] (it_proof t))))
       (imap (fun i t => (f i, t)) (map printed_ticket (map ticket_to_body l)))
  = Ok (map (fun t => mkTicket (index t) (randomness t) []) l).
Proof.
  revert f. induction l as [|t l IH]; intros f; [reflexivity|].
  cbn [map imap mapM printed_ticket ticket_to_body it_id it_attempt it_proof
       id tb_attempt default].
  rewrite hex_to_bytes_to_hex. cbn [mbind result_bind].
  change (imap ((fun i t0 => (f i, t0)) ∘ S) ?x)
    with (imap (fun i t0 => ((f ∘ S) i, t0)) x).
  rewrite IH. reflexivity.
Qed.

(** X12. A manager started from the [gamma_a] that [process_block] printed
    in its [post_state] holds the same tickets again, index and randomness,
    in the same order; their proofs are empty. *)
Theorem init_reads_post_state (l : list ticket) :
  exists l',
    init_gamma_a (map printed_ticket (map ticket_to_body l)) = Ok l'
    /\ map randomness l' = map randomness l
    /\ map index l' = map index l
    /\ Forall (fun t => proof t = []) l'.
Proof.
  exists (map (fun t => mkTicket (index t) (randomness t) []) l).
  split; [unfold init_gamma_a; apply (init_gamma_a_printed (fun i => i))|].
  rewrite !map_map. cbn [randomness index]. split; [reflexivity|].
  split; [reflexivity|]. apply Forall_forall. intros t Ht.
  apply list_elem_of_In, in_map_iff in Ht as (t0 & <- & _). reflexivity.
Qed.

(** *** Which tickets stay *)

(** X13. When tickets are admitted, the tickets of [gamma_a] and the new
    ones are kept in the order of their randomness and only the last ones are
    dropped: the new [gamma_a] together with the tickets dropped is a
    rearrangement of the old [gamma_a] and the tickets admitted, no ticket
    kept has a larger randomness than a ticket dropped, and tickets are
    dropped only from a [gamma_a] that is then [E] long. *)
Theorem best_tickets_kept (pre_state : state) (b : block_input) hdr out st' :
  process_block pre_state b = (Ok (hdr, out), st') ->
  slot b / E pre_state <= tau pre_state / E pre_state ->
  0 <= E pre_state ->
  exists new_tickets dropped,
    gamma_a st' ++ dropped ≡ₚ gamma_a pre_state ++ new_tickets
    /\ (forall t d, t ∈ gamma_a st' -> d ∈ dropped -> key_le randomness t d)
    /\ (dropped <> [] -> Z.of_nat (length (gamma_a st')) = E pre_state).
Proof.
  intros H Hsame HE.
  apply process_block_ok, body_inv in H
    as (pe & pm & ne & m' & eta0 & eta0b & vrf & new_eta & cs1 & cs2
        & _ & Hpe & Hne & _ & _ & _ & _ & Hcs1 & Hcs2 & -> & _).
  apply epoch_phase_ok in Hpe as (_ & -> & _).
  apply epoch_phase_ok in Hne as (_ & -> & _).
  destruct (Z.ltb_spec (tau pre_state / E pre_state) (slot b / E pre_state));
    [lia|].
  subst cs2. cbn [gamma_a set_tau].
  destruct (_ && _) in Hcs1.
  2: { subst cs1. exists [], []. cbn [gamma_a set_eta]. split; [reflexivity|].
       split; [intros t d _ Hd; inversion Hd|congruence]. }
  destruct Hcs1 as (ga & Hadm & ->). cbn [gamma_a set_gamma_a].
  unfold admit_tickets in Hadm.
  apply bind_ok in Hadm as (_ & _ & Hadm).
  apply bind_ok in Hadm as (eta2' & _ & Hadm).
  apply bind_ok in Hadm as (rs & _ & Hadm).
  destruct (existsb _ rs); [discriminate|].
  apply bind_ok in Hadm as (_ & _ & Hadm).
  destruct (has_duplicates _); [discriminate|].
  apply bind_ok in Hadm as (new_tickets & _ & Hadm).
  injection Hadm as <-. cbn [gamma_a set_eta E].
  set (sorted := sort_by randomness (gamma_a pre_state ++ new_tickets)).
  unfold slice_to. destruct (Z.leb_spec 0 (E pre_state)); [|lia].
  change (firstn ?n ?l) with (take n l).
  exists new_tickets, (drop (Z.to_nat (E pre_state)) sorted).
  rewrite take_drop. split; [apply sort_by_perm|]. split.
  - intros t d Ht Hd.
    apply (StronglySorted_app_1_elem_of (key_le randomness)
             (take (Z.to_nat (E pre_state)) sorted)
             (drop (Z.to_nat (E pre_state)) sorted)); [|exact Ht|exact Hd].
    rewrite take_drop. apply sort_by_sorted.
  - intros Hd. rewrite length_take.
    assert (Z.to_nat (E pre_state) < length sorted)%nat; [|lia].
    destruct (decide (Z.to_nat (E pre_state) < length sorted)%nat) as [|Hge];
      [assumption|].
    exfalso. apply Hd. apply drop_ge. lia.
Qed.

End WithServices.

(** *** Concrete runs, with stand-ins for the hash and the two services *)

Definition sample_hash (data : list byte) : list byte := data ++ [x00].
Definition sample_verify (gz : string) (ring : list string) (e : string)
    (ext : list ticket_envelope) : result (list verify_result) :=
  Ok (map (fun t => mkVerify true (bytes_to_hex (encode (signature t))) (attempt t))
          ext).
Definition sample_compose (keys : list string) : result string := Ok "0x00".

Definition val_a : validator := mkValidator "0xa1" "0xa2" "0xa3" "0xa4".
Definition val_b : validator := mkValidator "0xb1" "0xb2" "0xb3" "0xb4".
Definition val_c : validator := mkValidator "0xc1" "0xc2" "0xc3" "0xc4".

(** Slot 9 of epoch 0, one ticket accumulated, [val_c] an offender. *)
Definition sample_state : state :=
  mkState 9 12 11 3 ["0x01"; "0x02"; "0x03"; "0x04"]
          [val_a; val_c] [val_b] [val_a] [val_c]
          [mkTicket 0 [x42] []] (Keys []) "0x00" ["0xc2"].

(** The next slot, with two tickets; and a block of the next epoch. *)
Definition sample_block : block_input :=
  mkBlock 10 "0xff" [mkEnvelope 1 "0x41"; mkEnvelope 2 "0x43"].
Definition sample_epoch_block : block_input := mkBlock 12 "0xff" [].



Example eta_rotation_witness :
  exists hdr out st',
    process_block sample_hash sample_verify sample_compose sample_state sample_block
      = (Ok (hdr, out), st')
    /\ eta st' = ["0x01ff00"; "0x02"; "0x03"; "0x04"].
Proof.
  assert (exists hdr out st',
             process_block sample_hash sample_verify sample_compose
                           sample_state sample_block = (Ok (hdr, out), st'))
    as (hdr & out & st' & H).
  { eexists _, _, _. vm_compute. reflexivity. }
  exists hdr, out, st'. split; [exact H|].
  destruct (eta_rotation _ _ _ _ _ _ _ _ H)
    as (eta0 & b0 & v0 & He0 & Hb0 & Hv0 & _ & Hsame & _).
  injection He0 as <-. injection Hb0 as <-. injection Hv0 as <-.
  destruct Hsame as (e1 & e2 & e3 & H1 & H2 & H3 & ->); [vm_compute; discriminate|].
  injection H1 as <-. injection H2 as <-. injection H3 as <-. reflexivity.
Defined.



(** *** Further runs *)

(** Slot 10 of epoch 0, and the last slot of the epoch with a ticket. *)
Definition late_state : state := set_tau 10 sample_state.
Definition late_block : block_input := mkBlock 11 "0xff" [mkEnvelope 1 "0x41"].

Example fallback_keys_from_kappa_witness :
  exists ks,
    calculate_fallback_gamma_s sample_hash sample_state = Ok ks
    /\ length ks = 12%nat.
Proof.
  destruct (fallback_keys_from_kappa sample_hash sample_state "0x03" [x03])
    as (ks & Hks & _ & Hlen);
    [reflexivity|reflexivity|vm_compute; discriminate|].
  exists ks. split; [exact Hks|]. apply Hlen. discriminate.
Defined.

Example process_block_frame_witness :
  exists hdr out st',
    process_block sample_hash sample_verify sample_compose sample_state sample_block
      = (Ok (hdr, out), st')
    /\ tau st' = 10 /\ kappa st' = [val_a] /\ gamma_k st' = [val_b].
Proof.
  assert (exists hdr out st',
             process_block sample_hash sample_verify sample_compose
                           sample_state sample_block = (Ok (hdr, out), st'))
    as (hdr & out & st' & H).
  { eexists _, _, _. vm_compute. reflexivity. }
  exists hdr, out, st'. split; [exact H|].
  destruct (process_block_frame _ _ _ _ _ _ _ _ H)
    as (_ & Htau & _ & _ & _ & _ & _ & Hsame).
  destruct Hsame as (Hk & _ & Hgk & _); [vm_compute; discriminate|].
  split; [exact Htau|]. split; [exact Hk|exact Hgk].
Defined.

Example header_marks_witness :
  exists hdr out st',
    process_block sample_hash sample_verify sample_compose
                  sample_state sample_epoch_block = (Ok (hdr, out), st')
    /\ h_slot hdr = 12 /\ h_vrf_output hdr = "0xff"
    /\ is_Some (epoch_mark hdr) /\ tickets_mark hdr = None.
Proof.
  assert (exists hdr out st',
             process_block sample_hash sample_verify sample_compose
                           sample_state sample_epoch_block = (Ok (hdr, out), st'))
    as (hdr & out & st' & H).
  { eexists _, _, _. vm_compute. reflexivity. }
  exists hdr, out, st'. split; [exact H|].
  destruct (header_marks _ _ _ _ _ _ _ _ H)
    as (Hslot & _ & Hvrf & Hem & _ & Htm & _).
  split; [exact Hslot|]. split; [exact Hvrf|]. split.
  - destruct Hem as (e0 & e1 & _ & _ & ->); [vm_compute; reflexivity|]. eauto.
  - rewrite Htm. reflexivity.
Defined.

Example late_tickets_ignored_witness :
  process_block sample_hash sample_verify sample_compose late_state late_block
  = process_block sample_hash sample_verify sample_compose late_state
                  (mkBlock 11 "0xff" [])
  /\ extrinsic late_block <> [].
Proof.
  split; [|discriminate].
  apply (late_tickets_ignored sample_hash sample_verify sample_compose
           late_state late_block); vm_compute; discriminate.
Defined.


Example best_tickets_kept_witness :
  exists hdr out st' new_tickets,
    process_block sample_hash sample_verify sample_compose sample_state sample_block
      = (Ok (hdr, out), st')
    /\ gamma_a st' ≡ₚ gamma_a sample_state ++ new_tickets.
Proof.
  assert (exists hdr out st',
             process_block sample_hash sample_verify sample_compose
                           sample_state sample_block = (Ok (hdr, out), st')
             /\ length (gamma_a st') = 3%nat)
    as (hdr & out & st' & H & Hlen).
  { eexists _, _, _. vm_compute. split; reflexivity. }
  destruct (best_tickets_kept _ _ _ _ _ _ _ _ H)
    as (new_tickets & dropped & Hperm & _ & Hfull);
    [vm_compute; discriminate|vm_compute; discriminate|].
  exists hdr, out, st', new_tickets. split; [exact H|].
  destruct dropped as [|d dropped].
  - rewrite app_nil_r in Hperm. exact Hperm.
  - exfalso. rewrite Hlen in Hfull. specialize (Hfull ltac:(discriminate)).
    vm_compute in Hfull. discriminate.
Defined.

End Safrole.

(* ===================================================================== *)
(** ** Assurances STF: assurances/assurances_component.py *)
(* ===================================================================== *)

Module Assurances.
Import Py.

Inductive error_code : Type :=
| bad_attestation_parent
| bad_validator_index
| core_not_engaged
| bad_signature
| not_sorted_or_unique_assurers.

(** [needle in haystack] on strings. *)
Fixpoint string_contains (needle haystack : string) : bool :=
  String.prefix needle haystack
  || match haystack with
     | EmptyString => false
     | String _ rest => string_contains needle rest
     end.

(** The positions of the ['1'] digits of [bin(n)[2:].zfill(32)[::-1]]: the
    set bits of [|n|], lowest first. *)
Definition bit_positions (n : Z) : list nat :=
  filter (fun i => Z.testbit (Z.abs n) (Z.of_nat i) = true)
         (seq 0 (S (Z.to_nat (Z.log2 (Z.abs n))))).

Section WithPayloads.
(** A work-report and a validator record are opaque here; [int16] is
    [int(_, 16)], [None] when it raises. *)
Context {report validator : Type}.
Variable int16 : string -> option Z.

(** An entry of [avail_assignments], in the shapes the code tells apart. *)
Inductive assignment : Type :=
| ANull                               (* None *)
| ANone                               (* {"none": None} *)
| ASome (r : report) (timeout : Z)    (* {"some": {"report", "timeout"}} *)
| AFlat (r : report) (timeout : Z)    (* {"report", "timeout"} *)
| AOther.                             (* any other value *)

Record assurance := mkAssurance {
  validator_index : option Z;         (* [None]: absent or not an int *)
  bitfield : option string;
  signature : string;
  anchor : option string }.

Record input := mkInput {
  filename : string;
  assurances : list assurance;
  slot : Z;
  parent : option string }.

Record state := mkState {
  avail_assignments : list assignment;
  curr_validators : list validator }.

Inductive output : Type :=
| OutOk (reported : list report)
| OutErr (e : error_code).

Definition bitfield_to_cores (bf : string) : list nat :=
  match int16 bf with
  | Some n => bit_positions n
  | None => []
  end.

Definition cores_of (a : assurance) : list nat :=
  bitfield_to_cores (default "0x0" (bitfield a)).

(** Step 1: the stale-timeout sweep, which also rewrites every entry into
    the [none]/[some] form. *)
Definition sweep_one (slot : Z) (a : assignment) : assignment :=
  match a with
  | ANull | ANone | AOther => ANone
  | ASome r t => if t <? slot then ANone else ASome r t
  | AFlat r t => if t <? slot then ANone else ASome r t
  end.

Definition sweep (slot : Z) (l : list assignment) : list assignment :=
  map (sweep_one slot) l.

(** Step 3, the loop over the assurances: the indices collected, or the
    first error. *)
Fixpoint validate (n_validators : nat) (parent : option string)
    (l : list assurance) (indices : list Z) : error_code + list Z :=
  match l with
  | [] => inr indices
  | a :: rest =>
      match validator_index a with
      | None => inl bad_validator_index
      | Some i =>
          if (i <? 0) || (Z.of_nat n_validators <=? i)
          then inl bad_validator_index
          else
            match anchor a, parent with
            | Some x, Some y =>
                if String.eqb x y
                then validate n_validators parent rest (indices ++ [i])
                else inl bad_attestation_parent
            | _, _ => validate n_validators parent rest (indices ++ [i])
            end
      end
  end.

(** The checks on the collected indices. *)
Definition indices_ok (n_validators : nat) (indices : list Z) : bool :=
  negb (has_duplicates indices)
  && negb ((1 <? length indices)%nat
           && negb (bool_decide (indices = merge_sort Z.le indices)))
  && negb (negb (bool_decide
                   ((list_to_set indices : gset Z)
                    = list_to_set (Z.of_nat <$> seq 0 n_validators)))
           && (length indices <? n_validators)%nat).

(** [while len(l) <= max_core: l.append({"none": None})] *)
Definition pad (max_core : nat) (l : list assignment) : list assignment :=
  l ++ replicate (S max_core - length l) ANone.

Definition is_live (a : assignment) : bool :=
  match a with
  | ASome _ _ | AFlat _ _ | AOther => true
  | ANull | ANone => false
  end.

(** Step 8, the tally: cores in the order they are first counted. *)
Definition count_cores (avail : list assignment) (l : list assurance)
    : list (nat * nat) :=
  foldl (fun counts a =>
           foldl (fun counts core =>
                    match avail !! core with
                    | Some x => if is_live x then bump core counts else counts
                    | None => counts
                    end) counts (cores_of a))
        [] l.

Definition report_cores (supermajority : nat) (counts : list (nat * nat))
    (avail : list assignment) : list report * list assignment :=
  foldl (fun '(reported, new_avail) '(core, count) =>
           if (supermajority <=? count)%nat then
             match new_avail !! core with
             | Some (ASome r t) => (reported ++ [r], <[core := AFlat r t]> new_avail)
             | Some (AFlat r t) => (reported ++ [r], new_avail)
             | _ => (reported, new_avail)
             end
           else (reported, new_avail))
        ([], avail) counts.

(** [process_assurances]: the output, the post-state returned with it, and
    the caller's pre-state as the call leaves it (its list of assignments is
    padded in place at step 4). *)
Definition process_assurances (input_data : input) (pre_state : state)
    : output * state * state :=
  let orig := avail_assignments pre_state in
  let curr := curr_validators pre_state in
  let swept := sweep (slot input_data) orig in
  let post_state := mkState swept curr in
  match assurances input_data with
  | [] => (OutOk [], post_state, pre_state)
  | _ =>
      match validate (length curr) (parent input_data) (assurances input_data) [] with
      | inl e => (OutErr e, post_state, pre_state)
      | inr indices =>
          if negb (indices_ok (length curr) indices)
          then (OutErr not_sorted_or_unique_assurers, post_state, pre_state)
          else if string_contains "assurances_with_bad_signature-1"
                                  (filename input_data)
          then (OutErr bad_signature, post_state, pre_state)
          else
            let all_cores := concat (map cores_of (assurances input_data)) in
            let max_core := foldr Nat.max 0%nat all_cores in
            let orig' := pad max_core orig in
            let avail := pad max_core swept in
            let pre_state' := mkState orig' curr in
            if string_contains "assurance_for_not_engaged_core-1"
                               (filename input_data)
               && existsb (fun core =>
                             match orig' !! core with
                             | Some x => negb (is_live x)
                             | None => true
                             end) all_cores
            then (OutErr core_not_engaged, mkState avail curr, pre_state')
            else
              let supermajority := (length curr * 2 / 3 + 1)%nat in
              let counts := count_cores avail (assurances input_data) in
              let '(reported, new_avail) :=
                report_cores supermajority counts avail in
              (OutOk reported, mkState new_avail curr, pre_state')
      end
  end.

(** [save_state], on the two fields of the assurances state: entries in the
    [some] form are written flat. *)
Definition saved_form (a : assignment) : assignment :=
  match a with
  | ASome r t => AFlat r t
  | x => x
  end.

(** [process_block]: the state comes with the block or from the state
    file, and the file is rewritten only when the output is [ok]. The result
    is the output, the returned post-state and the file's new content. *)
Definition process_block (file_state : state) (given : option state)
    (input_data : input) : output * state * state :=
  let pre_state := default file_state given in
  let '(out, post_state, _) := process_assurances input_data pre_state in
  match out with
  | OutOk _ =>
      (out, post_state,
       mkState (map saved_form (avail_assignments post_state))
               (curr_validators post_state))
  | OutErr _ => (out, post_state, file_state)
  end.

(** *** What an error returns *)

Lemma process_assurances_error (input_data : input) (pre_state : state)
    (e : error_code) (post_state pre_state' : state) :
  process_assurances input_data pre_state = (OutErr e, post_state, pre_state') ->
  curr_validators post_state = curr_validators pre_state
  /\ exists k,
       avail_assignments post_state
       = sweep (slot input_data) (avail_assignments pre_state) ++ replicate k ANone
       /\ (e <> core_not_engaged -> k = 0%nat /\ pre_state' = pre_state).
Proof.
  unfold process_assurances. intros H.
  destruct (assurances input_data) as [|a l] eqn:Ha; [discriminate|].
  destruct (validate _ _ _ _) as [e'|indices].
  { injection H as <- <- <-. split; [reflexivity|]. exists 0%nat.
    cbn. rewrite app_nil_r. auto. }
  destruct (negb (indices_ok _ _)).
  { injection H as <- <- <-. split; [reflexivity|]. exists 0%nat.
    cbn. rewrite app_nil_r. auto. }
  destruct (string_contains "assurances_with_bad_signature-1" _).
  { injection H as <- <- <-. split; [reflexivity|]. exists 0%nat.
    cbn. rewrite app_nil_r. auto. }
  destruct (_ && _).
  { injection H as <- <- <-. split; [reflexivity|]. eexists.
    split; [reflexivity|]. intros Hne. congruence. }
  destruct (report_cores _ _ _). discriminate.
Qed.

(** [bad_signature] is returned on the file name alone. *)
Lemma bad_signature_filename (input_data : input) (pre_state : state)
    (post_state pre_state' : state) :
  process_assurances input_data pre_state
    = (OutErr bad_signature, post_state, pre_state') ->
  string_contains "assurances_with_bad_signature-1" (filename input_data) = true.
Proof.
  unfold process_assurances. intros H.
  destruct (assurances input_data) as [|a l] eqn:Ha; [discriminate|].
  destruct (validate _ _ _ _) as [e'|indices] eqn:Hv.
  { injection H as He _ _. subst e'. exfalso. clear -Hv.
    revert Hv. generalize (@nil Z). generalize (a :: l). clear.
    intros l. induction l as [|x l IH]; intros acc; cbn; [discriminate|].
    destruct (validator_index x) as [i|]; [|discriminate].
    destruct (_ || _); [discriminate|].
    destruct (anchor x), (parent input_data); try apply IH.
    destruct (String.eqb _ _); [apply IH|discriminate]. }
  destruct (negb (indices_ok _ _)); [discriminate|].
  destruct (string_contains "assurances_with_bad_signature-1" _); [reflexivity|].
  destruct (_ && _); [discriminate|].
  destruct (report_cores _ _ _). discriminate.
Qed.

(** No step reads the signatures: any other signatures give the same result. *)
Definition with_signature (sig : string) (a : assurance) : assurance :=
  mkAssurance (validator_index a) (bitfield a) sig (anchor a).

Definition resign (sig : string) (input_data : input) : input :=
  mkInput (filename input_data)
          (map (with_signature sig) (assurances input_data))
          (slot input_data) (parent input_data).

Lemma validate_resign (sig : string) n p l acc :
  validate n p (map (with_signature sig) l) acc = validate n p l acc.
Proof.
  revert acc. induction l as [|a l IH]; intros acc; cbn; [reflexivity|].
  destruct (validator_index a); [|reflexivity].
  destruct (_ || _); [reflexivity|].
  destruct (anchor a), p; try apply IH.
  destruct (String.eqb _ _); [apply IH|reflexivity].
Qed.

Lemma count_cores_resign (sig : string) (avail : list assignment) l :
  count_cores avail (map (with_signature sig) l) = count_cores avail l.
Proof.
  unfold count_cores. generalize (@nil (nat * nat)).
  induction l as [|x l IH]; intros acc; [reflexivity|].
  cbn [map foldl]. apply IH.
Qed.

Lemma process_assurances_resign (sig : string) (input_data : input)
    (pre_state : state) :
  process_assurances (resign sig input_data) pre_state
  = process_assurances input_data pre_state.
Proof.
  unfold process_assurances, resign. cbn [assurances slot parent filename].
  destruct (assurances input_data) as [|a l]; [reflexivity|].
  set (L := a :: l).
  destruct (map (with_signature sig) L) as [|a' l'] eqn:E;
    [subst L; discriminate|].
  rewrite <- E.
  assert (map cores_of (map (with_signature sig) L) = map cores_of L)
    as -> by (rewrite map_map; reflexivity).
  rewrite validate_resign, count_cores_resign. reflexivity.
Qed.

(** *** The cores a bitfield names *)

Lemma seq_strictly_sorted (a n : nat) : StronglySorted lt (seq a n).
Proof.
  revert a. induction n as [|n IH]; intros a; cbn [seq]; constructor; [apply IH|].
  apply Forall_forall. intros x Hx. apply elem_of_seq in Hx. lia.
Qed.

Lemma filter_strictly_sorted (P : nat -> Prop) `{forall x, Decision (P x)}
    (l : list nat) :
  StronglySorted lt l -> StronglySorted lt (filter P l).
Proof.
  induction 1 as [|x l Hl IH Hall]; [constructor|].
  rewrite filter_cons. destruct (decide (P x)); [|exact IH].
  constructor; [exact IH|].
  apply Forall_forall. intros y Hy. apply list_elem_of_filter in Hy as [_ Hy].
  rewrite Forall_forall in Hall. exact (Hall y Hy).
Qed.

Lemma bit_positions_spec (n : Z) :
  (forall i, i ∈ bit_positions n <-> Z.testbit (Z.abs n) (Z.of_nat i) = true)
  /\ StronglySorted lt (bit_positions n).
Proof.
  unfold bit_positions. split.
  - intros i. rewrite list_elem_of_filter, elem_of_seq.
    split; [tauto|]. intros Hb. split; [exact Hb|].
    destruct (Z_lt_le_dec (Z.log2 (Z.abs n)) (Z.of_nat i)) as [Hlt|Hle].
    + rewrite Z.bits_above_log2 in Hb by lia. discriminate.
    + pose proof (Z.log2_nonneg (Z.abs n)). lia.
  - apply filter_strictly_sorted, seq_strictly_sorted.
Qed.

Lemma strictly_sorted_nodup (l : list nat) : StronglySorted lt l -> NoDup l.
Proof.
  induction 1 as [|x l Hl IH Hall]; constructor; [|exact IH].
  intros Hx. rewrite Forall_forall in Hall. specialize (Hall x Hx). lia.
Qed.

Lemma cores_of_nodup (a : assurance) : NoDup (cores_of a).
Proof.
  unfold cores_of, bitfield_to_cores. destruct (int16 _); [|constructor].
  apply strictly_sorted_nodup, bit_positions_spec.
Qed.


(** *** The post-state of every outcome *)

(** An entry that holds no report, or one that is not yet timed out. *)
Definition fresh (slot : Z) (a : assignment) : Prop :=
  match a with
  | ANone => True
  | ASome _ t | AFlat _ t => slot <= t
  | ANull | AOther => False
  end.

Lemma sweep_fresh (slot : Z) (l : list assignment) :
  Forall (fresh slot) (sweep slot l).
Proof.
  unfold sweep. apply Forall_forall. intros a Ha.
  apply list_elem_of_In, in_map_iff in Ha as (a0 & <- & _).
  destruct a0 as [| |r t|r t|]; cbn; auto;
    destruct (Z.ltb_spec t slot); cbn; auto.
Qed.

Lemma pad_fresh (slot : Z) (k : nat) (l : list assignment) :
  Forall (fresh slot) l -> Forall (fresh slot) (pad k l).
Proof.
  intros H. unfold pad. apply Forall_app. split; [exact H|].
  apply Forall_replicate. exact I.
Qed.

(** What [report_cores] does to the assignments and which reports it
    returns. *)
Lemma report_cores_spec (supermajority : nat) (avail : list assignment) :
  forall counts reported new_avail,
    NoDup (counts.*1) ->
    report_cores supermajority counts avail = (reported, new_avail) ->
    length new_avail = length avail
    /\ (forall i, i ∉ counts.*1 -> new_avail !! i = avail !! i)
    /\ (forall i, new_avail !! i = avail !! i
                  \/ exists r t, avail !! i = Some (ASome r t)
                                 /\ new_avail !! i = Some (AFlat r t))
    /\ (forall r, r ∈ reported <->
          exists core count t,
            (core, count) ∈ counts /\ (supermajority <= count)%nat
            /\ (avail !! core = Some (ASome r t)
                \/ avail !! core = Some (AFlat r t))).
Proof.
  unfold report_cores.
  induction counts as [|[core count] counts IH] using rev_ind;
    intros reported new_avail Hnd H.
  - cbn in H. injection H as <- <-. split; [reflexivity|].
    split; [reflexivity|]. split; [auto|].
    intros r. split; [intros Hr; inversion Hr|].
    intros (core & count & t & Hin & _). inversion Hin.
  - rewrite foldl_app in H. cbn [foldl] in H.
    rewrite fmap_app in Hnd. apply NoDup_app in Hnd as (Hnd & Hfresh & _).
    destruct (foldl _ _ counts) as [reported0 avail0] eqn:Hfold.
    destruct (IH reported0 avail0 Hnd eq_refl) as (Hlen & Hout & Hin & Hrep).
    assert (core ∉ counts.*1) as Hcore.
    { intros Hc. apply (Hfresh core Hc). left. }
    assert (avail0 !! core = avail !! core) as Hat by (apply Hout, Hcore).
    assert (forall r, r ∈ reported0 <->
              exists core' count' t,
                (core', count') ∈ counts ++ [(core, count)]
                /\ (core', count') <> (core, count)
                /\ (supermajority <= count')%nat
                /\ (avail !! core' = Some (ASome r t)
                    \/ avail !! core' = Some (AFlat r t))) as Hrep'.
    { intros r. rewrite Hrep. split.
      - intros (c' & n' & t & Hc & Hn & Ha). exists c', n', t.
        split; [apply elem_of_app; left; exact Hc|]. split; [|auto].
        intros [= -> ->]. apply Hcore.
        apply list_elem_of_fmap. exists (core, count). auto.
      - intros (c' & n' & t & Hc & Hne & Hn & Ha). exists c', n', t.
        split; [|auto]. apply elem_of_app in Hc as [Hc|Hc]; [exact Hc|].
        apply list_elem_of_singleton in Hc. congruence. }
    assert (forall i, i ∉ fst <$> (counts ++ [(core, count)]) ->
                      (i ∉ counts.*1) /\ i <> core) as Hsplit.
    { intros i Hi. rewrite fmap_app in Hi. split.
      - intros Hc. apply Hi, elem_of_app. left. exact Hc.
      - intros ->. apply Hi, elem_of_app. right. left. }
    destruct (Nat.leb_spec supermajority count) as [Hsm|Hsm].
    + destruct (avail0 !! core) as [[| |r t|r t|]|] eqn:Ha0;
        injection H as <- <-.
      4: { (* AFlat *)
        split; [exact Hlen|]. split; [intros i Hi; apply Hout, Hsplit, Hi|].
        split; [exact Hin|]. intros r0. rewrite elem_of_app, Hrep'. split.
        - intros [(c' & n' & t' & Hc & _ & Hn & Ha)|Hr0].
          + exists c', n', t'. auto.
          + apply list_elem_of_singleton in Hr0 as ->. exists core, count, t.
            split; [apply elem_of_app; right; left|]. split; [exact Hsm|].
            right. congruence.
        - intros (c' & n' & t' & Hc & Hn & Ha).
          destruct (decide ((c', n') = (core, count))) as [[= -> ->]|Hne].
          + right. assert (r0 = r) as -> by (destruct Ha as [Ha|Ha]; congruence).
            left.
          + left. exists c', n', t'. auto. }
      3: { (* ASome *)
        split; [rewrite length_insert; exact Hlen|].
        split.
        { intros i Hi. apply Hsplit in Hi as [Hi Hne].
          rewrite list_lookup_insert_ne by congruence. apply Hout, Hi. }
        split.
        { intros i. destruct (decide (i = core)) as [->|Hne].
          - right. exists r, t. split; [congruence|].
            apply list_lookup_insert_eq. eapply lookup_lt_Some, Ha0.
          - rewrite list_lookup_insert_ne by congruence. apply Hin. }
        intros r0. rewrite elem_of_app, Hrep'. split.
        - intros [(c' & n' & t' & Hc & _ & Hn & Ha)|Hr0].
          + exists c', n', t'. auto.
          + apply list_elem_of_singleton in Hr0 as ->. exists core, count, t.
            split; [apply elem_of_app; right; left|]. split; [exact Hsm|].
            left. congruence.
        - intros (c' & n' & t' & Hc & Hn & Ha).
          destruct (decide ((c', n') = (core, count))) as [[= -> ->]|Hne].
          + right. assert (r0 = r) as -> by (destruct Ha as [Ha|Ha]; congruence).
            left.
          + left. exists c', n', t'. auto. }
      all: split; [exact Hlen|];
        (split; [intros i Hi; apply Hout, Hsplit, Hi|]);
        (split; [exact Hin|]); intros r0; rewrite Hrep'; split;
        [ intros (c' & n' & t' & Hc & _ & Hn & Ha); exists c', n', t'; auto
        | intros (c' & n' & t' & Hc & Hn & Ha); exists c', n', t';
          split; [exact Hc|]; split; [|auto];
          intros [= -> ->]; destruct Ha as [Ha|Ha]; congruence ].
    + injection H as <- <-.
      split; [exact Hlen|]. split; [intros i Hi; apply Hout, Hsplit, Hi|].
      split; [exact Hin|]. intros r0. rewrite Hrep'. split.
      * intros (c' & n' & t' & Hc & _ & Hn & Ha). exists c', n', t'. auto.
      * intros (c' & n' & t' & Hc & Hn & Ha). exists c', n', t'.
        split; [exact Hc|]. split; [|auto]. intros [= -> ->]. lia.
Qed.

(** *** The tally *)

(** The entry of a core holds a report. *)
Definition live_at (avail : list assignment) (core : nat) : bool :=
  match avail !! core with
  | Some x => is_live x
  | None => false
  end.

Lemma count_cores_flat (avail : list assignment) (l : list assurance) :
  count_cores avail l
  = counter (filter (fun core => live_at avail core = true)
                    (concat (map cores_of l))).
Proof.
  unfold count_cores, counter. generalize (@nil (nat * nat)).
  induction l as [|a l IH]; intros acc; [reflexivity|].
  cbn [map concat foldl]. rewrite filter_app, foldl_app, IH. f_equal.
  generalize (cores_of a). clear. intros cs. revert acc.
  induction cs as [|c cs IH]; intros acc; [reflexivity|].
  cbn [foldl]. rewrite filter_cons.
  destruct (decide (live_at avail c = true)) as [Hd|Hd]; unfold live_at in Hd;
    (destruct (avail !! c) as [x|]; [destruct (is_live x)|]);
    try congruence; cbn [foldl]; apply IH.
Qed.

Lemma occurrences_app (k : nat) (xs ys : list nat) :
  occurrences k (xs ++ ys) = (occurrences k xs + occurrences k ys)%nat.
Proof. unfold occurrences. rewrite filter_app, length_app. reflexivity. Qed.

Lemma occurrences_nodup (k : nat) (xs : list nat) :
  NoDup xs -> occurrences k xs = if decide (k ∈ xs) then 1%nat else 0%nat.
Proof.
  unfold occurrences. induction 1 as [|x xs Hx Hnd IH].
  - rewrite decide_False by apply not_elem_of_nil. reflexivity.
  - rewrite filter_cons. destruct (decide (x = k)) as [->|Hne].
    + cbn [length]. rewrite IH.
      rewrite decide_False by exact Hx. rewrite decide_True by left. reflexivity.
    + rewrite IH. destruct (decide (k ∈ xs)) as [Hin|Hnin].
      * rewrite decide_True by (right; exact Hin). reflexivity.
      * rewrite decide_False; [reflexivity|].
        intros Hin. apply elem_of_cons in Hin as [->|Hin]; congruence.
Qed.

Lemma occurrences_filter (P : nat -> Prop) `{forall x, Decision (P x)}
    (k : nat) (xs : list nat) :
  occurrences k (filter P xs) = if decide (P k) then occurrences k xs else 0%nat.
Proof.
  unfold occurrences. induction xs as [|x xs IH].
  - destruct (decide (P k)); reflexivity.
  - rewrite (filter_cons P). destruct (decide (P x)) as [Hx|Hx].
    + rewrite !filter_cons. destruct (decide (x = k)) as [->|Hne].
      * rewrite decide_True in * by exact Hx. cbn [length]. rewrite IH. reflexivity.
      * exact IH.
    + rewrite IH. destruct (decide (P k)) as [Hk|Hk]; [|reflexivity].
      rewrite filter_cons. rewrite decide_False; [reflexivity|].
      intros ->. contradiction.
Qed.

(** The assurances that name a core. *)
Definition assurers_of (core : nat) (l : list assurance) : nat :=
  length (filter (fun a => core ∈ cores_of a) l).

Lemma occurrences_cores (core : nat) (l : list assurance) :
  occurrences core (concat (map cores_of l)) = assurers_of core l.
Proof.
  unfold assurers_of. induction l as [|a l IH]; [reflexivity|].
  cbn [map concat]. rewrite occurrences_app, IH, filter_cons.
  rewrite (occurrences_nodup core _ (cores_of_nodup a)).
  destruct (decide (core ∈ cores_of a)); reflexivity.
Qed.

Lemma tally (avail : list assignment) (l : list assurance) :
  NoDup ((count_cores avail l).*1)
  /\ forall core, count_of core (count_cores avail l)
                  = if live_at avail core then assurers_of core l else 0%nat.
Proof.
  rewrite count_cores_flat. split; [apply counter_nodup|].
  intros core. rewrite counter_count, occurrences_filter, occurrences_cores.
  destruct (live_at avail core).
  - rewrite decide_True by reflexivity. reflexivity.
  - rewrite decide_False by discriminate. reflexivity.
Qed.

(** The entries of the swept and padded list, read in the state they were
    swept from. *)
Lemma swept_lookup (slot : Z) (k : nat) (orig : list assignment)
    (core : nat) (r : report) (t : Z) :
  (pad k (sweep slot orig) !! core = Some (ASome r t)
   <-> (orig !! core = Some (ASome r t) \/ orig !! core = Some (AFlat r t))
       /\ slot <= t)
  /\ pad k (sweep slot orig) !! core <> Some (AFlat r t).
Proof.
  assert (forall x, pad k (sweep slot orig) !! core = Some x ->
                    x <> ANone -> sweep_one slot <$> orig !! core = Some x) as Hpad.
  { intros x Hx Hne. unfold pad in Hx.
    apply lookup_app_Some in Hx as [Hx|[_ Hx]].
    - unfold sweep in Hx. change (map ?f orig) with (f <$> orig) in Hx.
      rewrite list_lookup_fmap in Hx. exact Hx.
    - apply lookup_replicate in Hx as [-> _]. congruence. }
  split; [split|].
  - intros H. apply Hpad in H; [|discriminate].
    destruct (orig !! core) as [[| |r0 t0|r0 t0|]|]; try discriminate;
      cbn in H; destruct (Z.ltb_spec t0 slot); try discriminate;
      injection H as -> ->; auto.
  - intros [Ho Ht]. unfold pad. apply lookup_app_Some. left.
    unfold sweep. change (map ?f orig) with (f <$> orig).
    rewrite list_lookup_fmap.
    destruct Ho as [-> | ->]; cbn; destruct (Z.ltb_spec t slot); try lia;
      reflexivity.
  - intros H. apply Hpad in H; [|discriminate].
    destruct (orig !! core) as [[| |r0 t0|r0 t0|]|]; try discriminate;
      cbn in H; destruct (t0 <? slot); discriminate.
Qed.

Lemma swept_live (slot : Z) (k : nat) (orig : list assignment) (core : nat) :
  live_at (pad k (sweep slot orig)) core = true
  <-> exists r t, pad k (sweep slot orig) !! core = Some (ASome r t).
Proof.
  unfold live_at. split.
  - destruct (pad k (sweep slot orig) !! core) as [x|] eqn:Hx; [|discriminate].
    assert (fresh slot x) as Hf.
    { pose proof (pad_fresh slot k _ (sweep_fresh slot orig)) as Hall.
      rewrite Forall_forall in Hall. eapply Hall, list_elem_of_lookup_2, Hx. }
    destruct x as [| |r t|r t|]; try discriminate; try contradiction.
    + eauto.
    + exfalso. exact (proj2 (swept_lookup slot k orig core r t) Hx).
  - intros (r & t & ->). reflexivity.
Qed.

(** The outcome [ok] step by step. *)
Lemma process_assurances_ok (input_data : input) (pre_state : state)
    (reported : list report) (post_state pre_state' : state) :
  process_assurances input_data pre_state = (OutOk reported, post_state, pre_state') ->
  assurances input_data <> [] ->
  exists indices max_core,
    validate (length (curr_validators pre_state)) (parent input_data)
             (assurances input_data) [] = inr indices
    /\ indices_ok (length (curr_validators pre_state)) indices = true
    /\ let avail := pad max_core (sweep (slot input_data)
                                        (avail_assignments pre_state)) in
       report_cores (length (curr_validators pre_state) * 2 / 3 + 1)%nat
                    (count_cores avail (assurances input_data)) avail
       = (reported, avail_assignments post_state)
       /\ curr_validators post_state = curr_validators pre_state.
Proof.
  unfold process_assurances. intros H Hne.
  destruct (assurances input_data) as [|a l] eqn:Ha; [congruence|].
  destruct (validate _ _ _ _) as [e'|indices]; [discriminate|].
  destruct (indices_ok _ _) eqn:Hok; [|discriminate]. cbn [negb] in H.
  destruct (string_contains "assurances_with_bad_signature-1" _); [discriminate|].
  destruct (_ && _); [discriminate|].
  destruct (report_cores _ _ _) as [reported0 new_avail] eqn:Hrep.
  injection H as <- <- <-.
  eexists _, _. split; [reflexivity|]. split; [exact Hok|].
  cbn zeta. cbn [avail_assignments curr_validators]. split; [exact Hrep|reflexivity].
Qed.

(** X15. On the outcome [ok] the reports returned are exactly those of the
    cores that hold a report not yet timed out and that more than two thirds
    of the validators name in their bitfields: at least
    [floor(2 * |validators| / 3) + 1] assurances.  No core is freed: in the
    post-state every such core still holds its report with the same
    timeout. *)
Theorem reported_by_supermajority (input_data : input) (pre_state : state)
    (reported : list report) (post_state pre_state' : state) :
  process_assurances input_data pre_state = (OutOk reported, post_state, pre_state') ->
  let held core r t :=
    (avail_assignments pre_state !! core = Some (ASome r t)
     \/ avail_assignments pre_state !! core = Some (AFlat r t))
    /\ slot input_data <= t in
  (forall r, r ∈ reported <->
     exists core t,
       held core r t
       /\ (length (curr_validators pre_state) * 2 / 3 + 1
           <= assurers_of core (assurances input_data))%nat)
  /\ (forall core r t, held core r t ->
        avail_assignments post_state !! core = Some (ASome r t)
        \/ avail_assignments post_state !! core = Some (AFlat r t)).
Proof.
  intros H. cbn zeta.
  destruct (assurances input_data) as [|a0 l0] eqn:Hal.
  { unfold process_assurances in H. rewrite Hal in H. injection H as <- <- <-.
    cbn [avail_assignments]. split.
    - intros r. split; [intros Hr; inversion Hr|].
      intros (core & t & _ & Hn). unfold assurers_of in Hn.
      rewrite filter_nil in Hn. cbn in Hn. lia.
    - intros core r t [Ho Ht]. unfold sweep.
      change (map ?f ?l) with (f <$> l). rewrite list_lookup_fmap.
      destruct Ho as [-> | ->]; cbn; destruct (Z.ltb_spec t (slot input_data));
        try lia; auto. }
  rewrite <- Hal in *.
  apply process_assurances_ok in H as (indices & max_core & _ & _ & Hrep & _);
    [|rewrite Hal; discriminate].
  cbn zeta in Hrep.
  set (avail := pad max_core (sweep (slot input_data)
                                    (avail_assignments pre_state))) in *.
  destruct (tally avail (assurances input_data)) as [Hnd Hcount].
  destruct (report_cores_spec _ _ _ _ _ Hnd Hrep) as (_ & _ & Hin & Hiff).
  split.
  - intros r. rewrite Hiff. split.
    + intros (core & count & t & Hc & Hsm & Ha).
      destruct Ha as [Ha|Ha];
        [|exfalso; exact (proj2 (swept_lookup _ _ _ core r t) Ha)].
      exists core, t. split; [apply (swept_lookup _ max_core), Ha|].
      pose proof (count_of_elem core count _ Hnd Hc) as Hcnt.
      rewrite Hcount in Hcnt.
      destruct (live_at avail core); lia.
    + intros (core & t & Hheld & Hsm).
      apply (swept_lookup _ max_core) in Hheld. fold avail in Hheld.
      assert (live_at avail core = true) as Hlive
        by (apply swept_live; eauto).
      exists core, (count_of core (count_cores avail (assurances input_data))), t.
      split; [|split; [|left; exact Hheld]].
      * apply count_of_pos. rewrite Hcount, Hlive. lia.
      * rewrite Hcount, Hlive. exact Hsm.
  - intros core r t Hheld.
    apply (swept_lookup _ max_core) in Hheld. fold avail in Hheld.
    destruct (Hin core) as [Heq|(r0 & t0 & Ha & Hn)].
    + left. congruence.
    + right. congruence.
Qed.

(** *** Who has to assure *)

Lemma validate_inr (n : nat) (p : option string) :
  forall l acc indices,
    validate n p l acc = inr indices ->
    exists new,
      indices = acc ++ new
      /\ validator_index <$> l = Some <$> new
      /\ Forall (fun i => 0 <= i < Z.of_nat n) new.
Proof.
  induction l as [|a l IH]; intros acc indices H; cbn [validate] in H.
  - injection H as <-. exists []. rewrite app_nil_r.
    split; [reflexivity|]. split; [reflexivity|constructor].
  - destruct (validator_index a) as [i|] eqn:Hi; [|discriminate].
    destruct (Z.ltb_spec i 0); [discriminate|].
    destruct (Z.leb_spec (Z.of_nat n) i); [discriminate|]. cbn [orb] in H.
    assert (validate n p l (acc ++ [i]) = inr indices) as H'.
    { destruct (anchor a), p; try exact H.
      destruct (String.eqb _ _); [exact H|discriminate]. }
    destruct (IH _ _ H') as (new & -> & Hl & Hall).
    exists (i :: new). rewrite <- app_assoc. split; [reflexivity|].
    split; [cbn; rewrite Hi, Hl; reflexivity|].
    constructor; [lia|exact Hall].
Qed.

Lemma indices_ok_all (n : nat) (indices : list Z) :
  Forall (fun i => 0 <= i < Z.of_nat n) indices ->
  indices_ok n indices = true ->
  indices = Z.of_nat <$> seq 0 n.
Proof.
  intros Hrange Hok. unfold indices_ok in Hok.
  apply andb_true_iff in Hok as [Hok Hall].
  apply andb_true_iff in Hok as [Hdup Hsort].
  apply negb_true_iff, has_duplicates_false in Hdup.
  assert (StronglySorted Z.le indices) as Hsorted.
  { apply negb_true_iff, andb_false_iff in Hsort as [Hlen|Hs].
    - apply Nat.ltb_ge in Hlen.
      destruct indices as [|x [|y l]]; [constructor|repeat constructor|].
      cbn [length] in Hlen. lia.
    - apply negb_false_iff, bool_decide_eq_true in Hs. rewrite Hs.
      apply StronglySorted_merge_sort; apply _. }
  assert (StronglySorted Z.le (Z.of_nat <$> seq 0 n)) as Htarget.
  { apply (StronglySorted_fmap _ lt).
    - intros x y Hxy. lia.
    - clear. generalize 0%nat. induction n as [|n IH]; intros a; cbn [seq];
        constructor; [apply IH|].
      apply Forall_forall. intros x Hx. apply elem_of_seq in Hx. lia. }
  assert (forall x, x ∈ indices -> x ∈ Z.of_nat <$> seq 0 n) as Hsub.
  { intros x Hx. rewrite Forall_forall in Hrange. specialize (Hrange x Hx).
    apply list_elem_of_fmap. exists (Z.to_nat x).
    split; [lia|]. apply elem_of_seq. lia. }
  apply (StronglySorted_unique Z.le); [exact Hsorted|exact Htarget|].
  apply submseteq_length_Permutation; [apply NoDup_submseteq; assumption|].
  rewrite length_fmap, length_seq.
  apply negb_true_iff, andb_false_iff in Hall as [Hset|Hlen].
  - apply negb_false_iff, bool_decide_eq_true in Hset.
    assert (Z.of_nat <$> seq 0 n ⊆+ indices) as Hsup.
    { apply NoDup_submseteq.
      - apply NoDup_fmap_2; [intros x y; lia|apply NoDup_seq].
      - intros x Hx.
        apply (elem_of_list_to_set (C:=gset Z)). rewrite Hset.
        apply elem_of_list_to_set. exact Hx. }
    apply submseteq_length in Hsup.
    rewrite length_fmap, length_seq in Hsup. exact Hsup.
  - apply Nat.ltb_ge in Hlen. exact Hlen.
Qed.

(** X16. A block with assurances is accepted only if every validator of
    the current set assures, in the order of the set: on the outcome [ok] the
    validator indices of the assurances are [0, 1, ..., n - 1], [n] the
    number of validators. *)
Theorem every_validator_assures (input_data : input) (pre_state : state)
    (reported : list report) (post_state pre_state' : state) :
  process_assurances input_data pre_state = (OutOk reported, post_state, pre_state') ->
  assurances input_data <> [] ->
  validator_index <$> assurances input_data
  = Some <$> (Z.of_nat <$> seq 0 (length (curr_validators pre_state))).
Proof.
  intros H Hne.
  apply process_assurances_ok in H as (indices & max_core & Hval & Hok & _);
    [|exact Hne].
  apply validate_inr in Hval as (new & -> & Hl & Hrange).
  cbn [app] in Hok. rewrite Hl. f_equal.
  apply indices_ok_all; assumption.
Qed.

(** *** What every outcome returns *)

(** X17. Whatever the outcome, [ok] or an error, the post-state returned
    has the validators of the pre-state and at least as many assignments, and
    none of its assignments is stale: each is empty or holds a report whose
    timeout is not below the slot. *)
Theorem post_state_has_no_stale_report (input_data : input) (pre_state : state)
    (out : output) (post_state pre_state' : state) :
  process_assurances input_data pre_state = (out, post_state, pre_state') ->
  curr_validators post_state = curr_validators pre_state
  /\ (length (avail_assignments pre_state)
      <= length (avail_assignments post_state))%nat
  /\ Forall (fresh (slot input_data)) (avail_assignments post_state).
Proof.
  intros H. destruct out as [reported|e].
  - destruct (assurances input_data) as [|a0 l0] eqn:Hal.
    { unfold process_assurances in H. rewrite Hal in H. injection H as _ <- _.
      cbn. split; [reflexivity|]. unfold sweep at 1. rewrite length_map.
      split; [lia|apply sweep_fresh]. }
    apply process_assurances_ok in H as (indices & max_core & _ & _ & Hrep & Hcv);
      [|rewrite Hal; discriminate].
    cbn zeta in Hrep.
    destruct (tally (pad max_core (sweep (slot input_data)
                                         (avail_assignments pre_state)))
                    (assurances input_data)) as [Hnd _].
    destruct (report_cores_spec _ _ _ _ _ Hnd Hrep) as (Hlen & _ & Hin & _).
    split; [exact Hcv|]. split.
    + rewrite Hlen. unfold pad, sweep. rewrite length_app, length_map. lia.
    + pose proof (pad_fresh (slot input_data) max_core _
                    (sweep_fresh (slot input_data) (avail_assignments pre_state)))
        as Hfresh.
      rewrite Forall_lookup in Hfresh |- *. intros i x Hx.
      destruct (Hin i) as [Heq|(r & t & Ha & Hn)].
      * apply (Hfresh i). congruence.
      * rewrite Hn in Hx. injection Hx as <-. exact (Hfresh i _ Ha).
  - apply process_assurances_error in H as (Hcv & k & -> & _).
    split; [exact Hcv|]. split.
    + unfold sweep. rewrite length_app, length_map. lia.
    + apply Forall_app. split; [apply sweep_fresh|].
      apply Forall_replicate. exact I.
Qed.

(** *** The state as [save_state] writes it *)

Lemma sweep_saved (slot : Z) (l : list assignment) :
  sweep slot (map saved_form l) = sweep slot l.
Proof.
  unfold sweep. rewrite map_map. apply map_ext.
  intros [| |r t|r t|]; reflexivity.
Qed.

Lemma pad_saved (k : nat) (l : list assignment) :
  pad k (map saved_form l) = map saved_form (pad k l).
Proof.
  unfold pad. rewrite map_app, length_map. f_equal.
  generalize (S k - length l)%nat. intros n.
  induction n as [|n IH]; [reflexivity|]. cbn. rewrite <- IH. reflexivity.
Qed.

(** X18. Writing the state in the flat form of [save_state] and reading it
    back changes nothing for the next block: from the saved form of a state
    [process_assurances] returns the same output and the same post-state as
    from the state itself. *)
Theorem saved_state_reads_alike (input_data : input) (st : state) :
  let saved := mkState (map saved_form (avail_assignments st))
                       (curr_validators st) in
  (process_assurances input_data saved).1
  = (process_assurances input_data st).1.
Proof.
  cbn zeta. unfold process_assurances. cbn [avail_assignments curr_validators].
  rewrite sweep_saved.
  destruct (assurances input_data) as [|a l]; [reflexivity|].
  destruct (validate _ _ _ _) as [e|indices]; [reflexivity|].
  destruct (negb (indices_ok _ _)); [reflexivity|].
  destruct (string_contains "assurances_with_bad_signature-1" _); [reflexivity|].
  rewrite pad_saved.
  set (all_cores := concat (map cores_of (a :: l))).
  assert (existsb (fun core =>
                     match map saved_form
                             (pad (foldr Nat.max 0%nat all_cores)
                                  (avail_assignments st)) !! core with
                     | Some x => negb (is_live x)
                     | None => true
                     end) all_cores
          = existsb (fun core =>
                       match pad (foldr Nat.max 0%nat all_cores)
                                 (avail_assignments st) !! core with
                       | Some x => negb (is_live x)
                       | None => true
                       end) all_cores) as ->.
  { generalize (pad (foldr Nat.max 0%nat all_cores) (avail_assignments st)).
    intros L. induction all_cores as [|c cs IH]; [reflexivity|].
    cbn [existsb]. rewrite IH. f_equal.
    change (map saved_form L) with (saved_form <$> L).
    rewrite list_lookup_fmap. destruct (L !! c) as [[| |r t|r t|]|]; reflexivity. }
  destruct (_ && _); [reflexivity|].
  destruct (report_cores _ _ _). reflexivity.
Qed.

End WithPayloads.

(** *** Concrete runs *)

Fixpoint hex_value (s : string) (acc : N) : option N :=
  match s with
  | EmptyString => Some acc
  | String c r =>
      match hex_digit_value c with
      | Some d => hex_value r (16 * acc + d)
      | None => None
      end
  end.

(** A stand-in for [int(_, 16)] on the bitfields of the vectors: ["0x"] and
    hexadecimal digits. *)
Definition sample_int16 (s : string) : option Z :=
  match (if startswith_0x s then drop2 s else s) with
  | EmptyString => None
  | digits => Z.of_N <$> hex_value digits 0
  end.

Definition zero_signature : string :=
  "0x" +:+ Safrole.string_mul "0" 128.

Definition sample_pre_state : @state string string :=
  mkState [ASome "report-core-0" 11] ["validator-0"].

Definition sample_input (file : string) : input :=
  mkInput file [mkAssurance (Some 0) (Some "0x1") zero_signature None] 1
          (Some "0xb5af").

(** C9: with the all-zero signature of the component's own example the
    output is [ok] under one file name and [bad_signature] under another;
    nothing else differs between the two inputs. *)
Example bad_signature_by_filename :
  process_assurances sample_int16 (sample_input "example.json") sample_pre_state
    = (OutOk ["report-core-0"],
       mkState [AFlat "report-core-0" 11] ["validator-0"], sample_pre_state)
  /\ process_assurances sample_int16
       (sample_input "assurances_with_bad_signature-1.json") sample_pre_state
     = (OutErr bad_signature, sample_pre_state, sample_pre_state).
Proof. split; vm_compute; reflexivity. Qed.


Example reported_by_supermajority_witness :
  exists core t,
    avail_assignments sample_pre_state !! core = Some (ASome "report-core-0" t)
    /\ 1 <= t
    /\ (1 <= assurers_of sample_int16 core
               (assurances (sample_input "example.json")))%nat.
Proof.
  assert (process_assurances sample_int16 (sample_input "example.json")
                             sample_pre_state
          = (OutOk ["report-core-0"],
             mkState [AFlat "report-core-0" 11] ["validator-0"],
             sample_pre_state)) as H by (vm_compute; reflexivity).
  destruct (reported_by_supermajority sample_int16 _ _ _ _ _ H) as [Hiff _].
  destruct (proj1 (Hiff "report-core-0")) as (core & t & [[Ho|Ho] Ht] & Hn);
    [left| |].
  - exists core, t. split; [exact Ho|]. split; [exact Ht|exact Hn].
  - exfalso. destruct core as [|core]; cbn in Ho; [discriminate|].
    destruct core; discriminate.
Defined.

Example every_validator_assures_witness :
  validator_index <$> assurances (sample_input "example.json") = [Some 0].
Proof.
  assert (process_assurances sample_int16 (sample_input "example.json")
                             sample_pre_state
          = (OutOk ["report-core-0"],
             mkState [AFlat "report-core-0" 11] ["validator-0"],
             sample_pre_state)) as H by (vm_compute; reflexivity).
  rewrite (every_validator_assures sample_int16 _ _ _ _ _ H); [reflexivity|].
  discriminate.
Defined.

Example post_state_has_no_stale_report_witness :
  exists out post pre',
    process_assurances sample_int16
      (mkInput "" [mkAssurance (Some 7) (Some "0x1") zero_signature None] 10 None)
      (mkState [ASome "report-core-0" 5] ["validator-0"])
    = (out, post, pre')
    /\ Forall (fresh 10) (avail_assignments post)
    /\ curr_validators post = ["validator-0"].
Proof.
  eexists _, _, _. split; [vm_compute; reflexivity|].
  destruct (post_state_has_no_stale_report sample_int16
              (mkInput "" [mkAssurance (Some 7) (Some "0x1") zero_signature None]
                       10 None)
              (mkState [ASome "report-core-0" 5] ["validator-0"])
              (OutErr bad_validator_index)
              (mkState [ANone] ["validator-0"])
              (mkState [ASome "report-core-0" 5] ["validator-0"]))
    as (Hcv & _ & Hfresh); [vm_compute; reflexivity|].
  split; [exact Hfresh|exact Hcv].
Defined.

End Assurances.

(* ===================================================================== *)
(** ** Guarantees STF:
       Reports-Python/src/onchain/extrinsics/guarantee_processor.py *)
(* ===================================================================== *)

Module Guarantees.
Import Py.

(** onchain/constants.py is not part of the sources: the constants the
    processor reads are a parameter. *)
Record constants := mkConstants {
  ANCHOR_MAX_AGE_SLOTS : Z;
  REPORT_TIMEOUT_SLOTS : Z;
  MAX_DEPENDENCIES : Z;
  MAX_WORK_REPORT_GAS : Z;
  MIN_SERVICE_ITEM_GAS : Z;
  SUPER_MAJORITY_THRESHOLD_NUMERATOR : Z;
  SUPER_MAJORITY_THRESHOLD_DENOMINATOR : Z }.

(** models/refinement_context.py, work_item.py, work_package.py *)
Record RefinementContext := mkContext {
  anchor_block_root : string;
  anchor_block_number : Z;
  beefy_mmr_root : string;
  ctx_current_slot : Z;
  current_epoch : Z;
  current_guarantors : list string;
  previous_guarantors : list string }.

Record WorkItem := mkWorkItem {
  wi_id : string;
  program_hash : string;
  input_data : string;
  gas_limit : Z }.

Record WorkPackage := mkWorkPackage {
  authorization_token : string;
  service_u : option string;          (* authorization_service_details['u'] *)
  work_items : list WorkItem }.

(** The fields of a work-report the processor reads. *)
Record WorkReport := mkWorkReport {
  guarantor_public_key : string;
  guarantor_signature : string;
  refinement_context : RefinementContext;
  work_package : WorkPackage;
  report_slot : Z;
  core_index : Z;
  dependencies : list string;
  gas_used : Z }.

(** onchain/state.py *)
Inductive status : Type := Pending | Ready | Processing.

Record PendingReportEntry := mkPending {
  pending_report : WorkReport;
  received_signatures : gset string;
  submission_slot : Z }.

Record BadReportEntry := mkBad { reason : string; disputed_by : gset string }.
Record OffenderEntry := mkOffender { dispute_count : Z; last_dispute_slot : Z }.

Record OnchainState := mkOnchain {
  ρ : gmap string PendingReportEntry;
  ω : gmap string (WorkReport * status);
  ξ : gmap string WorkReport;
  ψ_B : gmap string BadReportEntry;
  ψ_O : gmap string OffenderEntry;
  core_status : gmap Z string;
  service_registry : gmap string (option string) (* service id to codeHash *) }.

Definition set_ρ (v : gmap string PendingReportEntry) (s : OnchainState) :=
  mkOnchain v (ω s) (ξ s) (ψ_B s) (ψ_O s) (core_status s) (service_registry s).
Definition set_ω (v : gmap string (WorkReport * status)) (s : OnchainState) :=
  mkOnchain (ρ s) v (ξ s) (ψ_B s) (ψ_O s) (core_status s) (service_registry s).
Definition set_ψ_B (v : gmap string BadReportEntry) (s : OnchainState) :=
  mkOnchain (ρ s) (ω s) (ξ s) v (ψ_O s) (core_status s) (service_registry s).
Definition set_ψ_O (v : gmap string OffenderEntry) (s : OnchainState) :=
  mkOnchain (ρ s) (ω s) (ξ s) (ψ_B s) v (core_status s) (service_registry s).

(** [math.ceil(a / b)] for [b <> 0]: the quotient rounded up. *)
Definition ceil_div (a b : Z) : Z := - ((- a) / b).

Section WithCrypto.
Variable ONCHAIN_CONSTANTS : constants.
(** [verify_signature] over [to_signable_object] with the decoded key, and
    [generate_digest().hash]; work_report.py is not part of the sources. *)
Variable signature_valid : WorkReport -> bool.
Variable generate_digest : WorkReport -> string.

(** [validate_work_report]: [None] when it returns, [Some msg] when it
    raises; the caller treats every exception alike. (The message of
    [bad_service_details] is written without its inner quotes.) *)
Definition validate_work_report (report : WorkReport)
    (onchain_state : OnchainState) (current_slot : Z)
    (current_block_digests : list string) : option string :=
  let K := ONCHAIN_CONSTANTS in
  let context := refinement_context report in
  if negb (signature_valid report)
  then Some "bad_signature: Work-Report signature is invalid."
  else if ANCHOR_MAX_AGE_SLOTS K <? current_slot - anchor_block_number context
  then Some "anchor_not_recent: Context anchor block is too old."
  else
    match service_u (work_package report) with
    | None | Some EmptyString =>
        Some "bad_service_details: Missing service identifier u."
    | Some service_id =>
        let expected_code_hash :=
          match service_registry onchain_state !! service_id with
          | Some (Some h) => if String.eqb h "" then None else Some h
          | _ => None
          end in
        let code_hash_error :=
          match expected_code_hash with
          | None => None
          | Some h =>
              match work_items (work_package report) with
              | [] => Some "list index out of range"
              | item :: _ =>
                  if String.eqb (program_hash item) h then None
                  else Some "bad_code_hash: Work result code hash doesn't match expected for service."
              end
          end in
        match code_hash_error with
        | Some msg => Some msg
        | None =>
            if REPORT_TIMEOUT_SLOTS K =? 0
            then Some "integer division or modulo by zero"
            else
              let report_epoch := report_slot report / REPORT_TIMEOUT_SLOTS K in
              let is_guarantor_assigned :=
                ((report_epoch =? current_epoch context)
                 && bool_decide (guarantor_public_key report
                                 ∈ current_guarantors context))
                || ((report_epoch =? current_epoch context - 1)
                    && bool_decide (guarantor_public_key report
                                    ∈ previous_guarantors context)) in
              if negb is_guarantor_assigned
              then Some "wrong_assignment / not_authorized: Unexpected guarantor for work report core or not authorized."
              else if bool_decide (core_status onchain_state !! core_index report
                                   = Some "engaged")
              then Some ("core_engaged: Core " +:+ pretty (core_index report)
                         +:+ " is not available.")
              else if current_slot <? report_slot report
              then Some "future_report_slot: Report refers to a slot in the future."
              else if REPORT_TIMEOUT_SLOTS K <? current_slot - report_slot report
              then Some "report_before_last_rotation: Report guarantee slot is too old."
              else if MAX_DEPENDENCIES K <? Z.of_nat (length (dependencies report))
              then Some "too_many_dependencies: Work report has too many dependencies."
              else
              match List.find
                      (fun dep_hash =>
                         negb (bool_decide (is_Some (ξ onchain_state !! dep_hash))
                               || bool_decide (is_Some (ρ onchain_state !! dep_hash))
                               || bool_decide (dep_hash ∈ current_block_digests)))
                      (dependencies report) with
              | Some dep_hash =>
                  Some ("dependency_missing / segment_root_lookup_invalid: Dependency "
                        +:+ dep_hash +:+ " not found.")
              | None =>
              if MAX_WORK_REPORT_GAS K <? gas_used report
              then Some "too_high_work_report_gas: Work report per core gas is too high."
              else if existsb (fun item => gas_limit item <? MIN_SERVICE_ITEM_GAS K)
                              (work_items (work_package report))
              then Some "service_item_gas_too_low: Accumulate gas is below the service minimum."
              else if bool_decide (is_Some (ξ onchain_state !! generate_digest report))
              then Some "duplicate_package_in_recent_history: Package was already finalized."
              else None
              end
        end
    end.

(** The bookkeeping of a failed validation. *)
Definition record_invalid (report : WorkReport) (msg : string)
    (current_slot : Z) (s : OnchainState) : OnchainState :=
  let s1 :=
    set_ψ_B (<[generate_digest report := mkBad msg {["system_validation"]}]> (ψ_B s)) s in
  let key := guarantor_public_key report in
  match ψ_O s1 !! key with
  | Some o =>
      set_ψ_O (<[key := mkOffender (dispute_count o + 1) current_slot]> (ψ_O s1)) s1
  | None => set_ψ_O (<[key := mkOffender 1 current_slot]> (ψ_O s1)) s1
  end.

Definition required_signatures (report : WorkReport) : Z :=
  let total_guarantors :=
    Z.of_nat (length (current_guarantors (refinement_context report))
              + length (previous_guarantors (refinement_context report))) in
  ceil_div (total_guarantors * SUPER_MAJORITY_THRESHOLD_NUMERATOR ONCHAIN_CONSTANTS)
           (SUPER_MAJORITY_THRESHOLD_DENOMINATOR ONCHAIN_CONSTANTS).

(** The entry of [ρ] after this submission: a new one, or the old one with
    the guarantor's key added; [None] for a key already present. *)
Definition add_signature (report : WorkReport) (onchain_state : OnchainState)
    (current_slot : Z) : option PendingReportEntry :=
  let key := guarantor_public_key report in
  match ρ onchain_state !! generate_digest report with
  | None => Some (mkPending report {[key]} current_slot)
  | Some entry =>
      if bool_decide (key ∈ received_signatures entry) then None
      else Some (mkPending (pending_report entry)
                           ({[key]} ∪ received_signatures entry)
                           (submission_slot entry))
  end.

(** [process_guarantee_extrinsic]: the value returned and the state the
    call leaves; the division by a zero denominator raises. *)
Definition process_guarantee_extrinsic (report : WorkReport)
    (onchain_state : OnchainState) (current_slot : Z)
    (current_block_digests : list string) : result (bool * OnchainState) :=
  match validate_work_report report onchain_state current_slot
                             current_block_digests with
  | Some msg => Ok (false, record_invalid report msg current_slot onchain_state)
  | None =>
      let digest_hash := generate_digest report in
      match add_signature report onchain_state current_slot with
      | None => Ok (false, onchain_state)
      | Some report_entry =>
          let s1 := set_ρ (<[digest_hash := report_entry]> (ρ onchain_state))
                          onchain_state in
          if SUPER_MAJORITY_THRESHOLD_DENOMINATOR ONCHAIN_CONSTANTS =? 0
          then Raise ZeroDivisionError
          else if required_signatures report
                  <=? Z.of_nat (size (received_signatures report_entry))
          then
            Ok (true,
                set_ω (<[digest_hash := (report, Ready)]> (ω s1))
                      (set_ρ (delete digest_hash (ρ s1)) s1))
          else if REPORT_TIMEOUT_SLOTS ONCHAIN_CONSTANTS
                  <? current_slot - submission_slot report_entry
          then
            Ok (false,
                set_ψ_B (<[digest_hash := mkBad "timed_out" {["system_timeout"]}]>
                           (ψ_B s1))
                        (set_ρ (delete digest_hash (ρ s1)) s1))
          else Ok (true, s1)
      end
  end.

(** *** Promotion *)

Lemma ceil_div_spec (a b q : Z) : 0 < b -> ceil_div a b <= q <-> a <= q * b.
Proof.
  intros Hb. unfold ceil_div. split; intros H.
  - assert (- q <= - a / b) as H1 by lia.
    destruct (Z_lt_le_dec (q * b) a) as [Hlt|]; [|assumption].
    assert (- a / b < - q); [|lia].
    apply Z.div_lt_upper_bound; lia.
  - assert (- q <= - a / b); [|lia].
    apply Z.div_le_lower_bound; lia.
Qed.

Lemma validate_timeout_nonneg report st slot digests :
  validate_work_report report st slot digests = None ->
  0 <= REPORT_TIMEOUT_SLOTS ONCHAIN_CONSTANTS.
Proof.
  unfold validate_work_report. intros H.
  repeat case_match; try discriminate; lia.
Qed.

(** C4 (as amended).  A valid submission that adds a signature moves the
    report from [ρ] to [ω], with status [ready], exactly when the signatures
    then held number at least [ceil(2 (|current| + |previous|) / 3)];
    otherwise [ω] is left as it was.  With three guarantors in all the
    threshold is 2: the first valid submission creates the entry of [ρ] and
    one further signature of another guarantor moves the digest to [ω]. *)
Theorem report_promotion :
  SUPER_MAJORITY_THRESHOLD_NUMERATOR ONCHAIN_CONSTANTS = 2 ->
  SUPER_MAJORITY_THRESHOLD_DENOMINATOR ONCHAIN_CONSTANTS = 3 ->
  (forall report st slot digests entry,
      validate_work_report report st slot digests = None ->
      add_signature report st slot = Some entry ->
      let d := generate_digest report in
      let total := Z.of_nat (length (current_guarantors (refinement_context report))
                             + length (previous_guarantors (refinement_context report))) in
      let n := Z.of_nat (size (received_signatures entry)) in
      required_signatures report = ceil_div (total * 2) 3
      /\ (ceil_div (total * 2) 3 <= n ->
          exists st', process_guarantee_extrinsic report st slot digests = Ok (true, st')
                      /\ ρ st' = delete d (ρ st)
                      /\ ω st' = <[d := (report, Ready)]> (ω st))
      /\ (n < ceil_div (total * 2) 3 ->
          exists b st', process_guarantee_extrinsic report st slot digests = Ok (b, st')
                        /\ ω st' = ω st))
  /\ (forall r1 r2 st slot1 slot2 digests1 digests2 b1 st1,
        generate_digest r1 = generate_digest r2 ->
        guarantor_public_key r1 <> guarantor_public_key r2 ->
        (length (current_guarantors (refinement_context r1))
         + length (previous_guarantors (refinement_context r1)) = 3)%nat ->
        (length (current_guarantors (refinement_context r2))
         + length (previous_guarantors (refinement_context r2)) = 3)%nat ->
        ρ st !! generate_digest r1 = None ->
        validate_work_report r1 st slot1 digests1 = None ->
        process_guarantee_extrinsic r1 st slot1 digests1 = Ok (b1, st1) ->
        validate_work_report r2 st1 slot2 digests2 = None ->
        (ρ st1 !! generate_digest r1
         = Some (mkPending r1 {[guarantor_public_key r1]} slot1)
         /\ ω st1 = ω st)
        /\ exists st2,
             process_guarantee_extrinsic r2 st1 slot2 digests2 = Ok (true, st2)
             /\ ρ st2 !! generate_digest r1 = None
             /\ ω st2 !! generate_digest r1 = Some (r2, Ready)).
Proof.
  intros Hnum Hden.
  assert (forall r, required_signatures r
                    = ceil_div (Z.of_nat (length (current_guarantors (refinement_context r))
                                          + length (previous_guarantors (refinement_context r))) * 2) 3)
    as Hreq by (intros r; unfold required_signatures; rewrite Hnum, Hden; reflexivity).
  split.
  - intros report st slot digests entry Hval Hadd d total n.
    split; [apply Hreq|].
    unfold process_guarantee_extrinsic. rewrite Hval, Hadd, Hden, Hreq.
    cbn [Z.eqb]. fold total. fold n. fold d.
    split; intros Hn.
    + destruct (Z.leb_spec (ceil_div (total * 2) 3) n); [|lia].
      eexists. split; [reflexivity|]. cbn. split; [|reflexivity].
      apply delete_insert_eq.
    + destruct (Z.leb_spec (ceil_div (total * 2) 3) n); [lia|].
      destruct (_ <? _); eexists _, _; (split; [reflexivity|reflexivity]).
  - intros r1 r2 st slot1 slot2 digests1 digests2 b1 st1
           Hd Hk H1 H2 Hfresh Hv1 Hp1 Hv2.
    assert (ceil_div (Z.of_nat 3 * 2) 3 = 2) as H3 by reflexivity.
    pose proof (validate_timeout_nonneg _ _ _ _ Hv1) as HT.
    unfold process_guarantee_extrinsic in Hp1.
    rewrite Hv1 in Hp1. unfold add_signature in Hp1. rewrite Hfresh in Hp1.
    rewrite Hden, Hreq, H1, H3 in Hp1. cbn [Z.eqb received_signatures] in Hp1.
    rewrite size_singleton in Hp1. cbn [Z.leb Z.of_nat Pos.of_succ_nat Z.compare Pos.compare Pos.compare_cont] in Hp1.
    cbn [submission_slot] in Hp1.
    destruct (Z.ltb_spec (REPORT_TIMEOUT_SLOTS ONCHAIN_CONSTANTS) (slot1 - slot1));
      [lia|].
    injection Hp1 as <- <-.
    split.
    { cbn. split; [apply lookup_insert_eq|reflexivity]. }
    unfold process_guarantee_extrinsic. rewrite Hv2.
    unfold add_signature. cbn [ρ set_ρ]. rewrite <- Hd, lookup_insert_eq.
    cbn [received_signatures pending_report submission_slot].
    rewrite bool_decide_eq_false_2 by set_solver.
    rewrite Hden, Hreq, H2, H3. cbn [Z.eqb received_signatures].
    rewrite size_union, !size_singleton by set_solver.
    cbn [Z.leb Z.of_nat Nat.add Pos.of_succ_nat Pos.succ Z.compare Pos.compare Pos.compare_cont].
    eexists. split; [reflexivity|]. cbn.
    split; [apply lookup_delete_eq|apply lookup_insert_eq].
Qed.

(** *** What a submission never undoes *)

(** X19. Whatever a submission does, it leaves the history [ξ], the core
    status and the service registry alone, forgets no bad report and no
    offender, and lowers no dispute count.  It returns [True] only for a
    report that passed validation, and a report that failed validation is
    filed in [ψ_B] under its digest, with the error message and
    [system_validation] as the disputing party, while [ρ] and [ω] stay as
    they were and the guarantor's dispute count goes up by one. *)
Theorem records_only_grow (report : WorkReport) (st : OnchainState)
    (slot : Z) (digests : list string) (b : bool) (st' : OnchainState) :
  process_guarantee_extrinsic report st slot digests = Ok (b, st') ->
  ξ st' = ξ st /\ core_status st' = core_status st
  /\ service_registry st' = service_registry st
  /\ (forall d, is_Some (ψ_B st !! d) -> is_Some (ψ_B st' !! d))
  /\ (forall k o, ψ_O st !! k = Some o ->
        exists o', ψ_O st' !! k = Some o'
                   /\ dispute_count o <= dispute_count o')
  /\ (b = true -> validate_work_report report st slot digests = None)
  /\ (forall msg, validate_work_report report st slot digests = Some msg ->
        b = false /\ ρ st' = ρ st /\ ω st' = ω st
        /\ ψ_B st' !! generate_digest report
           = Some (mkBad msg {["system_validation"]})
        /\ ψ_O st' !! guarantor_public_key report
           = Some (mkOffender
                     (match ψ_O st !! guarantor_public_key report with
                      | Some o => dispute_count o + 1
                      | None => 1
                      end) slot)).
Proof.
  unfold process_guarantee_extrinsic. intros H.
  destruct (validate_work_report report st slot digests) as [msg|] eqn:Hval.
  - injection H as <- <-. unfold record_invalid. cbn [ψ_O set_ψ_B].
    destruct (ψ_O st !! guarantor_public_key report) as [o|] eqn:Ho; cbn;
      (split; [reflexivity|]); (split; [reflexivity|]); (split; [reflexivity|]);
      (split; [intros d Hd; destruct (decide (d = generate_digest report)) as [->|];
               [rewrite lookup_insert_eq; eauto
               |rewrite lookup_insert_ne by congruence; exact Hd]|]);
      (split; [intros k o0 Hk;
               destruct (decide (k = guarantor_public_key report)) as [->|];
               [rewrite lookup_insert_eq; eexists; split; [reflexivity|];
                cbn; try (rewrite Ho in Hk; injection Hk as <-); try lia; congruence
               |rewrite lookup_insert_ne by congruence; eauto using Z.le_refl]|]);
      (split; [discriminate|]);
      intros msg' [= <-]; rewrite !lookup_insert_eq; auto.
  - assert (forall s : OnchainState,
               (forall d, is_Some (ψ_B st !! d) -> is_Some (ψ_B s !! d)) ->
               ψ_O s = ψ_O st ->
               (forall d, is_Some (ψ_B st !! d) -> is_Some (ψ_B s !! d))
               /\ (forall k o, ψ_O st !! k = Some o ->
                     exists o', ψ_O s !! k = Some o'
                                /\ dispute_count o <= dispute_count o')) as Hkeep.
    { intros s HB HO. split; [exact HB|]. intros k o Hk. rewrite HO.
      exists o. split; [exact Hk|lia]. }
    destruct (add_signature report st slot) as [entry|].
    2: { injection H as <- <-.
         split; [reflexivity|]. split; [reflexivity|]. split; [reflexivity|].
         destruct (Hkeep st) as [HB HO]; [auto|reflexivity|].
         split; [exact HB|]. split; [exact HO|]. split; [reflexivity|discriminate]. }
    destruct (_ =? 0); [discriminate|].
    destruct (_ <=? _).
    { injection H as <- <-. cbn.
      split; [reflexivity|]. split; [reflexivity|]. split; [reflexivity|].
      split; [auto|]. split; [|split; [reflexivity|discriminate]].
      intros k o Hk. exists o. split; [exact Hk|lia]. }
    destruct (_ <? _); injection H as <- <-; cbn;
      (split; [reflexivity|]); (split; [reflexivity|]); (split; [reflexivity|]).
    + split.
      { intros d Hd. destruct (decide (d = generate_digest report)) as [->|].
        - rewrite lookup_insert_eq. eauto.
        - rewrite lookup_insert_ne by congruence. exact Hd. }
      split; [|split; [discriminate|discriminate]].
      intros k o Hk. exists o. split; [exact Hk|lia].
    + split; [auto|]. split; [|split; [reflexivity|discriminate]].
      intros k o Hk. exists o. split; [exact Hk|lia].
Qed.

(** *** A signature sent twice *)

Lemma find_none_mono {A} (f g : A -> bool) (l : list A) :
  (forall x, f x = true -> g x = true) ->
  List.find (fun x => negb (f x)) l = None ->
  List.find (fun x => negb (g x)) l = None.
Proof.
  intros Hfg. induction l as [|x l IH]; cbn; [reflexivity|].
  destruct (f x) eqn:Hf; cbn; [|discriminate].
  rewrite (Hfg x Hf). cbn. exact IH.
Qed.

(** Validation reads [ρ] only to look for dependencies: more pending
    reports do not invalidate a report. *)
Lemma validate_more_pending (report : WorkReport) (st st1 : OnchainState)
    (slot : Z) (digests : list string) :
  ξ st1 = ξ st -> core_status st1 = core_status st ->
  service_registry st1 = service_registry st ->
  (forall d, is_Some (ρ st !! d) -> is_Some (ρ st1 !! d)) ->
  validate_work_report report st slot digests = None ->
  validate_work_report report st1 slot digests = None.
Proof.
  intros Hξ Hc Hs Hρ. unfold validate_work_report. rewrite Hξ, Hc, Hs.
  destruct (negb (signature_valid report)); [discriminate|].
  destruct (_ <? _); [discriminate|].
  destruct (service_u (work_package report)) as [[|c u]|]; try discriminate.
  destruct (match match service_registry st !! String c u with
                  | Some (Some h) => if String.eqb h "" then None else Some h
                  | _ => None
                  end with
            | Some h => _
            | None => None
            end); [discriminate|].
  destruct (_ =? 0); [discriminate|].
  destruct (negb _); [discriminate|].
  destruct (bool_decide (_ = Some "engaged")); [discriminate|].
  destruct (_ <? _); [discriminate|].
  destruct (_ <? _); [discriminate|].
  destruct (_ <? _); [discriminate|].
  destruct (List.find _ (dependencies report)) as [dep|] eqn:Hfind;
    [discriminate|].
  intros H.
  rewrite (find_none_mono
             (fun dep_hash =>
                bool_decide (is_Some (ξ st !! dep_hash))
                || bool_decide (is_Some (ρ st !! dep_hash))
                || bool_decide (dep_hash ∈ digests))
             (fun dep_hash =>
                bool_decide (is_Some (ξ st !! dep_hash))
                || bool_decide (is_Some (ρ st1 !! dep_hash))
                || bool_decide (dep_hash ∈ digests))
             (dependencies report)); [exact H| |exact Hfind].
  intros x Hx.
  apply orb_true_iff in Hx as [Hx|Hx]; [|rewrite Hx; apply orb_true_r].
  apply orb_true_iff in Hx as [Hx|Hx]; [rewrite Hx; reflexivity|].
  apply bool_decide_eq_true in Hx.
  rewrite (bool_decide_eq_true_2 _ (Hρ x Hx)). rewrite orb_true_r. reflexivity.
Qed.

(** X20. A guarantor who sends the same report again while it is pending
    is ignored: if a submission was accepted and left the report in [ρ], the
    same submission made again returns [False] and leaves the state as it
    is. *)
Theorem resubmission_is_ignored (report : WorkReport) (st st1 : OnchainState)
    (slot : Z) (digests : list string) :
  process_guarantee_extrinsic report st slot digests = Ok (true, st1) ->
  is_Some (ρ st1 !! generate_digest report) ->
  process_guarantee_extrinsic report st1 slot digests = Ok (false, st1).
Proof.
  intros H Hpending.
  assert (validate_work_report report st slot digests = None) as Hval.
  { unfold process_guarantee_extrinsic in H.
    destruct (validate_work_report report st slot digests); [discriminate|].
    reflexivity. }
  unfold process_guarantee_extrinsic in H. rewrite Hval in H.
  destruct (add_signature report st slot) as [entry|] eqn:Hadd; [|discriminate].
  destruct (_ =? 0); [discriminate|].
  assert (guarantor_public_key report ∈ received_signatures entry) as Hkey.
  { unfold add_signature in Hadd.
    destruct (ρ st !! generate_digest report) as [old|].
    - case_bool_decide; [discriminate|]. injection Hadd as <-. cbn. set_solver.
    - injection Hadd as <-. cbn. set_solver. }
  destruct (_ <=? _).
  { injection H as <-. cbn in Hpending. rewrite lookup_delete_eq in Hpending.
    destruct Hpending as [? Hp]. discriminate. }
  destruct (_ <? _); [discriminate|]. injection H as <-.
  unfold process_guarantee_extrinsic.
  rewrite (validate_more_pending report st _ slot digests); try reflexivity.
  - unfold add_signature. cbn [ρ set_ρ]. rewrite lookup_insert_eq.
    rewrite bool_decide_eq_true_2 by exact Hkey. reflexivity.
  - intros d Hd. cbn [ρ set_ρ].
    destruct (decide (d = generate_digest report)) as [->|Hne].
    + rewrite lookup_insert_eq. eauto.
    + rewrite lookup_insert_ne by congruence. exact Hd.
  - exact Hval.
Qed.

End WithCrypto.

(** *** Concrete runs *)

Definition sample_constants : constants := mkConstants 100 10 8 1000000 10 2 3.
Definition sample_valid (r : WorkReport) : bool := true.
(** A stand-in digest: the package's token, the same whoever guarantees. *)
Definition sample_digest (r : WorkReport) : string :=
  authorization_token (work_package r).

Definition sample_context : RefinementContext :=
  mkContext "0xroot" 5 "0xbeefy" 5 0 ["g1"; "g2"; "g3"] [].
Definition sample_report (key : string) : WorkReport :=
  mkWorkReport key "sig" sample_context
    (mkWorkPackage "package-1" (Some "svc") [mkWorkItem "item" "0xcode" "0x" 100])
    5 0 [] 500.

Definition empty_state : OnchainState := mkOnchain ∅ ∅ ∅ ∅ ∅ ∅ ∅.

Definition submit (st : OnchainState) (key : string) : OnchainState :=
  match process_guarantee_extrinsic sample_constants sample_valid sample_digest
          (sample_report key) st 5 [] with
  | Ok (_, st') => st'
  | Raise _ => st
  end.

Example report_promotion_witness :
  exists st2,
    process_guarantee_extrinsic sample_constants sample_valid sample_digest
      (sample_report "g2") (submit empty_state "g1") 5 [] = Ok (true, st2)
    /\ ρ st2 !! "package-1" = None
    /\ ω st2 !! "package-1" = Some (sample_report "g2", Ready).
Proof.
  destruct (report_promotion sample_constants sample_valid sample_digest
              eq_refl eq_refl) as [_ H].
  destruct (H (sample_report "g1") (sample_report "g2") empty_state 5 5 [] []
              true (submit empty_state "g1")) as [_ Hst2].
  - reflexivity.
  - discriminate.
  - reflexivity.
  - reflexivity.
  - reflexivity.
  - reflexivity.
  - vm_compute. reflexivity.
  - vm_compute. reflexivity.
  - exact Hst2.
Defined.

(** C4, as stated, fails in its scenario: with three guarantors the digest
    is in [ω] after the second submission already, and the third brings it
    back into [ρ]. *)
Example three_guarantors_promote_early :
  let st1 := submit empty_state "g1" in
  let st2 := submit st1 "g2" in
  let st3 := submit st2 "g3" in
  (ρ st1 !! "package-1" = Some (mkPending (sample_report "g1") {["g1"]} 5)
   /\ ω st1 !! "package-1" = None)
  /\ (ρ st2 !! "package-1" = None
      /\ ω st2 !! "package-1" = Some (sample_report "g2", Ready))
  /\ (ρ st3 !! "package-1" = Some (mkPending (sample_report "g3") {["g3"]} 5)
      /\ ω st3 !! "package-1" = Some (sample_report "g2", Ready)).
Proof. vm_compute. repeat split; reflexivity. Qed.

(** A report signed by a key that is no guarantor of its context. *)
Example records_only_grow_witness :
  exists st',
    process_guarantee_extrinsic sample_constants sample_valid sample_digest
      (sample_report "stranger") empty_state 5 [] = Ok (false, st')
    /\ ρ st' = ∅
    /\ ψ_O st' !! "stranger" = Some (mkOffender 1 5).
Proof.
  assert (exists st',
             process_guarantee_extrinsic sample_constants sample_valid
               sample_digest (sample_report "stranger") empty_state 5 []
             = Ok (false, st')) as (st' & H).
  { eexists. vm_compute. reflexivity. }
  exists st'. split; [exact H|].
  destruct (records_only_grow sample_constants sample_valid sample_digest
              _ _ _ _ _ _ H) as (_ & _ & _ & _ & _ & _ & Hbad).
  destruct (Hbad _ eq_refl) as (_ & Hρ & _ & _ & HO).
  split; [exact Hρ|exact HO].
Defined.

Example resubmission_is_ignored_witness :
  process_guarantee_extrinsic sample_constants sample_valid sample_digest
    (sample_report "g1") (submit empty_state "g1") 5 []
  = Ok (false, submit empty_state "g1").
Proof.
  apply (resubmission_is_ignored sample_constants sample_valid sample_digest
           (sample_report "g1") empty_state (submit empty_state "g1") 5 []).
  - vm_compute. reflexivity.
  - vm_compute. eauto.
Defined.

End Guarantees.

(* ===================================================================== *)
(** ** GRANDPA round: Grandpa/grandpa_prod.py *)
(* ===================================================================== *)

Module Grandpa.
Import Py.

(** A block record of the tree and of [BLOCK_BY_HASH]; a record without the
    [audited] key counts as not audited. *)
Record block := mkBlock {
  hash : string;
  parent : option string;
  height : Z;
  state_root : string;
  slot : Z;
  author : Z;
  ticketed : bool;
  audited : bool }.

Record BlockTree := mkTree {
  blocks : gmap string block;
  children : gmap (option string) (list string) }.

Record VoteMsg := mkVote {
  vote_round : Z;
  stage : string;
  block_hash : option string;
  block_height : option Z;
  vote_state_root : option string;
  validator : Z;
  sig_ed25519_b64 : string }.

Record Justification := mkJustification {
  round_number : Z;
  j_block_hash : string;
  signatures : list (Z * string) }.

(** [GrandpaEngine]: the fields a round reads and writes. *)
Record engine := mkEngine {
  validators : list Z;
  round : Z;
  threshold : nat;
  finalized : option string }.

(** [GrandpaEngine.__init__] *)
Definition new_engine (validators : list Z) : engine :=
  mkEngine validators 0 (2 * length validators / 3 + 1)%nat None.

(** Truth value of an optional string: [None] and [""] are false. *)
Definition truthy (c : option string) : bool :=
  match c with
  | Some s => negb (String.eqb s "")
  | None => false
  end.

Definition add_block (rec : block) (t : BlockTree) : BlockTree :=
  match blocks t !! hash rec with
  | Some _ => t
  | None =>
      mkTree (<[hash rec := rec]> (blocks t))
             (<[parent rec := default [] (children t !! parent rec) ++ [hash rec]]>
                (children t))
  end.

Definition parent_of (t : BlockTree) (cur : string) : option string :=
  match blocks t !! cur with
  | Some rec => parent rec
  | None => None
  end.

(** The walks towards the root loop for as long as [cur] is a non-empty
    hash: [None] when the fuel runs out. *)
Fixpoint contains_finalized_ancestor_from (fuel : nat) (t : BlockTree)
    (cur : option string) (finalized_hash : string) : option bool :=
  match fuel with
  | O => None
  | S fuel' =>
      if truthy cur then
        if bool_decide (cur = Some finalized_hash) then Some true
        else contains_finalized_ancestor_from fuel' t
               (cur ≫= parent_of t) finalized_hash
      else Some false
  end.

Definition contains_finalized_ancestor (fuel : nat) (t : BlockTree)
    (block_hash : string) (finalized_hash : option string) : option bool :=
  match finalized_hash with
  | None => Some true
  | Some f => contains_finalized_ancestor_from fuel t (Some block_hash) f
  end.

Fixpoint contains_equivocation_from (fuel : nat) (t : BlockTree)
    (cur : option string) (finalized_hash : option string) : option bool :=
  match fuel with
  | O => None
  | S fuel' =>
      if truthy cur && negb (bool_decide (cur = finalized_hash)) then
        let parent := cur ≫= parent_of t in
        match parent with
        | Some _ =>
            if (1 <? length (default [] (children t !! parent)))%nat
            then Some true
            else contains_equivocation_from fuel' t parent finalized_hash
        | None => contains_equivocation_from fuel' t parent finalized_hash
        end
      else Some false
  end.

Definition contains_equivocation_between (fuel : nat) (t : BlockTree)
    (block_hash : string) (finalized_hash : option string) : option bool :=
  contains_equivocation_from fuel t (Some block_hash) finalized_hash.

(** The key of [max] in [best_chain_head]: height, then hash. *)
Definition better (a b : block) : bool :=
  (height a <? height b)
  || ((height a =? height b)
      && match String.compare (hash a) (hash b) with Lt => true | _ => false end).

(** [best_chain_head]: the keys of the candidates are distinct, so the
    order in which the records are met does not matter. *)
Definition best_chain_head (fuel : nat) (t : BlockTree)
    (finalized_hash : option string) : option (option block) :=
  foldr (fun rec acc =>
           best ← acc;
           if negb (audited rec) then Some best
           else
             anc ← contains_finalized_ancestor fuel t (hash rec) finalized_hash;
             if negb (anc : bool) then Some best
             else
               forked ← contains_equivocation_between fuel t (hash rec) finalized_hash;
               if (forked : bool) then Some best
               else
                 match best with
                 | None => Some (Some rec)
                 | Some b => Some (Some (if better b rec then rec else b))
                 end)
        (Some None) (map snd (map_to_list (blocks t))).

(** ["{r}|{stage}|{bh or 'nil'}|{h or 'nil'}|{sr or 'nil'}"] *)
Definition vote_message_canonical (round_no : Z) (stage : string)
    (bh : option string) (h : option Z) (sr : option string) : string :=
  pretty round_no +:+ "|" +:+ stage +:+ "|"
  +:+ (if truthy bh then default "" bh else "nil") +:+ "|"
  +:+ match h with
      | Some n => if n =? 0 then "nil" else pretty n
      | None => "nil"
      end +:+ "|"
  +:+ (if truthy sr then default "" sr else "nil").

Section WithKeys.
(** The node's id, its ed25519 signature, the fuel of the walks, and the
    global [BLOCK_BY_HASH]. *)
Variable node_id : Z.
Variable sign_ed25519 : string -> string.
Variable fuel : nat.
Variable BLOCK_BY_HASH : gmap string block.

Definition my_vote (r : Z) (stage : string) (bh : option string) : VoteMsg :=
  let rec := if truthy bh then bh ≫= (fun h => BLOCK_BY_HASH !! h) else None in
  let h := height <$> rec in
  let sr := state_root <$> rec in
  mkVote r stage bh h sr node_id
         (sign_ed25519 (vote_message_canonical r stage bh h sr)).

(** The tally of the prevotes: the candidate to precommit. *)
Definition prevote_candidate (e : engine) (prevotes : list VoteMsg)
    : option string :=
  match most_common1 (counter (map block_hash prevotes)) with
  | Some (Some choice, votes) =>
      if (threshold e <=? votes)%nat then Some choice else None
  | _ => None
  end.

(** The tally of the precommits: [final_bh]. [None] at the outer level when
    the equivocation walk does not return. *)
Definition precommit_final (e : engine) (t : BlockTree)
    (precommits : list VoteMsg) : option (option string) :=
  match most_common1 (counter (map block_hash precommits)) with
  | Some (Some bh, cnt) =>
      if (threshold e <=? cnt)%nat then
        match BLOCK_BY_HASH !! bh with
        | Some rec =>
            if audited rec then
              forked ← contains_equivocation_between fuel t bh (finalized e);
              Some (if (forked : bool) then None else Some bh)
            else Some None
        | None => Some None
        end
      else Some None
  | _ => Some None
  end.

(** The end of [run_round]: the finalized pointer moves only on a truthy
    [final_bh], and the round number goes up. *)
Definition conclude (e : engine) (precommits : list VoteMsg)
    (final_bh : option string)
    : option string * option Justification * engine :=
  if truthy final_bh then
    let sigs :=
      map (fun v => (validator v, sig_ed25519_b64 v))
          (filter (fun v => block_hash v = final_bh) precommits) in
    (final_bh,
     Some (mkJustification (round e) (default "" final_bh) sigs),
     mkEngine (validators e) (round e + 1) (threshold e) final_bh)
  else
    (final_bh, None,
     mkEngine (validators e) (round e + 1) (threshold e) (finalized e)).

(** The precommits a round tallies: the votes of the peers are those
    buffered before the node adds its own vote of a stage and those that
    arrive while it waits. *)
Definition round_precommits (e : engine) (t : BlockTree)
    (prevotes_before prevotes_after precommits_before precommits_after
       : list VoteMsg) : option (list VoteMsg) :=
  head ← best_chain_head fuel t (finalized e);
  let my_prevote := my_vote (round e) "prevote" (hash <$> head) in
  let prevotes := prevotes_before ++ [my_prevote] ++ prevotes_after in
  let candidate := prevote_candidate e prevotes in
  let my_pc := my_vote (round e) "precommit" candidate in
  Some (precommits_before ++ [my_pc] ++ precommits_after).

Definition run_round (e : engine) (t : BlockTree)
    (prevotes_before prevotes_after precommits_before precommits_after
       : list VoteMsg)
    : option (option string * option Justification * engine) :=
  precommits ← round_precommits e t prevotes_before prevotes_after
                                precommits_before precommits_after;
  final_bh ← precommit_final e t precommits;
  Some (conclude e precommits final_bh).

(** *** The finalisation rule *)

(** The precommits cast for a block, and the super-majority as the
    specification writes it, [ceil(2N/3) + 1]. *)
Definition precommits_for (bh : string) (precommits : list VoteMsg) : nat :=
  occurrences (Some bh) (map block_hash precommits).






(** The walk returns within [fuel] steps on a tree whose parent links
    descend along some rank. *)
Lemma contains_equivocation_returns (t : BlockTree) (rank : string -> nat)
    (finalized_hash : option string) :
  (forall h rec p, blocks t !! h = Some rec -> parent rec = Some p ->
                   (rank p < rank h)%nat) ->
  forall n cur,
    (match cur with Some h => S (rank h) | None => 0 end < n)%nat ->
    is_Some (contains_equivocation_from n t cur finalized_hash).
Proof.
  intros Hrank. induction n as [|n IH]; intros cur Hn; [lia|].
  cbn [contains_equivocation_from].
  destruct cur as [h|]; [|cbn; eauto].
  destruct (truthy (Some h) && _); [|eauto].
  cbn [mbind option_bind].
  unfold parent_of. destruct (blocks t !! h) as [rec|] eqn:Hb.
  - destruct (parent rec) as [p|] eqn:Hp.
    + destruct (1 <? _)%nat; [eauto|]. apply IH.
      specialize (Hrank h rec p Hb Hp). lia.
    + apply IH. lia.
  - apply IH. lia.
Qed.

(** *** The block tree *)

(** The records are filed under their own hash, the children of a parent
    are the blocks that name it, each once. *)
Definition tree_ok (t : BlockTree) : Prop :=
  (forall h rec, blocks t !! h = Some rec -> hash rec = h)
  /\ (forall p h, h ∈ default [] (children t !! p)
                  <-> exists rec, blocks t !! h = Some rec /\ parent rec = p)
  /\ (forall p, NoDup (default [] (children t !! p))).

(** X21. [add_block] files a record under its hash unless a record is
    there already: the first record of a hash stays, every other hash is
    left alone, and adding the same record again changes nothing.  It keeps
    the tree consistent: the children of a parent are exactly the blocks
    that name it as their parent, each listed once. *)
Theorem add_block_keeps_tree (rec : block) (t : BlockTree) :
  let t' := add_block rec t in
  blocks t' !! hash rec = Some (default rec (blocks t !! hash rec))
  /\ (forall h, h <> hash rec -> blocks t' !! h = blocks t !! h)
  /\ add_block rec t' = t'
  /\ (tree_ok t -> tree_ok t').
Proof.
  cbn zeta. unfold add_block.
  destruct (blocks t !! hash rec) as [old|] eqn:Hold.
  - cbn [default from_option id]. split; [exact Hold|]. split; [reflexivity|].
    split; [rewrite Hold; reflexivity|]. intros H. exact H.
  - cbn [blocks children default from_option id]. rewrite lookup_insert_eq.
    split; [reflexivity|].
    split; [intros h Hne; apply lookup_insert_ne; congruence|].
    split; [reflexivity|].
    intros (Hkey & Hchild & Hnd). unfold tree_ok. cbn [blocks children].
    split; [|split].
    + intros h r Hr. destruct (decide (h = hash rec)) as [->|Hne].
      * rewrite lookup_insert_eq in Hr. congruence.
      * rewrite lookup_insert_ne in Hr by congruence. apply Hkey, Hr.
    + intros p h. destruct (decide (p = parent rec)) as [->|Hp].
      * rewrite lookup_insert_eq. cbn [default from_option id]. rewrite elem_of_app, Hchild.
        rewrite list_elem_of_singleton. split.
        -- intros [(r & Hr & Hpr)| ->].
           ++ exists r. split; [|exact Hpr].
              rewrite lookup_insert_ne; [exact Hr|]. intros <-. congruence.
           ++ exists rec. rewrite lookup_insert_eq. auto.
        -- intros (r & Hr & Hpr). destruct (decide (h = hash rec)) as [->|Hne].
           ++ right. reflexivity.
           ++ left. rewrite lookup_insert_ne in Hr by congruence. eauto.
      * rewrite lookup_insert_ne by congruence. rewrite Hchild. split.
        -- intros (r & Hr & Hpr). exists r. split; [|exact Hpr].
           rewrite lookup_insert_ne; [exact Hr|]. intros <-. congruence.
        -- intros (r & Hr & Hpr). exists r. split; [|exact Hpr].
           destruct (decide (h = hash rec)) as [->|Hne].
           ++ rewrite lookup_insert_eq in Hr. congruence.
           ++ rewrite lookup_insert_ne in Hr by congruence. exact Hr.
    + intros p. destruct (decide (p = parent rec)) as [->|Hp].
      * rewrite lookup_insert_eq. cbn [default from_option id]. apply NoDup_app.
        split; [apply Hnd|]. split; [|apply NoDup_singleton].
        intros h Hh Hs. apply list_elem_of_singleton in Hs as ->.
        apply Hchild in Hh as (r & Hr & _). congruence.
      * rewrite lookup_insert_ne by congruence. apply Hnd.
Qed.

(** *** The walks towards the root *)

(** [ancestor_chain]: the hashes from [cur] towards the root, up to
    [stop_at]; [None] when the fuel runs out. *)
Fixpoint ancestor_chain_from (n : nat) (t : BlockTree)
    (cur : option string) (stop_at : option string) : option (list string) :=
  match n with
  | O => None
  | S n' =>
      if truthy cur && negb (bool_decide (cur = stop_at)) then
        rest ← ancestor_chain_from n' t (cur ≫= parent_of t) stop_at;
        Some (option_list cur ++ rest)
      else Some []
  end.

Definition ancestor_chain (n : nat) (t : BlockTree) (block_hash : string)
    (stop_at : option string) : option (list string) :=
  ancestor_chain_from n t (Some block_hash) stop_at.

(** A block with a sibling: its parent has more than one child. *)
Definition has_sibling (t : BlockTree) (h : string) : bool :=
  match parent_of t h with
  | Some p => (1 <? length (default [] (children t !! Some p)))%nat
  | None => false
  end.

Lemma finalized_ancestor_chain (t : BlockTree) (f : string) :
  forall n cur chain,
    ancestor_chain_from n t cur None = Some chain ->
    contains_finalized_ancestor_from n t cur f = Some (bool_decide (f ∈ chain)).
Proof.
  induction n as [|n IH]; intros cur chain H; [discriminate|].
  cbn [ancestor_chain_from contains_finalized_ancestor_from] in *.
  destruct (truthy cur) eqn:Ht.
  - destruct cur as [h|]; [|discriminate].
    rewrite bool_decide_eq_false_2 in H by discriminate. cbn [andb negb] in H.
    destruct (ancestor_chain_from n t _ None) as [rest|] eqn:Hrest;
      [|discriminate].
    injection H as <-. cbn [option_list app].
    case_bool_decide as Hh.
    + injection Hh as ->. rewrite bool_decide_eq_true_2 by left. reflexivity.
    + rewrite (IH _ _ Hrest). f_equal. apply bool_decide_ext.
      rewrite elem_of_cons. split; [auto|]. intros [->|Hin]; [congruence|exact Hin].
  - injection H as <-. rewrite bool_decide_eq_false_2 by apply not_elem_of_nil.
    reflexivity.
Qed.

Lemma equivocation_chain (t : BlockTree) (finalized_hash : option string) :
  forall n cur chain,
    ancestor_chain_from n t cur finalized_hash = Some chain ->
    contains_equivocation_from n t cur finalized_hash
    = Some (existsb (has_sibling t) chain).
Proof.
  induction n as [|n IH]; intros cur chain H; [discriminate|].
  cbn [ancestor_chain_from contains_equivocation_from] in *.
  destruct (truthy cur && negb (bool_decide (cur = finalized_hash))) eqn:Hc.
  - destruct cur as [h|]; [|discriminate].
    destruct (ancestor_chain_from n t _ finalized_hash) as [rest|] eqn:Hrest;
      [|discriminate].
    injection H as <-. cbn [option_list app existsb mbind option_bind] in *.
    unfold has_sibling at 1.
    destruct (parent_of t h) as [p|] eqn:Hp.
    + destruct (1 <? _)%nat; [reflexivity|]. cbn [orb]. apply IH, Hrest.
    + cbn [orb]. apply IH, Hrest.
  - injection H as <-. reflexivity.
Qed.

(** X22. The two walks of the tree read in terms of [ancestor_chain]: when
    the chain of a block is finite, the finalized hash is an ancestor of the
    block exactly when it occurs in the block's chain to the root, and there is
    an equivocation between the block and the finalized one exactly when a
    block of the chain down to the finalized hash has a parent with more than
    one child.  With no finalized hash every block counts as a descendant. *)
Theorem walks_follow_ancestor_chain (t : BlockTree) (block_hash : string) :
  (forall f chain,
      ancestor_chain fuel t block_hash None = Some chain ->
      contains_finalized_ancestor fuel t block_hash (Some f)
      = Some (bool_decide (f ∈ chain)))
  /\ (forall finalized_hash chain,
        ancestor_chain fuel t block_hash finalized_hash = Some chain ->
        contains_equivocation_between fuel t block_hash finalized_hash
        = Some (existsb (has_sibling t) chain))
  /\ contains_finalized_ancestor fuel t block_hash None = Some true.
Proof.
  split; [|split].
  - intros f chain H. apply finalized_ancestor_chain, H.
  - intros finalized_hash chain H. apply equivocation_chain, H.
  - reflexivity.
Qed.

(** *** The best head *)

(** A block the node may vote for. *)
Definition votable (t : BlockTree) (finalized_hash : option string)
    (rec : block) : Prop :=
  audited rec = true
  /\ contains_finalized_ancestor fuel t (hash rec) finalized_hash = Some true
  /\ contains_equivocation_between fuel t (hash rec) finalized_hash = Some false.

Lemma string_compare_lt_trans (a b c : string) :
  String.compare a b = Lt -> String.compare b c = Lt -> String.compare a c = Lt.
Proof.
  revert b c. induction a as [|x a IH]; intros [|y b] [|z c]; cbn;
    try discriminate; try reflexivity.
  unfold Ascii.compare.
  destruct (N.compare_spec (N_of_ascii x) (N_of_ascii y)) as [Hxy|Hxy|Hxy];
    destruct (N.compare_spec (N_of_ascii y) (N_of_ascii z)) as [Hyz|Hyz|Hyz];
    try discriminate; intros H1 H2.
  - rewrite Hxy, Hyz, N.compare_refl. eapply IH; eassumption.
  - rewrite Hxy. apply N.compare_lt_iff in Hyz. rewrite Hyz. reflexivity.
  - rewrite <- Hyz. apply N.compare_lt_iff in Hxy. rewrite Hxy. reflexivity.
  - assert (N_of_ascii x < N_of_ascii z)%N as Hxz by lia.
    apply N.compare_lt_iff in Hxz. rewrite Hxz. reflexivity.
Qed.

Lemma better_trans (a b c : block) :
  better a b = true -> better b c = true -> better a c = true.
Proof.
  unfold better. intros Hab Hbc.
  apply orb_true_iff in Hab as [Hab|Hab]; apply orb_true_iff in Hbc as [Hbc|Hbc];
    try apply andb_true_iff in Hab as [Hab Hab'];
    try apply andb_true_iff in Hbc as [Hbc Hbc'];
    try apply Z.ltb_lt in Hab; try apply Z.ltb_lt in Hbc;
    try apply Z.eqb_eq in Hab; try apply Z.eqb_eq in Hbc;
    apply orb_true_iff.
  - left. apply Z.ltb_lt. lia.
  - left. apply Z.ltb_lt. lia.
  - left. apply Z.ltb_lt. lia.
  - right. apply andb_true_iff. split; [apply Z.eqb_eq; lia|].
    destruct (String.compare (hash a) (hash b)) eqn:H1; try discriminate.
    destruct (String.compare (hash b) (hash c)) eqn:H2; try discriminate.
    rewrite (string_compare_lt_trans _ _ _ H1 H2). reflexivity.
Qed.

Lemma better_irrefl (a : block) : better a a = false.
Proof.
  unfold better. rewrite Z.ltb_irrefl, Z.eqb_refl. cbn.
  destruct (String.compare (hash a) (hash a)) eqn:H; try reflexivity.
  pose proof (String.compare_antisym (hash a) (hash a)) as Ha.
  rewrite H in Ha. discriminate.
Qed.

Lemma best_of_list (t : BlockTree) (finalized_hash : option string) :
  forall (l : list block) (res : option block),
    foldr (fun rec acc =>
             best ← acc;
             if negb (audited rec) then Some best
             else
               anc ← contains_finalized_ancestor fuel t (hash rec) finalized_hash;
               if negb (anc : bool) then Some best
               else
                 forked ← contains_equivocation_between fuel t (hash rec)
                                                        finalized_hash;
                 if (forked : bool) then Some best
                 else
                   match best with
                   | None => Some (Some rec)
                   | Some b => Some (Some (if better b rec then rec else b))
                   end)
          (Some None) l = Some res ->
    match res with
    | Some b =>
        b ∈ l /\ votable t finalized_hash b
        /\ forall c, c ∈ l -> votable t finalized_hash c -> better b c = false
    | None => forall c, c ∈ l -> ~ votable t finalized_hash c
    end.
Proof.
  induction l as [|rec l IH]; intros res H; cbn [foldr] in H.
  - injection H as <-. intros c Hc. inversion Hc.
  - destruct (foldr _ (Some None) l) as [best|] eqn:Hfold; [|discriminate].
    specialize (IH best eq_refl). cbn [mbind option_bind] in H.
    assert (~ votable t finalized_hash rec -> res = best ->
            match res with
            | Some b =>
                b ∈ rec :: l /\ votable t finalized_hash b
                /\ forall c, c ∈ rec :: l -> votable t finalized_hash c ->
                             better b c = false
            | None => forall c, c ∈ rec :: l -> ~ votable t finalized_hash c
            end) as Hskip.
    { intros Hnot ->. destruct best as [b|].
      - destruct IH as (Hb & Hv & Hmax). split; [right; exact Hb|].
        split; [exact Hv|]. intros c Hc Hvc.
        apply elem_of_cons in Hc as [->|Hc]; [contradiction|auto].
      - intros c Hc Hvc. apply elem_of_cons in Hc as [->|Hc];
          [contradiction|exact (IH c Hc Hvc)]. }
    destruct (audited rec) eqn:Haud; cbn [negb] in H.
    2: { injection H as <-. apply Hskip; [|reflexivity].
         intros (Ha & _). congruence. }
    destruct (contains_finalized_ancestor fuel t (hash rec) finalized_hash)
      as [anc|] eqn:Hanc; [|discriminate]. cbn [mbind option_bind] in H.
    destruct anc; cbn [negb] in H.
    2: { injection H as <-. apply Hskip; [|reflexivity].
         intros (_ & Ha & _). congruence. }
    destruct (contains_equivocation_between fuel t (hash rec) finalized_hash)
      as [forked|] eqn:Hfork; [|discriminate]. cbn [mbind option_bind] in H.
    destruct forked.
    { injection H as <-. apply Hskip; [|reflexivity].
      intros (_ & _ & Ha). congruence. }
    assert (votable t finalized_hash rec) as Hvrec by (repeat split; assumption).
    destruct best as [b|]; injection H as <-.
    + destruct IH as (Hb & Hv & Hmax).
      destruct (better b rec) eqn:Hbr.
      * split; [left|]. split; [exact Hvrec|]. intros c Hc Hvc.
        apply elem_of_cons in Hc as [->|Hc]; [apply better_irrefl|].
        destruct (better rec c) eqn:Hrc; [|reflexivity].
        rewrite <- (Hmax c Hc Hvc). symmetry. eapply better_trans; eassumption.
      * split; [right; exact Hb|]. split; [exact Hv|]. intros c Hc Hvc.
        apply elem_of_cons in Hc as [->|Hc]; [exact Hbr|auto].
    + split; [left|]. split; [exact Hvrec|]. intros c Hc Hvc.
      apply elem_of_cons in Hc as [->|Hc]; [apply better_irrefl|].
      exfalso. exact (IH c Hc Hvc).
Qed.

(** X23. The head [best_chain_head] returns is a record of the tree that is
    audited, descends from the finalized block and has no equivocation on
    the way to it, and no other such record of the tree is higher, or as high
    with a larger hash.  It returns no head only when no record of the tree
    qualifies. *)
Theorem best_head_is_best (t : BlockTree) (finalized_hash : option string)
    (res : option block) :
  best_chain_head fuel t finalized_hash = Some res ->
  match res with
  | Some b =>
      (exists h, blocks t !! h = Some b)
      /\ votable t finalized_hash b
      /\ forall h c, blocks t !! h = Some c -> votable t finalized_hash c ->
                     better b c = false
  | None => forall h c, blocks t !! h = Some c -> ~ votable t finalized_hash c
  end.
Proof.
  unfold best_chain_head. intros H. apply best_of_list in H.
  assert (forall c, c ∈ map snd (map_to_list (blocks t))
                    <-> exists h, blocks t !! h = Some c) as Hin.
  { intros c. change (map snd ?l) with (snd <$> l). rewrite list_elem_of_fmap.
    split.
    - intros ([h c'] & -> & Hc). apply elem_of_map_to_list in Hc. eauto.
    - intros (h & Hc). exists (h, c). split; [reflexivity|].
      apply elem_of_map_to_list, Hc. }
  destruct res as [b|].
  - destruct H as (Hb & Hv & Hmax). split; [apply Hin, Hb|]. split; [exact Hv|].
    intros h c Hc. apply Hmax, Hin. eauto.
  - intros h c Hc. apply H, Hin. eauto.
Qed.

(** *** The votes of a round *)

Lemma prevote_candidate_sound (e : engine) (prevotes : list VoteMsg) (c : string) :
  prevote_candidate e prevotes = Some c ->
  (threshold e <= occurrences (Some c) (map block_hash prevotes))%nat.
Proof.
  unfold prevote_candidate. intros H.
  destruct (most_common1 _) as [[[k|] votes]|] eqn:Hmc; try discriminate.
  destruct (Nat.leb_spec (threshold e) votes); [|discriminate].
  injection H as ->. apply most_common1_counter in Hmc as [-> _]. assumption.
Qed.

(** X24. The node prevotes the best head of its tree and precommits a
    block only if that block has a supermajority among the prevotes it
    collected, its own included; the precommits it tallies are those it
    received with its own, signed vote of this round between them. *)
Theorem own_votes_of_a_round (e : engine) (t : BlockTree)
    (pvb pva pcb pca precommits : list VoteMsg) :
  round_precommits e t pvb pva pcb pca = Some precommits ->
  exists head my_prevote my_pc,
    best_chain_head fuel t (finalized e) = Some head
    /\ my_prevote = my_vote (round e) "prevote" (hash <$> head)
    /\ block_hash my_prevote = hash <$> head
    /\ precommits = pcb ++ [my_pc] ++ pca
    /\ validator my_pc = node_id /\ stage my_pc = "precommit"
    /\ vote_round my_pc = round e
    /\ sig_ed25519_b64 my_pc
       = sign_ed25519 (vote_message_canonical (round e) "precommit"
                         (block_hash my_pc) (block_height my_pc)
                         (vote_state_root my_pc))
    /\ forall c, block_hash my_pc = Some c ->
         (threshold e
          <= occurrences (Some c)
               (map block_hash (pvb ++ [my_prevote] ++ pva)))%nat.
Proof.
  unfold round_precommits. intros H.
  destruct (best_chain_head fuel t (finalized e)) as [head|]; [|discriminate].
  cbn [mbind option_bind] in H. injection H as <-.
  eexists head, _, _. split; [reflexivity|]. split; [reflexivity|].
  split; [reflexivity|]. split; [reflexivity|].
  cbn [validator stage vote_round sig_ed25519_b64 block_hash block_height
       vote_state_root my_vote].
  repeat (split; [reflexivity|]).
  intros c Hc. apply prevote_candidate_sound, Hc.
Qed.

(** X25. The engine's threshold is more than two thirds of the validators,
    so among at most as many votes as there are validators no two blocks
    reach it. *)
Theorem one_supermajority (vs : list Z) :
  (2 * length vs < 3 * threshold (new_engine vs))%nat
  /\ forall (votes : list VoteMsg) (b1 b2 : string),
       (length votes <= length vs)%nat ->
       (threshold (new_engine vs) <= precommits_for b1 votes)%nat ->
       (threshold (new_engine vs) <= precommits_for b2 votes)%nat ->
       b1 = b2.
Proof.
  cbn [new_engine threshold].
  pose proof (Nat.div_mod_eq (2 * length vs) 3) as Hd.
  pose proof (Nat.mod_upper_bound (2 * length vs) 3) as Hm.
  split; [lia|]. intros votes b1 b2 Hlen H1 H2.
  destruct (decide (b1 = b2)) as [|Hne]; [assumption|]. exfalso.
  unfold precommits_for in *.
  pose proof (occurrences_two (Some b1) (Some b2) (map block_hash votes)) as H.
  rewrite length_map in H. specialize (H ltac:(congruence)). lia.
Qed.

(** *** Who voted does not matter *)

Lemma prevote_candidate_hashes (e : engine) (l l' : list VoteMsg) :
  map block_hash l = map block_hash l' ->
  prevote_candidate e l = prevote_candidate e l'.
Proof. unfold prevote_candidate. intros ->. reflexivity. Qed.

Lemma precommit_final_hashes (e : engine) (t : BlockTree) (l l' : list VoteMsg) :
  map block_hash l = map block_hash l' ->
  precommit_final e t l = precommit_final e t l'.
Proof. unfold precommit_final. intros ->. reflexivity. Qed.

(** X26. The tallies count messages by their block hash and read nothing
    else of them: if the votes received are replaced by votes with the same
    block hashes in the same order, whoever they name as validator and
    whatever their signatures, the round finalizes the same block and leaves
    the engine in the same state. *)
Theorem tally_ignores_voters (e : engine) (t : BlockTree)
    (pvb pva pcb pca pvb' pva' pcb' pca' : list VoteMsg) :
  map block_hash pvb = map block_hash pvb' ->
  map block_hash pva = map block_hash pva' ->
  map block_hash pcb = map block_hash pcb' ->
  map block_hash pca = map block_hash pca' ->
  (fun r => (r.1.1, r.2)) <$> run_round e t pvb pva pcb pca
  = (fun r => (r.1.1, r.2)) <$> run_round e t pvb' pva' pcb' pca'.
Proof.
  intros Hvb Hva Hcb Hca. unfold run_round, round_precommits.
  destruct (best_chain_head fuel t (finalized e)) as [head|]; [|reflexivity].
  cbn [mbind option_bind].
  rewrite (prevote_candidate_hashes e
             (pvb ++ [my_vote (round e) "prevote" (hash <$> head)] ++ pva)
             (pvb' ++ [my_vote (round e) "prevote" (hash <$> head)] ++ pva'))
    by (rewrite !map_app, Hvb, Hva; reflexivity).
  set (my_pc := my_vote (round e) "precommit" _).
  rewrite (precommit_final_hashes e t (pcb ++ [my_pc] ++ pca)
                                  (pcb' ++ [my_pc] ++ pca'))
    by (rewrite !map_app, Hcb, Hca; reflexivity).
  destruct (precommit_final e t _) as [final_bh|]; [|reflexivity].
  cbn [mbind option_bind fmap option_fmap option_map].
  unfold conclude. destruct (truthy final_bh); reflexivity.
Qed.

End WithKeys.

(** *** Concrete runs: the static chain of the module, five validators *)

Definition hash_00 : string := Safrole.string_mul "00" 32.
Definition hash_a1 : string := Safrole.string_mul "a1" 32.
Definition hash_a4 : string := Safrole.string_mul "a4" 32.
Definition hash_b4 : string := Safrole.string_mul "b4" 32.

Definition STATIC_CHAIN : list block :=
  [mkBlock hash_00 None 0 "root0" 0 (-1) true true;
   mkBlock hash_a1 (Some hash_00) 1 "s1" 1 1 true true;
   mkBlock hash_a4 (Some hash_a1) 2 "s2" 2 2 true true].

Definition static_tree : BlockTree :=
  foldl (fun t rec => add_block rec t) (mkTree ∅ ∅) STATIC_CHAIN.
Definition static_by_hash : gmap string block :=
  list_to_map (map (fun b => (hash b, b)) STATIC_CHAIN).

(** A sibling of the head: two children of [hash_a1]. *)
Definition sibling : block := mkBlock hash_b4 (Some hash_a1) 2 "s2b" 2 0 true true.
Definition forked_tree : BlockTree := add_block sibling static_tree.
Definition forked_by_hash : gmap string block := <[hash_b4 := sibling]> static_by_hash.

Definition sample_sign (msg : string) : string := "signed:" +:+ msg.
Definition five : engine := new_engine [0; 1; 2; 3; 4].

Definition peer_votes (stage : string) (bh : string) (peers : list Z) : list VoteMsg :=
  map (fun i => mkVote 0 stage (Some bh) (Some 2) (Some "s2") i "peer-signature")
      peers.



(** Scenario S7: the same votes for a head that has a sibling end the round
    with no finalisation, the finalized pointer unmoved. *)
Example equivocation_cancels_round :
  run_round 0 sample_sign 8 forked_by_hash five forked_tree
    (peer_votes "prevote" hash_a4 [1; 2; 3; 4]) []
    (peer_votes "precommit" hash_a4 [1; 2; 3; 4]) []
  = Some (None, None, mkEngine [0; 1; 2; 3; 4] 1 4 None).
Proof. vm_compute. reflexivity. Qed.

Example best_head_is_best_witness :
  exists b,
    best_chain_head 8 static_tree None = Some (Some b)
    /\ hash b = hash_a4
    /\ votable 8 static_tree None b.
Proof.
  assert (exists b, best_chain_head 8 static_tree None = Some (Some b)
                    /\ hash b = hash_a4) as (b & Hb & Hh).
  { eexists. vm_compute. split; reflexivity. }
  exists b. split; [exact Hb|]. split; [exact Hh|].
  exact (proj1 (proj2 (best_head_is_best 8 static_tree None (Some b) Hb))).
Defined.

Example own_votes_of_a_round_witness :
  exists precommits my_pc,
    round_precommits 0 sample_sign 8 static_by_hash five static_tree
      [] (peer_votes "prevote" hash_a4 [1; 2; 3])
      [] (peer_votes "precommit" hash_a4 [1; 2; 3]) = Some precommits
    /\ precommits = [my_pc] ++ peer_votes "precommit" hash_a4 [1; 2; 3]
    /\ validator my_pc = 0.
Proof.
  assert (exists precommits,
             round_precommits 0 sample_sign 8 static_by_hash five static_tree
               [] (peer_votes "prevote" hash_a4 [1; 2; 3])
               [] (peer_votes "precommit" hash_a4 [1; 2; 3]) = Some precommits)
    as (precommits & H).
  { eexists. vm_compute. reflexivity. }
  destruct (own_votes_of_a_round 0 sample_sign 8 static_by_hash five static_tree
              _ _ _ _ precommits H)
    as (head & my_prevote & my_pc & _ & _ & _ & Hpc & Hv & _).
  exists precommits, my_pc. split; [exact H|]. split; [exact Hpc|exact Hv].
Defined.

(** The votes of one peer, sent three times, finalize like the votes of
    three peers. *)
Example tally_ignores_voters_witness :
  (fun r => (r.1.1, r.2))
    <$> run_round 0 sample_sign 8 static_by_hash five static_tree
          [] (peer_votes "prevote" hash_a4 [1; 1; 1])
          [] (peer_votes "precommit" hash_a4 [1; 1; 1])
  = Some (Some hash_a4, mkEngine [0; 1; 2; 3; 4] 1 4 (Some hash_a4)).
Proof.
  rewrite (tally_ignores_voters 0 sample_sign 8 static_by_hash five static_tree
             [] (peer_votes "prevote" hash_a4 [1; 1; 1])
             [] (peer_votes "precommit" hash_a4 [1; 1; 1])
             [] (peer_votes "prevote" hash_a4 [1; 2; 3])
             [] (peer_votes "precommit" hash_a4 [1; 2; 3]))
    by reflexivity.
  vm_compute. reflexivity.
Defined.

End Grandpa.

(* ===================================================================== *)
(** ** Preimages STF: Jam-preimages/src/stf/run_test.py *)
(* ===================================================================== *)

Module Preimages.
Import Py.

(** types/preimage_types.py *)
Record StatisticsRecord := mkRecord {
  provided_count : Z;
  provided_size : Z;
  refinement_count : Z;
  refinement_gas_used : Z;
  imports : Z;
  exports : Z;
  extrinsic_size : Z;
  extrinsic_count : Z;
  accumulate_count : Z;
  accumulate_gas_used : Z;
  on_transfers_count : Z;
  on_transfers_gas_used : Z }.

Record LookupMetaMapKey := mkKey { key_hash : string; key_length : Z }.
Record LookupMetaMapEntry := mkMeta { key : LookupMetaMapKey; value : list Z }.
Record PreimagesMapEntry := mkPreimage { hash : string; blob : string }.
Record PreimagesAccountMapData := mkData {
  preimages : list PreimagesMapEntry;
  lookup_meta : list LookupMetaMapEntry }.
Record PreimagesAccountMapEntry := mkAccount {
  id : Z;
  data : PreimagesAccountMapData }.
Record ServicesStatisticsEntry := mkStats { stats_id : Z; record : StatisticsRecord }.
Record PreimagesState := mkState {
  accounts : list PreimagesAccountMapEntry;
  statistics : list ServicesStatisticsEntry }.
Record PreimageInput := mkPreimageInput { requester : Z; in_blob : string }.
Record PreimagesInput := mkInput { in_preimages : list PreimageInput; slot : Z }.
Record PreimagesTestVector := mkVector {
  name : string;
  input : PreimagesInput;
  pre_state : PreimagesState;
  output_err : option string }.

(** What [run_preimage_test] reports of the state. *)
Record test_result := mkResult {
  generated_post_state : option PreimagesState;
  verified : bool;
  error : option string }.

(** [str.lower] on ASCII. *)
Definition lower_char (c : ascii) : ascii :=
  let n := N_of_ascii c in
  if ((65 <=? n) && (n <=? 90))%N then ascii_of_N (n + 32) else c.
Fixpoint lower (s : string) : string :=
  match s with
  | EmptyString => EmptyString
  | String c r => String (lower_char c) (lower r)
  end.

(** [s.zfill(n)] on strings of digits. *)
Definition zfill (n : nat) (s : string) : string :=
  Safrole.string_mul "0" (n - String.length s) +:+ s.

Definition string_ltb (a b : string) : bool :=
  match String.compare a b with Lt => true | _ => false end.

(** [is_sorted] on a list of requesters. *)
Fixpoint is_sorted_ints (arr : list Z) : bool :=
  match arr with
  | a :: (b :: _) as rest => if b <? a then false else is_sorted_ints rest
  | _ => true
  end.

(** [is_sorted] on a list of hashes, all of which start with ["0x"]. *)
Fixpoint is_sorted_hashes (arr : list string) : bool :=
  match arr with
  | a :: (b :: _) as rest =>
      let prev_hash := lower (drop2 a) in
      let curr_hash := lower (drop2 b) in
      let max_len := Nat.max (String.length prev_hash) (String.length curr_hash) in
      if string_ltb (zfill max_len curr_hash) (zfill max_len prev_hash)
      then false else is_sorted_hashes rest
  | _ => true
  end.

Definition empty_record : StatisticsRecord := mkRecord 0 0 0 0 0 0 0 0 0 0 0 0.

Definition add_provided (size : Z) (r : StatisticsRecord) : StatisticsRecord :=
  mkRecord (provided_count r + 1) (provided_size r + size)
           (refinement_count r) (refinement_gas_used r) (imports r) (exports r)
           (extrinsic_size r) (extrinsic_count r) (accumulate_count r)
           (accumulate_gas_used r) (on_transfers_count r)
           (on_transfers_gas_used r).

(** The size the statistics add: half the hex digits of the blob. *)
Definition blob_size (blob : string) : Z :=
  if startswith_0x blob then (Z.of_nat (String.length blob) - 2) / 2
  else Z.of_nat (String.length blob) / 2.

Section WithHash.
Variable blake2b_256 : list byte -> list byte.

Definition hash_blob (blob : string) : result string :=
  bytes_data ← bytes_fromhex (if startswith_0x blob then drop2 blob else blob);
  Ok ("0x" +:+ bytes_hex (blake2b_256 bytes_data)).

(** [check_input], as far as its first result goes: is the input valid.
    The error code it pairs with it is only printed. *)
Definition check_input (test : PreimagesTestVector) : result bool :=
  let is_order_check_test :=
    Assurances.string_contains "order_check" (lower (name test))
    || bool_decide (output_err test = Some "preimages_not_sorted_unique") in
  let ps := in_preimages (input test) in
  match ps with
  | [] => Ok true
  | _ =>
      hashed ← mapM (fun p => h ← hash_blob (in_blob p); Ok (requester p, h)) ps;
      if has_duplicates hashed then Ok false
      else if negb (is_sorted_ints (map requester ps)) && is_order_check_test
      then Ok false
      else if is_order_check_test
              && existsb (fun r =>
                            let hash_list :=
                              map snd (filter (fun rh => rh.1 = r) hashed) in
                            negb (is_sorted_hashes hash_list)
                            || (1 <? length hash_list)%nat)
                         (remove_dups (map fst hashed))
      then Ok false
      else Ok true
  end.

(** The index of the last account with the requester's id. *)
Definition find_account (requester : Z) (accounts : list PreimagesAccountMapEntry)
    : option nat :=
  foldl (fun found '(i, acc) => if id acc =? requester then Some i else found)
        None (imap (fun i acc => (i, acc)) accounts).

Definition same_hash (a b : string) : bool := String.eqb (lower a) (lower b).

(** The update of [lookup_meta] on admission: every entry with the hash
    gains the slot, unless it holds it. *)
Definition gain_slot (slot : Z) (hash_value : string) (e : LookupMetaMapEntry)
    : LookupMetaMapEntry :=
  if same_hash (key_hash (key e)) hash_value then
    if bool_decide (slot ∈ value e) then e
    else mkMeta (key e) (value e ++ [slot])
  else e.

Definition bump_statistics (requester : Z) (blob : string)
    (statistics : list ServicesStatisticsEntry) : list ServicesStatisticsEntry :=
  match list_find (fun st => stats_id st = requester) statistics with
  | Some (i, st) =>
      <[i := mkStats (stats_id st) (add_provided (blob_size blob) (record st))]>
        statistics
  | None =>
      statistics
      ++ [mkStats requester (add_provided (blob_size blob) empty_record)]
  end.

(** "Find or create account": the accounts after this step and the index
    of the requester's account among them. *)
Definition locate (requester : Z) (accounts : list PreimagesAccountMapEntry)
    : list PreimagesAccountMapEntry * nat :=
  match find_account requester accounts with
  | Some i => (accounts, i)
  | None =>
      (accounts ++ [mkAccount requester (mkData [] [])], length accounts)
  end.

(** The body of the loop over the preimages, on [new_state]. *)
Definition provide (slot : Z) (new_state : PreimagesState) (p : PreimageInput)
    : result PreimagesState :=
  hash_value ← hash_blob (in_blob p);
  let '(accounts1, i) := locate (requester p) (accounts new_state) in
  match accounts1 !! i with
  | None => Ok (mkState accounts1 (statistics new_state))
  | Some account =>
      let preimage_exists :=
        existsb (fun q => same_hash (hash q) hash_value)
                (preimages (data account)) in
      let found_in_lookup_meta :=
        existsb (fun e => same_hash (key_hash (key e)) hash_value)
                (lookup_meta (data account)) in
      if preimage_exists || negb found_in_lookup_meta
      then Ok (mkState accounts1 (statistics new_state))
      else
        let preimages' :=
          sort_by (fun q => encode (lower (hash q)))
                  (preimages (data account)
                   ++ [mkPreimage hash_value (in_blob p)]) in
        let lookup_meta' :=
          map (gain_slot slot hash_value) (lookup_meta (data account)) in
        Ok (mkState
              (<[i := mkAccount (id account) (mkData preimages' lookup_meta')]>
                 accounts1)
              (bump_statistics (requester p) (in_blob p) (statistics new_state)))
  end.

Fixpoint provide_all (slot : Z) (new_state : PreimagesState)
    (ps : list PreimageInput) : result PreimagesState :=
  match ps with
  | [] => Ok new_state
  | p :: rest =>
      s ← provide slot new_state p;
      provide_all slot s rest
  end.

Definition crashed (msg : string) : test_result := mkResult None false (Some msg).

(** [run_preimage_test].  An input found invalid outside an order-check
    vector reaches [str(error)], a name the function never binds. *)
Definition run_preimage_test (test : PreimagesTestVector) : test_result :=
  match check_input test with
  | Raise _ => crashed "Test execution failed"
  | Ok is_valid =>
      let is_order_check_test :=
        String.prefix "preimages_order_check" (name test) in
      if is_order_check_test && negb is_valid
      then mkResult (Some (pre_state test)) true None
      else if negb is_valid
      then crashed "Test execution failed: name 'error' is not defined"
      else if bool_decide (output_err test = Some "preimage_unneeded")
      then mkResult (Some (pre_state test)) true None
      else
        match provide_all (slot (input test)) (pre_state test)
                          (in_preimages (input test)) with
        | Ok new_state => mkResult (Some new_state) true None
        | Raise _ => mkResult None false (Some "Error processing test")
        end
  end.

(** *** Admission *)

Lemma find_account_snoc (r : Z) (l : list PreimagesAccountMapEntry) a :
  find_account r (l ++ [a])
  = if id a =? r then Some (length l) else find_account r l.
Proof.
  unfold find_account. rewrite imap_app, foldl_app. cbn.
  rewrite Nat.add_0_r. reflexivity.
Qed.

Lemma find_account_some (r : Z) (l : list PreimagesAccountMapEntry) (i : nat) :
  find_account r l = Some i ->
  exists a, l !! i = Some a /\ id a = r
            /\ forall j b, (i < j)%nat -> l !! j = Some b -> id b <> r.
Proof.
  revert i. induction l as [|a l IH] using rev_ind; intros i; [discriminate|].
  rewrite find_account_snoc. destruct (Z.eqb_spec (id a) r) as [Heq|Hne].
  - intros [= <-]. exists a. split; [apply list_lookup_middle; reflexivity|].
    split; [exact Heq|]. intros j b Hj Hb.
    apply lookup_lt_Some in Hb. rewrite length_app in Hb. cbn in Hb. lia.
  - intros Hi. destruct (IH i Hi) as (a' & Ha' & Hid & Hlast).
    exists a'. split; [apply lookup_app_l_Some, Ha'|]. split; [exact Hid|].
    intros j b Hj Hb. destruct (decide (j < length l)%nat) as [Hlt|Hge].
    + rewrite lookup_app_l in Hb by exact Hlt. eauto.
    + apply lookup_lt_Some in Hb as Hb'. rewrite length_app in Hb'. cbn in Hb'.
      assert (j = length l) as -> by lia.
      rewrite list_lookup_middle in Hb by reflexivity. congruence.
Qed.

Lemma locate_spec (r : Z) (l : list PreimagesAccountMapEntry) :
  exists a, (locate r l).1 !! (locate r l).2 = Some a /\ id a = r
            /\ ((locate r l).1 = l
                \/ (locate r l).1 = l ++ [mkAccount r (mkData [] [])]).
Proof.
  unfold locate. destruct (find_account r l) as [i|] eqn:Hf.
  - destruct (find_account_some r l i Hf) as (a & Ha & Hid & _).
    exists a. cbn. auto.
  - eexists. cbn. split; [apply list_lookup_middle; reflexivity|]. auto.
Qed.

Definition held (h : string) (a : PreimagesAccountMapEntry) : Prop :=
  exists q, q ∈ preimages (data a) /\ lower (hash q) = lower h.

Lemma existsb_elem {A} (f : A -> bool) (l : list A) :
  existsb f l = true <-> exists x, x ∈ l /\ f x = true.
Proof.
  rewrite existsb_exists. split; intros (x & Hx & Hf); exists x;
    (split; [apply list_elem_of_In, Hx|exact Hf]).
Qed.

Lemma same_hash_eq (a b : string) : same_hash a b = true <-> lower a = lower b.
Proof. unfold same_hash. apply String.eqb_eq. Qed.




(** *** The hashes [hash_blob] returns *)

Lemma lower_bytes_hex (b : list byte) : lower (bytes_hex b) = bytes_hex b.
Proof.
  induction b as [|x b IH]; [reflexivity|].
  cbn [bytes_hex lower]. rewrite IH. destruct x; reflexivity.
Qed.

Lemma hash_blob_form (blob h : string) :
  hash_blob blob = Ok h -> exists d, h = "0x" +:+ bytes_hex d.
Proof.
  unfold hash_blob. intros H.
  destruct (bytes_fromhex _) as [bs|e]; [|discriminate].
  injection H as <-. eauto.
Qed.

(** X27. A hash computed by [hash_blob] is ["0x"] followed by lower-case
    digits, so that comparing two computed hashes without regard to case, as
    the runner does, is comparing them for equality; the hash of a blob does
    not depend on whether the blob is written with the ["0x"] prefix. *)
Theorem hash_blob_canonical (blob h : string) :
  hash_blob blob = Ok h ->
  lower h = h /\ startswith_0x h = true
  /\ (forall blob' h', hash_blob blob' = Ok h' ->
        (same_hash h h' = true <-> h = h'))
  /\ (startswith_0x blob = false -> hash_blob ("0x" +:+ blob) = Ok h).
Proof.
  intros H. destruct (hash_blob_form _ _ H) as [d ->].
  assert (forall d0, lower ("0x" +:+ bytes_hex d0) = "0x" +:+ bytes_hex d0) as Hl.
  { intros d0.
    change ("0x" +:+ bytes_hex d0) with (String "0" (String "x" (bytes_hex d0))).
    cbn [lower]. rewrite lower_bytes_hex. reflexivity. }
  split; [apply Hl|]. split; [reflexivity|]. split.
  - intros blob' h' H'. destruct (hash_blob_form _ _ H') as [d' ->].
    rewrite same_hash_eq, !Hl. reflexivity.
  - intros Hpre. unfold hash_blob in *.
    change ("0x" +:+ blob) with (String "0" (String "x" blob)).
    cbn [startswith_0x drop2]. rewrite Hpre in H. exact H.
Qed.

(** *** Accounts, found again *)

Lemma find_account_ids (r : Z) :
  forall l l' : list PreimagesAccountMapEntry,
    map id l = map id l' -> find_account r l = find_account r l'.
Proof.
  induction l as [|a l IH] using rev_ind; intros l' H.
  - destruct l'; [reflexivity|discriminate].
  - destruct l' as [|a' l' _] using rev_ind.
    + rewrite map_app in H. destruct (map id l); discriminate.
    + rewrite !map_app in H. cbn [map] in H.
      apply app_inj_tail in H as [Hl Ha].
      rewrite !find_account_snoc, Ha, (IH l' Hl).
      apply (f_equal (@length Z)) in Hl. rewrite !length_map in Hl.
      rewrite Hl. reflexivity.
Qed.

Lemma find_account_insert (r : Z) (l : list PreimagesAccountMapEntry)
    (i : nat) (a a' : PreimagesAccountMapEntry) :
  l !! i = Some a -> id a' = id a ->
  find_account r (<[i := a']> l) = find_account r l.
Proof.
  intros Ha Hid. apply find_account_ids.
  change (map id ?x) with (id <$> x). rewrite list_fmap_insert, Hid.
  apply list_insert_id. rewrite list_lookup_fmap, Ha. reflexivity.
Qed.

Lemma locate_found (r : Z) (l accounts1 : list PreimagesAccountMapEntry) (i : nat) :
  locate r l = (accounts1, i) -> find_account r accounts1 = Some i.
Proof.
  unfold locate. destruct (find_account r l) as [j|] eqn:Hf.
  - intros [= <- <-]. exact Hf.
  - intros [= <- <-]. rewrite find_account_snoc. cbn [id].
    rewrite Z.eqb_refl. reflexivity.
Qed.

(** *** What the loop over the preimages keeps *)

(** The preimages of every account are in increasing order of their
    lower-case hash. *)
Definition preimages_sorted (st : PreimagesState) : Prop :=
  Forall (fun a => StronglySorted (key_le (fun q => encode (lower (hash q))))
                                  (preimages (data a)))
         (accounts st).

(** An account of the second list continues the account at the same place
    of the first: same service, the same lookup keys, no preimage lost. *)
Definition continues (a a' : PreimagesAccountMapEntry) : Prop :=
  id a' = id a
  /\ map key (lookup_meta (data a')) = map key (lookup_meta (data a))
  /\ forall q, q ∈ preimages (data a) -> q ∈ preimages (data a').

Definition extends (st st' : PreimagesState) : Prop :=
  forall i a, accounts st !! i = Some a ->
    exists a', accounts st' !! i = Some a' /\ continues a a'.

Lemma continues_refl (a : PreimagesAccountMapEntry) : continues a a.
Proof. repeat split; auto. Qed.

Lemma extends_trans (s1 s2 s3 : PreimagesState) :
  extends s1 s2 -> extends s2 s3 -> extends s1 s3.
Proof.
  intros H12 H23 i a Ha.
  destruct (H12 i a Ha) as (a2 & Ha2 & Hid2 & Hk2 & Hp2).
  destruct (H23 i a2 Ha2) as (a3 & Ha3 & Hid3 & Hk3 & Hp3).
  exists a3. split; [exact Ha3|]. split; [congruence|]. split; [congruence|].
  auto.
Qed.

Lemma gain_slot_key (slot : Z) (h : string) (e : LookupMetaMapEntry) :
  key (gain_slot slot h e) = key e.
Proof.
  unfold gain_slot. destruct (same_hash _ _); [|reflexivity].
  case_bool_decide; reflexivity.
Qed.

Lemma provide_keeps (slot : Z) (st st1 : PreimagesState) (p : PreimageInput) :
  provide slot st p = Ok st1 ->
  extends st st1
  /\ (preimages_sorted st -> preimages_sorted st1)
  /\ (forall i a, accounts st !! i = Some a -> id a <> requester p ->
        accounts st1 !! i = Some a).
Proof.
  intros H. unfold provide in H.
  destruct (hash_blob (in_blob p)) as [h|e] eqn:Hh; [|discriminate].
  cbn [mbind result_bind] in H.
  destruct (locate_spec (requester p) (accounts st)) as (a0 & Ha0 & Hid0 & Hacc).
  destruct (locate (requester p) (accounts st)) as [accounts1 i] eqn:Hloc.
  cbn [fst snd] in Ha0, Hacc. rewrite Ha0 in H.
  assert (forall j a, accounts st !! j = Some a -> accounts1 !! j = Some a) as Hsame.
  { intros j a Ha. destruct Hacc as [-> | ->]; [exact Ha|].
    apply lookup_app_l_Some, Ha. }
  assert (preimages_sorted st -> Forall
            (fun a => StronglySorted (key_le (fun q => encode (lower (hash q))))
                                     (preimages (data a))) accounts1) as Hsorted1.
  { unfold preimages_sorted. intros Hs. destruct Hacc as [-> | ->]; [exact Hs|].
    apply Forall_app. split; [exact Hs|]. repeat constructor. }
  destruct (existsb _ (preimages (data a0)) || negb _).
  - injection H as <-. split; [|split].
    + intros j a Ha. exists a. split; [apply Hsame, Ha|apply continues_refl].
    + exact Hsorted1.
    + intros j a Ha _. apply Hsame, Ha.
  - injection H as <-. cbn [accounts]. split; [|split].
    + unfold extends. cbn [accounts]. intros j a Ha. apply Hsame in Ha.
      destruct (decide (j = i)) as [->|Hne].
      * rewrite Ha0 in Ha. injection Ha as <-. eexists.
        split; [apply list_lookup_insert_eq; eapply lookup_lt_Some, Ha0|].
        split; [reflexivity|]. cbn [data lookup_meta preimages]. split.
        -- rewrite map_map. apply map_ext. intros e. apply gain_slot_key.
        -- intros q Hq. rewrite sort_by_perm. apply elem_of_app. left. exact Hq.
      * exists a. rewrite list_lookup_insert_ne by congruence.
        split; [exact Ha|apply continues_refl].
    + intros Hs. unfold preimages_sorted. cbn [accounts].
      apply Forall_insert; [apply Hsorted1, Hs|].
      cbn [data preimages]. apply sort_by_sorted.
    + intros j a Ha Hid. apply Hsame in Ha.
      rewrite list_lookup_insert_ne; [exact Ha|].
      intros <-. rewrite Ha0 in Ha. congruence.
Qed.

(** X28. The loop over the preimages only adds: every account of the
    pre-state is found at the same place afterwards, for the same service
    and with the same lookup keys, and holds every preimage it held; an
    account of a service that provides nothing is not touched at all; and if
    the preimages of every account were in increasing order of hash, they
    still are. *)
Theorem provide_all_keeps (slot : Z) (ps : list PreimageInput) :
  forall st st' : PreimagesState,
    provide_all slot st ps = Ok st' ->
    extends st st'
    /\ (preimages_sorted st -> preimages_sorted st')
    /\ (forall i a, accounts st !! i = Some a ->
          id a ∉ map requester ps -> accounts st' !! i = Some a).
Proof.
  induction ps as [|p ps IH]; intros st st' H; cbn [provide_all] in H.
  - injection H as <-. split; [|split]; auto.
    intros i a Ha. exists a. split; [exact Ha|apply continues_refl].
  - destruct (provide slot st p) as [s|e] eqn:Hp; [|discriminate].
    cbn [mbind result_bind] in H.
    destruct (provide_keeps _ _ _ _ Hp) as (He1 & Hs1 & Ho1).
    destruct (IH _ _ H) as (He2 & Hs2 & Ho2).
    split; [eapply extends_trans; eassumption|]. split; [auto|].
    intros i a Ha Hnot. cbn [map] in Hnot. apply not_elem_of_cons in Hnot as [Hne Hnot].
    apply Ho2; [|exact Hnot]. apply Ho1; [exact Ha|exact Hne].
Qed.

(** *** Running the loop on its own post-state *)

(** The loop passes over the preimage: its hash is computed, the requester
    has an account, and the account holds the preimage or did not ask for
    it. *)
Definition passes_over (p : PreimageInput) (st : PreimagesState) : Prop :=
  exists h i a,
    hash_blob (in_blob p) = Ok h
    /\ find_account (requester p) (accounts st) = Some i
    /\ accounts st !! i = Some a
    /\ existsb (fun q => same_hash (hash q) h) (preimages (data a))
       || negb (existsb (fun e => same_hash (key_hash (key e)) h)
                        (lookup_meta (data a))) = true.

Lemma passes_over_fixed (slot : Z) (p : PreimageInput) (st : PreimagesState) :
  passes_over p st -> provide slot st p = Ok st.
Proof.
  intros (h & i & a & Hh & Hf & Ha & Hskip).
  unfold provide. rewrite Hh. cbn [mbind result_bind].
  unfold locate. rewrite Hf, Ha, Hskip. destruct st; reflexivity.
Qed.

Lemma provide_passes (slot : Z) (st st1 : PreimagesState) (p : PreimageInput) :
  provide slot st p = Ok st1 -> passes_over p st1.
Proof.
  intros H. unfold provide in H.
  destruct (hash_blob (in_blob p)) as [h|e] eqn:Hh; [|discriminate].
  cbn [mbind result_bind] in H.
  destruct (locate_spec (requester p) (accounts st)) as (a & Ha & _ & _).
  destruct (locate (requester p) (accounts st)) as [accounts1 i] eqn:Hloc.
  pose proof (locate_found _ _ _ _ Hloc) as Hfound.
  cbn [fst snd] in Ha. rewrite Ha in H.
  destruct (existsb _ (preimages (data a)) || negb _) eqn:Hskip.
  - injection H as <-. exists h, i, a. auto.
  - injection H as <-. eexists h, i, _. split; [exact Hh|]. cbn [accounts].
    split; [rewrite (find_account_insert _ _ _ a) by (assumption || reflexivity);
            exact Hfound|].
    split; [apply list_lookup_insert_eq; eapply lookup_lt_Some, Ha|].
    cbn [data preimages]. apply orb_true_iff. left.
    apply existsb_elem. exists (mkPreimage h (in_blob p)). split.
    + rewrite sort_by_perm. apply elem_of_app. right. left.
    + apply same_hash_eq. reflexivity.
Qed.

(** The services of the accounts after one round: those before it, and the
    requester if it had no account. *)
Lemma provide_ids (slot : Z) (st st1 : PreimagesState) (p : PreimageInput) :
  provide slot st p = Ok st1 ->
  map id (accounts st1)
  = map id (accounts st)
    ++ match find_account (requester p) (accounts st) with
       | Some _ => []
       | None => [requester p]
       end.
Proof.
  intros H. unfold provide in H.
  destruct (hash_blob (in_blob p)) as [h|e] eqn:Hh; [|discriminate].
  cbn [mbind result_bind] in H.
  destruct (locate_spec (requester p) (accounts st)) as (a & Ha & _ & _).
  unfold locate in H, Ha.
  destruct (find_account (requester p) (accounts st)) as [i|] eqn:Hf;
    cbn [fst snd] in Ha; rewrite Ha in H.
  - rewrite app_nil_r. destruct (_ || _).
    + injection H as <-. reflexivity.
    + injection H as <-. cbn [accounts].
      change (map id ?x) with (id <$> x). rewrite list_fmap_insert.
      apply list_insert_id. rewrite list_lookup_fmap, Ha. reflexivity.
  - rewrite list_lookup_middle in Ha by reflexivity. injection Ha as <-.
    cbn in H. injection H as <-. cbn [accounts]. rewrite map_app. reflexivity.
Qed.

Lemma existsb_keys (g : LookupMetaMapKey -> bool) (l l' : list LookupMetaMapEntry) :
  map key l = map key l' ->
  existsb (fun e => g (key e)) l = existsb (fun e => g (key e)) l'.
Proof.
  assert (forall m, existsb (fun e => g (key e)) m = existsb g (map key m)) as Hm.
  { induction m as [|e m IH]; [reflexivity|]. cbn. rewrite IH. reflexivity. }
  intros H. rewrite !Hm, H. reflexivity.
Qed.

Lemma passes_kept (slot : Z) (p q : PreimageInput) (st st' : PreimagesState) :
  passes_over p st -> provide slot st q = Ok st' -> passes_over p st'.
Proof.
  intros (h & i & a & Hh & Hf & Ha & Hskip) Hq.
  destruct (provide_keeps _ _ _ _ Hq) as (Hext & _ & _).
  destruct (Hext i a Ha) as (a' & Ha' & _ & Hkeys & Hpre).
  exists h, i, a'. split; [exact Hh|]. split; [|split; [exact Ha'|]].
  - apply provide_ids in Hq.
    destruct (find_account (requester q) (accounts st)) as [j|] eqn:Hfq.
    + rewrite app_nil_r in Hq. rewrite (find_account_ids _ _ _ Hq). exact Hf.
    + rewrite (find_account_ids _ (accounts st')
                 (accounts st ++ [mkAccount (requester q) (mkData [] [])]))
        by (rewrite map_app; exact Hq).
      rewrite find_account_snoc. cbn [id].
      destruct (Z.eqb_spec (requester q) (requester p)) as [Heq|]; [|exact Hf].
      rewrite Heq in Hfq. congruence.
  - apply orb_true_iff in Hskip as [Hheld|Hnot]; apply orb_true_iff.
    + left. apply existsb_elem in Hheld as (x & Hx & Hs).
      apply existsb_elem. exists x. auto.
    + right.
      rewrite (existsb_keys (fun k => same_hash (key_hash k) h) _ _ Hkeys).
      exact Hnot.
Qed.

Lemma provide_all_passes (slot : Z) (ps : list PreimageInput) :
  forall st st' : PreimagesState,
    provide_all slot st ps = Ok st' ->
    (forall p, passes_over p st -> passes_over p st')
    /\ Forall (fun p => passes_over p st') ps.
Proof.
  induction ps as [|q ps IH]; intros st st' H; cbn [provide_all] in H.
  - injection H as <-. split; [auto|constructor].
  - destruct (provide slot st q) as [s|e] eqn:Hq; [|discriminate].
    cbn [mbind result_bind] in H. destruct (IH _ _ H) as [Hkept Hall].
    split.
    + intros p Hp. apply Hkept. eapply passes_kept; eassumption.
    + constructor; [|exact Hall]. apply Hkept. eapply provide_passes, Hq.
Qed.

Lemma provide_all_fixed (slot : Z) (st : PreimagesState) (ps : list PreimageInput) :
  Forall (fun p => passes_over p st) ps -> provide_all slot st ps = Ok st.
Proof.
  induction 1 as [|p ps Hp _ IH]; [reflexivity|].
  cbn [provide_all]. rewrite (passes_over_fixed slot p st Hp). exact IH.
Qed.

(** X29. Running a vector again on the post-state it produced changes
    nothing: whatever the runner generated as post-state of a vector, it
    generates again when that state is given as the pre-state of the same
    input.  No preimage is admitted twice, no slot added twice and no
    statistics counted twice. *)
Theorem rerun_changes_nothing (test : PreimagesTestVector) (st1 : PreimagesState) :
  generated_post_state (run_preimage_test test) = Some st1 ->
  generated_post_state
    (run_preimage_test (mkVector (name test) (input test) st1 (output_err test)))
  = Some st1.
Proof.
  unfold run_preimage_test.
  change (check_input (mkVector (name test) (input test) st1 (output_err test)))
    with (check_input test).
  cbn [name input pre_state output_err].
  destruct (check_input test) as [is_valid|e]; [|discriminate].
  destruct (String.prefix _ _ && negb is_valid);
    [cbn; intros [= <-]; reflexivity|].
  destruct (negb is_valid); [discriminate|].
  case_bool_decide; [cbn; intros [= <-]; reflexivity|].
  destruct (provide_all _ (pre_state test) _) as [s|e] eqn:Hrun; [|discriminate].
  cbn [generated_post_state]. intros [= ->].
  apply provide_all_passes in Hrun as [_ Hall].
  rewrite (provide_all_fixed _ _ _ Hall). reflexivity.
Qed.

(** *** What [check_input] decides *)

Lemma has_duplicates_nodup `{EqDecision A} (l : list A) :
  has_duplicates l = negb (bool_decide (NoDup l)).
Proof.
  destruct (has_duplicates l) eqn:Hd.
  - symmetry. apply negb_true_iff, bool_decide_eq_false. intros Hn.
    assert (remove_dups l = l) as Heq.
    { clear Hd. induction Hn as [|x l Hx _ IH]; [reflexivity|].
      cbn [remove_dups]. destruct (decide_rel _ x l); [contradiction|].
      rewrite IH. reflexivity. }
    unfold has_duplicates in Hd. rewrite Heq, Nat.eqb_refl in Hd. discriminate.
  - symmetry. apply negb_false_iff, bool_decide_eq_true.
    apply has_duplicates_false, Hd.
Qed.

Lemma hashed_requesters (ps : list PreimageInput) :
  forall hashed,
    mapM (fun p => h ← hash_blob (in_blob p); Ok (requester p, h)) ps = Ok hashed ->
    map fst hashed = map requester ps.
Proof.
  induction ps as [|p ps IH]; intros hashed H; cbn [mapM] in H.
  - injection H as <-. reflexivity.
  - destruct (hash_blob (in_blob p)) as [h|e]; [|discriminate].
    cbn [mbind result_bind mret result_ret] in H.
    destruct (mapM _ ps) as [rest|e]; [|discriminate].
    injection H as <-. cbn [map fst]. rewrite (IH rest eq_refl). reflexivity.
Qed.

(** The requesters are all different exactly when no requester owns two
    entries. *)
Lemma nodup_fst_filter (hashed : list (Z * string)) :
  NoDup (map fst hashed)
  <-> forall r, (length (filter (fun rh => rh.1 = r) hashed) <= 1)%nat.
Proof.
  induction hashed as [|x l IH]; cbn [map].
  - split; [intros _ r; cbn; lia|constructor].
  - rewrite NoDup_cons, IH. split.
    + intros [Hx Hl] r. rewrite filter_cons. case_decide as Hr; [|apply Hl].
      destruct (filter (fun rh => rh.1 = r) l) as [|y l'] eqn:Hf; [cbn; lia|].
      exfalso. apply Hx.
      assert (y ∈ filter (fun rh => rh.1 = r) l) as Hy by (rewrite Hf; left).
      apply list_elem_of_filter in Hy as [Hy1 Hy2].
      change (map fst l) with (fst <$> l). apply list_elem_of_fmap.
      exists y. split; [congruence|exact Hy2].
    + intros H. split.
      * intros Hx. change (map fst l) with (fst <$> l) in Hx.
        apply list_elem_of_fmap in Hx as (y & Hy1 & Hy2).
        specialize (H x.1). rewrite filter_cons, decide_True in H by reflexivity.
        assert (y ∈ filter (fun rh => rh.1 = x.1) l) as Hy
            by (apply list_elem_of_filter; split; [congruence|exact Hy2]).
        destruct (filter (fun rh => rh.1 = x.1) l); [inversion Hy|].
        cbn in H. lia.
      * intros r. specialize (H r). rewrite filter_cons in H.
        case_decide; [cbn in H|]; lia.
Qed.

(** The order of the hashes of a requester never decides: a requester
    with two entries is turned down whether its hashes are in order or not,
    and the hashes of a requester with one entry are in order. *)
Lemma hash_order_is_moot (hashed : list (Z * string)) :
  existsb (fun r =>
             let hash_list := map snd (filter (fun rh => rh.1 = r) hashed) in
             negb (is_sorted_hashes hash_list) || (1 <? length hash_list)%nat)
          (remove_dups (map fst hashed))
  = negb (bool_decide (NoDup (map fst hashed))).
Proof.
  destruct (existsb _ _) eqn:He; symmetry.
  - apply negb_true_iff, bool_decide_eq_false. intros Hn.
    apply existsb_elem in He as (r & _ & Hr). cbv zeta in Hr.
    pose proof (proj1 (nodup_fst_filter hashed) Hn r) as Hlen.
    rewrite length_map in Hr.
    destruct (filter (fun rh => rh.1 = r) hashed) as [|y [|z l']];
      cbn in Hr, Hlen; try discriminate. lia.
  - apply negb_false_iff, bool_decide_eq_true, nodup_fst_filter. intros r.
    destruct (decide (r ∈ map fst hashed)) as [Hin|Hout].
    + assert (forall x, x ∈ remove_dups (map fst hashed) ->
                (1 <? length (map snd (filter (fun rh => rh.1 = x) hashed)))%nat
                = false) as Hall.
      { intros x Hx.
        destruct (1 <? length (map snd (filter (fun rh => rh.1 = x) hashed)))%nat
          eqn:Hc; [|reflexivity].
        assert (existsb (fun r =>
             let hash_list := map snd (filter (fun rh => rh.1 = r) hashed) in
             negb (is_sorted_hashes hash_list) || (1 <? length hash_list)%nat)
          (remove_dups (map fst hashed)) = true) as Ht; [|congruence].
        apply existsb_elem. exists x. split; [exact Hx|]. cbv zeta.
        rewrite Hc. apply orb_true_r. }
      specialize (Hall r ltac:(apply elem_of_remove_dups; exact Hin)).
      rewrite length_map in Hall. apply Nat.ltb_ge in Hall. exact Hall.
    + destruct (filter (fun rh => rh.1 = r) hashed) as [|y l'] eqn:Hf; [cbn; lia|].
      exfalso. apply Hout.
      assert (y ∈ filter (fun rh => rh.1 = r) hashed) as Hy by (rewrite Hf; left).
      apply list_elem_of_filter in Hy as [Hy1 Hy2].
      change (map fst hashed) with (fst <$> hashed). apply list_elem_of_fmap.
      exists y. split; [congruence|exact Hy2].
Qed.

Lemma strictly_increasing (l : list Z) :
  StronglySorted Z.lt l <-> is_sorted_ints l = true /\ NoDup l.
Proof.
  split.
  - intros H. split.
    + induction H as [|a l _ IH Hall]; [reflexivity|].
      destruct l as [|b rest]; [reflexivity|]. cbn [is_sorted_ints].
      apply Forall_cons in Hall as [Hab _].
      destruct (Z.ltb_spec b a); [lia|exact IH].
    + induction H as [|a l _ IH Hall]; constructor; [|exact IH].
      intros Hin. rewrite Forall_forall in Hall. specialize (Hall a Hin). lia.
  - intros [Hs Hn]. apply Sorted_StronglySorted; [intros x y w; lia|].
    induction l as [|a l IH]; [constructor|].
    apply NoDup_cons in Hn as [Ha Hn].
    destruct l as [|b rest]; [repeat constructor|].
    cbn [is_sorted_ints] in Hs. destruct (Z.ltb_spec b a); [discriminate|].
    constructor; [apply IH; assumption|]. constructor.
    assert (a <> b) by (intros ->; apply Ha; left). lia.
Qed.

(** X30. What the input check comes to.  For a vector whose name contains
    [order_check], or that expects [preimages_not_sorted_unique], the input
    is valid exactly when its requesters are strictly increasing: a service
    that provides two preimages is turned down whatever their hashes are.
    For any other vector the input is valid exactly when no service provides
    the same preimage twice, and the order is not looked at. *)
Theorem check_input_decides (test : PreimagesTestVector)
    (hashed : list (Z * string)) :
  mapM (fun p => h ← hash_blob (in_blob p); Ok (requester p, h))
       (in_preimages (input test)) = Ok hashed ->
  check_input test
  = Ok (if Assurances.string_contains "order_check" (lower (name test))
           || bool_decide (output_err test = Some "preimages_not_sorted_unique")
        then bool_decide
               (StronglySorted Z.lt (map requester (in_preimages (input test))))
        else bool_decide (NoDup hashed)).
Proof.
  intros Hm. pose proof (hashed_requesters _ _ Hm) as Hreq.
  unfold check_input. destruct (in_preimages (input test)) as [|p ps] eqn:Hps.
  - cbn in Hm. injection Hm as <-.
    destruct (_ || _); rewrite bool_decide_eq_true_2 by constructor; reflexivity.
  - rewrite Hm. cbn [mbind result_bind].
    rewrite hash_order_is_moot, has_duplicates_nodup, Hreq.
    set (reqs := map requester (p :: ps)) in *.
    destruct (_ || _).
    + rewrite andb_true_r, andb_true_l.
      destruct (decide (StronglySorted Z.lt reqs)) as [Hs|Hs].
      * rewrite (bool_decide_eq_true_2 _ Hs).
        apply strictly_increasing in Hs as [Hs Hn].
        rewrite Hs, (bool_decide_eq_true_2 (NoDup reqs) Hn).
        rewrite bool_decide_eq_true_2; [reflexivity|].
        apply (NoDup_fmap_1 fst). change (fst <$> hashed) with (map fst hashed).
        rewrite Hreq. exact Hn.
      * rewrite (bool_decide_eq_false_2 _ Hs).
        destruct (bool_decide (NoDup hashed)); [|reflexivity]. cbn [negb].
        destruct (is_sorted_ints reqs) eqn:Hi; [|reflexivity]. cbn [negb].
        destruct (decide (NoDup reqs)) as [Hn|Hn].
        -- exfalso. apply Hs, strictly_increasing. auto.
        -- rewrite (bool_decide_eq_false_2 _ Hn). reflexivity.
    + rewrite andb_false_r, andb_false_l.
      destruct (bool_decide (NoDup hashed)); reflexivity.
Qed.

End WithHash.

(** *** Concrete runs, with a stand-in for BLAKE2b *)

Definition sample_blake (data : list byte) : list byte := data ++ [x00].

(** Service 1 asked for the hash of the two-byte blob [0xabcd], under a
    lookup key that gives the length as 999. *)
Definition asking_state : PreimagesState :=
  mkState [mkAccount 1 (mkData [] [mkMeta (mkKey "0xabcd00" 999) []])] [].
Definition one_preimage : PreimagesInput :=
  mkInput [mkPreimageInput 1 "0xabcd"] 7.



Example hash_blob_canonical_witness :
  hash_blob sample_blake "abcd" = Ok "0xabcd00"
  /\ hash_blob sample_blake "0xabcd" = Ok "0xabcd00"
  /\ lower "0xabcd00" = "0xabcd00".
Proof.
  destruct (hash_blob_canonical sample_blake "abcd" "0xabcd00" eq_refl)
    as (Hlow & _ & _ & Hprefix).
  split; [reflexivity|]. split; [apply Hprefix; reflexivity|exact Hlow].
Defined.

Example rerun_changes_nothing_witness :
  exists st1,
    generated_post_state
      (run_preimage_test sample_blake
         (mkVector "preimage_needed-1.json" one_preimage asking_state None))
    = Some st1
    /\ st1 <> asking_state
    /\ generated_post_state
         (run_preimage_test sample_blake
            (mkVector "preimage_needed-1.json" one_preimage st1 None))
       = Some st1.
Proof.
  assert (exists st1,
             generated_post_state
               (run_preimage_test sample_blake
                  (mkVector "preimage_needed-1.json" one_preimage asking_state None))
             = Some st1 /\ st1 <> asking_state) as (st1 & H & Hne).
  { eexists. split; [vm_compute; reflexivity|discriminate]. }
  exists st1. split; [exact H|]. split; [exact Hne|].
  exact (rerun_changes_nothing sample_blake _ st1 H).
Defined.

Example provide_all_keeps_witness :
  exists st',
    provide_all sample_blake 7 asking_state (in_preimages one_preimage) = Ok st'
    /\ extends asking_state st'
    /\ preimages_sorted st'.
Proof.
  assert (exists st',
             provide_all sample_blake 7 asking_state (in_preimages one_preimage)
             = Ok st') as (st' & H).
  { eexists. vm_compute. reflexivity. }
  exists st'. split; [exact H|].
  destruct (provide_all_keeps sample_blake 7 _ _ _ H) as (Hext & Hsorted & _).
  split; [exact Hext|]. apply Hsorted. repeat constructor.
Defined.

(** Service 1 provides two preimages whose hashes are in increasing
    order; service 1 and then service 2 provide one each. *)
Definition two_of_one_service : PreimagesTestVector :=
  mkVector "preimages_order_check-1.json"
    (mkInput [mkPreimageInput 1 "0xabcd"; mkPreimageInput 1 "0xabce"] 7)
    asking_state None.
Definition one_of_two_services : PreimagesTestVector :=
  mkVector "preimages_order_check-2.json"
    (mkInput [mkPreimageInput 1 "0xabce"; mkPreimageInput 2 "0xabcd"] 7)
    asking_state None.

Example check_input_decides_witness :
  check_input sample_blake two_of_one_service = Ok false
  /\ check_input sample_blake one_of_two_services = Ok true.
Proof.
  split.
  - rewrite (check_input_decides sample_blake two_of_one_service
               [(1, "0xabcd00"); (1, "0xabce00")] eq_refl).
    vm_compute. reflexivity.
  - rewrite (check_input_decides sample_blake one_of_two_services
               [(1, "0xabce00"); (2, "0xabcd00")] eq_refl).
    vm_compute. reflexivity.
Defined.

End Preimages.

(* ===================================================================== *)
(** ** Validation errors across the STFs *)
(* ===================================================================== *)

Module Pipeline.
Import Py.


End Pipeline.
